(** * Railway deployment failure analyzer: the classification core

    A shallow embedding of [railway_deployment_analyzer.py]: the failure
    pattern catalog, [analyze_logs], [_extract_affected_files], the status
    rule and the project matcher of [analyze_repo], and the per-repository
    loop of [run_analysis].

    Python [str] values are modelled as [string]; a character stands for
    the code point of the same number, so the texts covered are those over
    code points 0..255.  On that range [str.lower], [str.isspace] and the
    character classes of [re] are as defined below.

    Effectful code is written in a small monad [M] that carries the
    outcome of a run (a value or a Python exception) and the trace of the
    pattern tests, phrase tests and calls the run performed.  What the
    remote interface answers is a JSON value ([json]); the value the log
    source hands to [analyze_repo] is such a value too, a string from the
    command-line tool and whatever the answer stores from the remote
    interface. *)

From Stdlib Require Import Ascii String NArith ZArith List Bool Lia.
From Stdlib Require Import DecimalString SpecFloat.
From stdpp Require Import base option list gmap strings.

Local Open Scope stdpp_scope.

(** ** Characters and strings *)

Module Str.

Definition code (c : ascii) : N := N_of_ascii c.

(** [str.isspace] on one character: tab, LF, VT, FF, CR, the four
    separators FS..US, space, NEL and the no-break space. *)
Definition isspace (c : ascii) : bool :=
  let n := code c in
  ((9 <=? n) && (n <=? 13) || (28 <=? n) && (n <=? 32)
   || (n =? 133) || (n =? 160))%N.

(** [\d] for [str] patterns: the decimal digits below 256 are 0..9. *)
Definition isdigit (c : ascii) : bool :=
  let n := code c in ((48 <=? n) && (n <=? 57))%N.

(** [str.lower] on one character: A..Z and the Latin-1 capitals
    (192..222 without the multiplication sign 215) move up by 32. *)
Definition lower_char (c : ascii) : ascii :=
  let n := code c in
  if ((65 <=? n) && (n <=? 90)
      || (192 <=? n) && (n <=? 222) && negb (n =? 215))%N
  then ascii_of_N (n + 32) else c.

Fixpoint lower (s : string) : string :=
  match s with
  | EmptyString => EmptyString
  | String c s' => String (lower_char c) (lower s')
  end.

Fixpoint lstrip (s : string) : string :=
  match s with
  | EmptyString => EmptyString
  | String c s' => if isspace c then lstrip s' else s
  end.

Definition rstrip (s : string) : string :=
  String.rev (lstrip (String.rev s)).

(** [s.strip()] *)
Definition strip (s : string) : string := rstrip (lstrip s).

Fixpoint all_space (s : string) : bool :=
  match s with
  | EmptyString => true
  | String c s' => isspace c && all_space s'
  end.

(** [sub in s] *)
Fixpoint contains (sub s : string) : bool :=
  if String.prefix sub s then true
  else match s with
       | EmptyString => false
       | String _ s' => contains sub s'
       end.

(** [s[:n]] for [n >= 0] *)
Fixpoint take (n : nat) (s : string) : string :=
  match n, s with
  | S n', String c s' => String c (take n' s')
  | _, _ => EmptyString
  end.

(** [s.replace(a, b)] for single characters [a], [b] *)
Fixpoint replace_char (a b : ascii) (s : string) : string :=
  match s with
  | EmptyString => EmptyString
  | String c s' =>
      String (if Ascii.eqb c a then b else c) (replace_char a b s')
  end.

Definition nl : string := String "010"%char EmptyString.

End Str.

(** ** Regular expressions: the fragment of [re] the program uses

    Literals, [.], the escapes [\s] [\d] [\n] and escaped punctuation,
    character sets without ranges, groups, alternation and the greedy
    postfix operators.  A pattern outside the fragment does not compile;
    every pattern of the program does (see [failure_patterns_compile] and
    [file_patterns_compile]). *)

Module Re.

Inductive citem : Type :=
| CChar (c : ascii)
| CSpace
| CDigit.

Inductive regex : Type :=
| REps
| RChar (c : ascii)
| RAny
| RSet (negated : bool) (items : list citem)
| RCat (r1 r2 : regex)
| RAlt (r1 r2 : regex)
| RStar (r : regex)
| RPlus (r : regex)
| ROpt (r : regex)
| RGroup (n : nat) (r : regex).

Definition is_alnum (c : ascii) : bool :=
  let n := Str.code c in
  ((48 <=? n) && (n <=? 57) || (65 <=? n) && (n <=? 90)
   || (97 <=? n) && (n <=? 122))%N.

(** The character after a backslash, as a set item. *)
Definition escape (c : ascii) : option citem :=
  if Ascii.eqb c "s" then Some CSpace
  else if Ascii.eqb c "d" then Some CDigit
  else if Ascii.eqb c "n" then Some (CChar "010")
  else if is_alnum c then None
  else Some (CChar c).

Definition item_atom (i : citem) : regex :=
  match i with
  | CChar c => RChar c
  | CSpace => RSet false [CSpace]
  | CDigit => RSet false [CDigit]
  end.

(** The items of a set, up to the closing bracket. *)
Fixpoint parse_set (s : list ascii) : option (list citem * list ascii) :=
  match s with
  | [] => None
  | c :: s1 =>
      if Ascii.eqb c "]" then Some ([], s1)
      else if Ascii.eqb c "-" then None
      else if Ascii.eqb c "\" then
        match s1 with
        | [] => None
        | e :: s2 =>
            i ← escape e;
            '(its, s3) ← parse_set s2;
            Some (i :: its, s3)
        end
      else
        '(its, s2) ← parse_set s1;
        Some (CChar c :: its, s2)
  end.

(** One greedy postfix operator at most; a second one in a row is the
    error [multiple repeat], and the lazy forms are outside the fragment. *)
Definition parse_postfix (a : regex) (s : list ascii)
  : option (regex * list ascii) :=
  let is_op c := Ascii.eqb c "*" || Ascii.eqb c "+" || Ascii.eqb c "?" in
  match s with
  | c :: s1 =>
      if is_op c then
        match s1 with
        | d :: _ => if is_op d then None else
            Some (if Ascii.eqb c "*" then RStar a
                  else if Ascii.eqb c "+" then RPlus a else ROpt a, s1)
        | [] =>
            Some (if Ascii.eqb c "*" then RStar a
                  else if Ascii.eqb c "+" then RPlus a else ROpt a, s1)
        end
      else Some (a, s)
  | [] => Some (a, s)
  end.

(** Recursive descent; [n] is the number of groups opened so far, a group
    takes its number at its opening parenthesis. *)
Fixpoint parse_alt (fuel n : nat) (s : list ascii)
  : option (regex * nat * list ascii) :=
  match fuel with
  | 0 => None
  | S fuel' =>
      '(r1, n1, s1) ← parse_seq fuel' n s;
      match s1 with
      | c :: s2 =>
          if Ascii.eqb c "|" then
            '(r2, n2, s3) ← parse_alt fuel' n1 s2;
            Some (RAlt r1 r2, n2, s3)
          else Some (r1, n1, s1)
      | [] => Some (r1, n1, s1)
      end
  end
with parse_seq (fuel n : nat) (s : list ascii)
  : option (regex * nat * list ascii) :=
  match fuel with
  | 0 => None
  | S fuel' =>
      match s with
      | [] => Some (REps, n, s)
      | c :: _ =>
          if Ascii.eqb c "|" || Ascii.eqb c ")" then Some (REps, n, s)
          else
            '(a, n1, s1) ← parse_atom fuel' n s;
            '(a', s2) ← parse_postfix a s1;
            '(r, n2, s3) ← parse_seq fuel' n1 s2;
            Some (match r with REps => a' | _ => RCat a' r end, n2, s3)
      end
  end
with parse_atom (fuel n : nat) (s : list ascii)
  : option (regex * nat * list ascii) :=
  match fuel with
  | 0 => None
  | S fuel' =>
      match s with
      | [] => None
      | c :: s1 =>
          if Ascii.eqb c "(" then
            '(r, n1, s2) ← parse_alt fuel' (S n) s1;
            match s2 with
            | d :: s3 =>
                if Ascii.eqb d ")" then Some (RGroup (S n) r, n1, s3)
                else None
            | [] => None
            end
          else if Ascii.eqb c "[" then
            match s1 with
            | d :: s2 =>
                if Ascii.eqb d "^" then
                  '(its, s3) ← parse_set s2;
                  match its with [] => None | _ => Some (RSet true its, n, s3) end
                else
                  '(its, s3) ← parse_set s1;
                  match its with [] => None | _ => Some (RSet false its, n, s3) end
            | [] => None
            end
          else if Ascii.eqb c "\" then
            match s1 with
            | e :: s2 => i ← escape e; Some (item_atom i, n, s2)
            | [] => None
            end
          else if Ascii.eqb c "." then Some (RAny, n, s1)
          else if Ascii.eqb c "*" || Ascii.eqb c "+" || Ascii.eqb c "?"
                  || Ascii.eqb c "{" || Ascii.eqb c "}" || Ascii.eqb c "^"
                  || Ascii.eqb c "$" || Ascii.eqb c "]" then None
          else Some (RChar c, n, s1)
      end
  end.

(** [re.compile(pattern)]: the expression and its number of groups;
    [None] stands for [re.error]. *)
Definition compile (pattern : string) : option (regex * nat) :=
  let s := list_ascii_of_string pattern in
  match parse_alt (4 * length s + 4) 0 s with
  | Some (r, n, []) => Some (r, n)
  | _ => None
  end.

(** *** Matching

    A backtracking matcher in continuation-passing style, with the
    priorities of [re]: the left alternative first, the greedy operators
    first through their operand.  [ic] is the flag [re.IGNORECASE]: a
    character is compared through [Str.lower_char]. *)

Definition fold_case (ic : bool) (c : ascii) : ascii :=
  if ic then Str.lower_char c else c.

Definition item_accepts (ic : bool) (c : ascii) (i : citem) : bool :=
  match i with
  | CChar p => Ascii.eqb (fold_case ic c) (fold_case ic p)
  | CSpace => Str.isspace c
  | CDigit => Str.isdigit c
  end.

(** Whether the one-character expression [r] accepts [c]; [.] takes every
    character but the line feed (no [re.DOTALL]). *)
Definition accepts (ic : bool) (r : regex) (c : ascii) : bool :=
  match r with
  | RChar p => Ascii.eqb (fold_case ic c) (fold_case ic p)
  | RAny => negb (Ascii.eqb c "010")
  | RSet negated items => xorb negated (existsb (item_accepts ic c) items)
  | _ => false
  end.

(** Group number to the text it captured last. *)
Definition captures : Type := list (nat * list ascii).

(** The part of [s] in front of its suffix [s1]. *)
Definition consumed (s s1 : list ascii) : list ascii :=
  firstn (length s - length s1) s.

Section Matcher.
Context {R : Type}.

(** Iterations of a starred operand [step], as many as possible first; an
    iteration must consume, so [fuel = length s] is never exhausted.  (An
    operand that can match the empty string is iterated differently by
    [re]; no starred operand of the program's patterns can.) *)
Fixpoint star
  (step : list ascii → captures → (list ascii → captures → option R) → option R)
  (k : list ascii → captures → option R)
  (fuel : nat) (s : list ascii) (cs : captures) : option R :=
  match fuel with
  | 0 => k s cs
  | S fuel' =>
      match step s cs (fun s1 cs1 =>
                if length s1 <? length s then star step k fuel' s1 cs1
                else None) with
      | Some x => Some x
      | None => k s cs
      end
  end.

Fixpoint run (ic : bool) (r : regex) (s : list ascii) (cs : captures)
  (k : list ascii → captures → option R) : option R :=
  match r with
  | REps => k s cs
  | RChar _ | RAny | RSet _ _ =>
      match s with
      | c :: s1 => if accepts ic r c then k s1 cs else None
      | [] => None
      end
  | RCat r1 r2 => run ic r1 s cs (fun s1 cs1 => run ic r2 s1 cs1 k)
  | RAlt r1 r2 =>
      match run ic r1 s cs k with
      | Some x => Some x
      | None => run ic r2 s cs k
      end
  | RStar r1 => star (run ic r1) k (length s) s cs
  | RPlus r1 =>
      run ic r1 s cs (fun s1 cs1 => star (run ic r1) k (length s1) s1 cs1)
  | ROpt r1 =>
      match run ic r1 s cs k with
      | Some x => Some x
      | None => k s cs
      end
  | RGroup n r1 =>
      run ic r1 s cs (fun s1 cs1 => k s1 ((n, consumed s s1) :: cs1))
  end.

End Matcher.

(** A match anchored at the head of [s]: the matched text, the captures
    and the rest of [s]. *)
Definition match_at (ic : bool) (r : regex) (s : list ascii)
  : option (list ascii * captures * list ascii) :=
  run ic r s [] (fun s1 cs => Some (consumed s s1, cs, s1)).

(** [re.search]: is there a match starting anywhere in [s]. *)
Fixpoint search_from (ic : bool) (r : regex) (s : list ascii) : bool :=
  match match_at ic r s with
  | Some _ => true
  | None =>
      match s with
      | [] => false
      | _ :: s1 => search_from ic r s1
      end
  end.

(** What [m.group(n)] is in [re.findall]: the empty string for a group
    that took no part in the match. *)
Fixpoint group (cs : captures) (n : nat) : string :=
  match cs with
  | [] => EmptyString
  | (m, txt) :: cs1 =>
      if Nat.eqb m n then string_of_list_ascii txt else group cs1 n
  end.

(** An element of the list [re.findall] returns: a string for a pattern
    with at most one group, else the tuple of all groups (two at least). *)
Inductive found : Type :=
| FStr (s : string)
| FTuple (first : string) (others : list string).

Definition found_of (ngroups : nat) (whole : list ascii) (cs : captures)
  : found :=
  match ngroups with
  | 0 => FStr (string_of_list_ascii whole)
  | 1 => FStr (group cs 1)
  | S (S n) => FTuple (group cs 1) (map (group cs) (seq 2 (S n)))
  end.

(** The scan of [re.findall]: leftmost match, then on from its end; after
    a match of the empty string, on from the next character.  (None of the
    program's patterns matches the empty string.) *)
Fixpoint findall_from (ic : bool) (r : regex) (ngroups fuel : nat)
  (s : list ascii) : list found :=
  match fuel with
  | 0 => []
  | S fuel' =>
      match match_at ic r s with
      | Some (whole, cs, rest) =>
          found_of ngroups whole cs ::
            match whole, s with
            | [], [] => []
            | [], _ :: s1 => findall_from ic r ngroups fuel' s1
            | _ :: _, _ => findall_from ic r ngroups fuel' rest
            end
      | None =>
          match s with
          | [] => []
          | _ :: s1 => findall_from ic r ngroups fuel' s1
          end
      end
  end.

(** [re.search(pattern, text, flags) is not None] and
    [re.findall(pattern, text, flags)]; [None] where the pattern does not
    compile. *)
Definition search (ic : bool) (pattern text : string) : option bool :=
  '(r, _) ← compile pattern;
  Some (search_from ic r (list_ascii_of_string text)).

Definition findall (ic : bool) (pattern text : string)
  : option (list found) :=
  '(r, n) ← compile pattern;
  Some (findall_from ic r n (S (String.length text))
          (list_ascii_of_string text)).

End Re.

(** ** JSON values

    What [response.json()] returns: [None], a [bool], an [int], a
    [float], a [str], a [list] or a [dict] with string keys. *)

#[warnings="-register-all"]
Inductive json : Type :=
| JNull
| JBool (b : bool)
| JInt (n : Z)
| JFloat (x : spec_float)
| JStr (s : string)
| JArr (items : list json)
| JObj (fields : gmap string json).

(** The Python operations the program applies to such values; [None]
    stands for the exception the operation raises on a value of a type
    it does not take. *)
Module Py.

(** [bool(v)] *)
Definition truthy (v : json) : bool :=
  match v with
  | JNull => false
  | JBool b => b
  | JInt n => negb (n =? 0)%Z
  | JFloat x => match x with S754_zero _ => false | _ => true end
  | JStr s => match s with EmptyString => false | _ => true end
  | JArr items => match items with [] => false | _ => true end
  | JObj fields => negb (bool_decide (fields = ∅))
  end.

(** [key in v]: a key of the dict, an item of the list, a part of the
    string; a [TypeError] on the other values. *)
Definition contains (key : string) (v : json) : option bool :=
  match v with
  | JObj fields => Some (bool_decide (is_Some (fields !! key)))
  | JArr items =>
      Some (existsb (λ item, match item with
                             | JStr s => String.eqb key s
                             | _ => false
                             end) items)
  | JStr s => Some (Str.contains key s)
  | _ => None
  end.

(** [v[key]] for a string [key]: the value under the key of a dict
    ([KeyError] without it), a [TypeError] on the other values. *)
Definition subscript (v : json) (key : string) : option json :=
  match v with
  | JObj fields => fields !! key
  | _ => None
  end.

(** [v[0]]: the first item of a list, the first character of a string
    ([IndexError] on the empty ones), a [KeyError] on a dict, whose keys
    are strings, a [TypeError] on the other values. *)
Definition first (v : json) : option json :=
  match v with
  | JArr (item :: _) => Some item
  | JStr (String c _) => Some (JStr (String c EmptyString))
  | _ => None
  end.

(** [v.get(key, default)]: only a dict has [get] ([AttributeError]). *)
Definition get (v : json) (key : string) (dflt : json) : option json :=
  match v with
  | JObj fields => Some (default dflt (fields !! key))
  | _ => None
  end.

(** [len(v)]: a [TypeError] on [None], the booleans and the numbers. *)
Definition len (v : json) : option nat :=
  match v with
  | JStr s => Some (String.length s)
  | JArr items => Some (length items)
  | JObj fields => Some (size fields)
  | _ => None
  end.

End Py.

(** ** Data model *)

Inductive DeploymentStatus : Type :=
| SUCCESS
| FAILED
| PENDING
| UNKNOWN.

(** [affected_files] defaults to [None]. *)
Record DeploymentIssue : Type := {
  type : string;
  severity : string;
  description : string;
  remediation : string;
  affected_files : option (list string)
}.

(** [logs_preview] is declared a [str]; [analyze_repo] stores what its
    preview expression gives, which for an empty list or dict of logs is
    that value. *)
Record RepoAnalysis : Type := {
  repo_name : string;
  status : DeploymentStatus;
  issues : list DeploymentIssue;
  last_deployment : option string;
  logs_preview : json
}.

(** A repository or project record ([Dict]): field name to value.  The
    fields the program reads ([name], [id], [updatedAt]) hold strings. *)
Abbreviation Dict := (gmap string string).

(** One entry of [failure_patterns]: the value stored under a category
    key, with its three fixed fields. *)
Module Config.
Record t : Type := {
  patterns : list string;
  severity : string;
  remediation : string
}.
End Config.

(** ** Effects

    Exceptions and a trace of the tests and calls a run performs.
    [AttributeError a v]: the value [v] has no attribute [a].
    [TypeError op v]: the operation [op] does not take the value [v]
    ([len] of [None], a list plus a string, a value that is not a string
    under [join]).  [SliceError v]: what [v[:500]] raises on a dict [v],
    a [TypeError] (the slice is not hashable) up to Python 3.11 and a
    [KeyError] from 3.12 on. *)

Inductive exn : Type :=
| KeyError (key : string)
| ReError (pattern : string)
| AttributeError (attribute : string) (operand : json)
| TypeError (operation : string) (operand : json)
| SliceError (operand : json).

Inductive event : Type :=
| SearchTest (issue_type pattern : string)
| PhraseTest (indicator : string)
| LogsFetched (project_name : string) (project_id : option string)
| LogsAnalyzed (logs : json) (repo_name : string).

(** A computation: its outcome ([inl] an exception, [inr] a value) and
    the events it performed, in order. *)
Definition M (A : Type) : Type := (exn + A) * list event.

Definition ret {A : Type} (a : A) : M A := (inr a, []).

Definition raise {A : Type} (e : exn) : M A := (inl e, []).

Definition tell (ev : event) : M unit := (inr tt, [ev]).

Definition bind {A B : Type} (m : M A) (f : A → M B) : M B :=
  match m with
  | (inl e, tr) => (inl e, tr)
  | (inr a, tr) => let '(r, tr') := f a in (r, tr ++ tr')
  end.

(** [try: m except Exception as e: h e] *)
Definition try_except {A : Type} (m : M A) (h : exn → M A) : M A :=
  match m with
  | (inl e, tr) => let '(r, tr') := h e in (r, tr ++ tr')
  | (inr a, tr) => (inr a, tr)
  end.

#[global] Instance M_ret : MRet M := @ret.
#[global] Instance M_bind : MBind M := λ A B f m, bind m f.

(** [d[key]] *)
Definition getitem (d : Dict) (key : string) : M string :=
  match d !! key with
  | Some v => mret v
  | None => raise (KeyError key)
  end.

(** [re.search(pattern, text, re.IGNORECASE)] as a truth value, and
    [re.findall(pattern, text, re.IGNORECASE)]. *)
Definition re_search (pattern text : string) : M bool :=
  match Re.search true pattern text with
  | Some b => mret b
  | None => raise (ReError pattern)
  end.

Definition re_findall (pattern text : string) : M (list Re.found) :=
  match Re.findall true pattern text with
  | Some ms => mret ms
  | None => raise (ReError pattern)
  end.

(** ** The pattern catalog

    [self.failure_patterns], key by key in insertion order; each value is
    named after its key. *)

Definition missing_env_vars : Config.t := {|
  Config.patterns := [
    "missing environment variable";
    "environment variable.*not found";
    "process\.env\..*is undefined";
    "OPENAI_API_KEY.*not found";
    "DATABASE_URL.*not found";
    "RAILWAY_TOKEN.*not found" ];
  Config.severity := "critical";
  Config.remediation := "Add missing environment variables in Railway dashboard under Variables tab"
|}.

Definition port_binding : Config.t := {|
  Config.patterns := [
    "port binding.*failed";
    "port.*not bound";
    "listen.*EADDRINUSE";
    "address already in use";
    "port.*required by railway" ];
  Config.severity := "critical";
  Config.remediation := "Ensure your app binds to the PORT environment variable (Railway sets this automatically)"
|}.

Definition build_failure : Config.t := {|
  Config.patterns := [
    "build failed";
    "npm.*error";
    "yarn.*error";
    "pnpm.*error";
    "typescript.*error";
    "compilation.*error";
    "module.*not found";
    "dependency.*not found" ];
  Config.severity := "critical";
  Config.remediation := "Check package.json dependencies, run 'npm install' locally to verify, ensure all imports are correct"
|}.

Definition database_connection : Config.t := {|
  Config.patterns := [
    "database.*connection.*failed";
    "prisma.*error";
    "connection.*refused";
    "database.*not found";
    "authentication.*failed" ];
  Config.severity := "critical";
  Config.remediation := "Verify DATABASE_URL is correct, check database is running, ensure proper credentials"
|}.

Definition memory_limit : Config.t := {|
  Config.patterns := [
    "out of memory";
    "memory.*limit.*exceeded";
    "heap.*out.*of.*memory";
    "allocation.*failed" ];
  Config.severity := "warning";
  Config.remediation := "Optimize memory usage, consider upgrading Railway plan, add memory monitoring"
|}.

Definition timeout : Config.t := {|
  Config.patterns := [
    "timeout";
    "request.*timed.*out";
    "connection.*timeout";
    "operation.*timed.*out" ];
  Config.severity := "warning";
  Config.remediation := "Increase timeout settings, optimize slow operations, check external API responses"
|}.

Definition file_not_found : Config.t := {|
  Config.patterns := [
    "file.*not.*found";
    "cannot.*find.*module";
    "ENOENT";
    "no such file.*directory" ];
  Config.severity := "critical";
  Config.remediation := "Check file paths, ensure all required files are committed, verify build output includes all assets"
|}.

Definition permission_denied : Config.t := {|
  Config.patterns := [
    "permission.*denied";
    "EACCES";
    "access.*denied" ];
  Config.severity := "critical";
  Config.remediation := "Check file permissions, ensure Railway has proper access to required files"
|}.

Definition failure_patterns : list (string * Config.t) := [
  ("missing_env_vars", missing_env_vars);
  ("port_binding", port_binding);
  ("build_failure", build_failure);
  ("database_connection", database_connection);
  ("memory_limit", memory_limit);
  ("timeout", timeout);
  ("file_not_found", file_not_found);
  ("permission_denied", permission_denied)
].


(** ** [_extract_affected_files] *)

Definition file_patterns : list string := [
  "file:?\s*([^\s\n]+)";
  "at\s+([^\s\n]+\.(js|ts|jsx|tsx|py|java|cpp|c|h))";
  "in\s+([^\s\n]+\.(js|ts|jsx|tsx|py|java|cpp|c|h))";
  "([^\s\n]+\.(js|ts|jsx|tsx|py|java|cpp|c|h)):\d+"
].

(** [match[0] if isinstance(match, tuple) else match] *)
Definition match_file (m : Re.found) : string :=
  match m with
  | Re.FTuple first _ => first
  | Re.FStr s => s
  end.

(** The loop over [file_patterns], extending [files]. *)
Fixpoint extend_files (fps : list string) (logs : string)
  (files : list string) : M (list string) :=
  match fps with
  | [] => mret files
  | file_pattern :: rest =>
      matches ← re_findall file_pattern logs;
      extend_files rest logs (files ++ map match_file matches)
  end.

(** [list(set(files))]: the elements of the set, in the order the set
    enumerates them. *)
Definition list_set (files : list string) : list string :=
  elements (list_to_set files : gset string).

(** The parameter [pattern] is not used by the body. *)
Definition _extract_affected_files (logs pattern : string)
  : M (list string) :=
  files ← extend_files file_patterns logs [];
  mret (list_set files).

(** ** [analyze_logs] *)

Definition no_logs_issue : DeploymentIssue := {|
  type := "no_logs";
  severity := "warning";
  description := "No deployment logs available";
  remediation := "Check Railway dashboard or ensure proper authentication";
  affected_files := None
|}.

Definition unknown_failure_issue : DeploymentIssue := {|
  type := "unknown_failure";
  severity := "warning";
  description := "No clear success or failure indicators found";
  remediation := "Review logs manually in Railway dashboard";
  affected_files := None
|}.

(** The issue appended for category [issue_type] once one of its
    patterns matched. *)
Definition pattern_issue (issue_type : string) (config : Config.t)
  (files : list string) : DeploymentIssue := {|
  type := issue_type;
  severity := Config.severity config;
  description :=
    "Detected " +:+ Str.replace_char "_" " " issue_type +:+ " issue";
  remediation := Config.remediation config;
  affected_files := Some files
|}.

(** The inner loop: the patterns of one category in listed order, up to
    the first that matches ([break]). *)
Fixpoint check_patterns (issue_type : string) (config : Config.t)
  (pats : list string) (logs logs_lower : string)
  (issues : list DeploymentIssue) : M (list DeploymentIssue) :=
  match pats with
  | [] => mret issues
  | pattern :: rest =>
      tell (SearchTest issue_type pattern);;
      found ← re_search pattern logs_lower;
      if (found : bool) then
        files ← _extract_affected_files logs pattern;
        mret (issues ++ [pattern_issue issue_type config files])
      else check_patterns issue_type config rest logs logs_lower issues
  end.

(** The outer loop over [failure_patterns.items()]. *)
Fixpoint check_categories (cats : list (string * Config.t))
  (logs logs_lower : string) (issues : list DeploymentIssue)
  : M (list DeploymentIssue) :=
  match cats with
  | [] => mret issues
  | (issue_type, config) :: rest =>
      issues1 ← check_patterns issue_type config (Config.patterns config)
                  logs logs_lower issues;
      check_categories rest logs logs_lower issues1
  end.

Definition success_indicators : list string := [
  "deployment successful";
  "build completed";
  "server started";
  "listening on port";
  "application ready"
].

(** [any(indicator in logs_lower for indicator in indicators)], which
    stops at the first indicator found. *)
Fixpoint any_indicator (indicators : list string) (logs_lower : string)
  : M bool :=
  match indicators with
  | [] => mret false
  | indicator :: rest =>
      tell (PhraseTest indicator);;
      if Str.contains indicator logs_lower then mret true
      else any_indicator rest logs_lower
  end.

Definition is_empty_str (s : string) : bool :=
  match s with EmptyString => true | _ => false end.

Definition is_nil {A : Type} (l : list A) : bool :=
  match l with [] => true | _ => false end.

Definition analyze_logs (logs repo_name : string)
  : M (list DeploymentIssue) :=
  let issues : list DeploymentIssue := [] in
  if is_empty_str logs || is_empty_str (Str.strip logs) then
    mret (issues ++ [no_logs_issue])
  else
    let logs_lower := Str.lower logs in
    issues ← check_categories failure_patterns logs logs_lower issues;
    has_success ← any_indicator success_indicators logs_lower;
    if negb has_success && is_nil issues then
      mret (issues ++ [unknown_failure_issue])
    else mret issues.

(** ** [analyze_repo] and the loop of [run_analysis] *)

(** The status rule of [analyze_repo] (the block under
    [# Determine status]). *)
Definition determine_status (issues : list DeploymentIssue)
  : DeploymentStatus :=
  if is_nil issues
     || forallb (λ issue, String.eqb (severity issue) "info") issues
  then SUCCESS
  else if existsb (λ issue, String.eqb (severity issue) "critical") issues
  then FAILED
  else PENDING.

(** The matching loop: the first project whose lowercased name is the
    lowercased repository name ([break]), or [None]. *)
Fixpoint find_project (railway_projects : list Dict) (repo_name : string)
  : M (option Dict) :=
  match railway_projects with
  | [] => mret None
  | project :: rest =>
      name ← getitem project "name";
      if String.eqb (Str.lower name) (Str.lower repo_name)
      then mret (Some project)
      else find_project rest repo_name
  end.

Definition no_project_analysis (repo_name : string) : RepoAnalysis := {|
  repo_name := repo_name;
  status := UNKNOWN;
  issues := [ {|
    type := "no_railway_project";
    severity := "info";
    description := "No matching Railway project found";
    remediation :=
      "Deploy this repository to Railway or check project naming";
    affected_files := None |} ];
  last_deployment := None;
  logs_preview := JStr "No Railway project found"
|}.

(** [logs[:500] + "..." if len(logs) > 500 else logs] on a string *)
Definition preview (logs : string) : string :=
  if 500 <? String.length logs then Str.take 500 logs +:+ "..."
  else logs.

(** The same expression on a value of any type: [preview] on a string; a
    list or dict of at most 500 entries is the result as it is, a longer
    list gives a slice that cannot be added to a string, and a dict takes
    no slice; [None], the booleans and the numbers have no [len]. *)
Definition preview_value (logs : json) : M json :=
  match logs with
  | JStr text => mret (JStr (preview text))
  | JArr items =>
      if 500 <? length items
      then raise (TypeError "+" (JArr (take 500 items)))
      else mret logs
  | JObj fields =>
      if 500 <? size fields then raise (SliceError logs) else mret logs
  | _ => raise (TypeError "len" logs)
  end.

(** [self.analyze_logs(logs, repo_name)] on a value of any type.  On a
    string it is [analyze_logs]; on another value the test [not logs]
    decides: a falsy value gives the issue [no_logs], a truthy one is
    asked for [strip], which it does not have. *)
Definition analyze_logs_value (logs : json) (repo_name : string)
  : M (list DeploymentIssue) :=
  match logs with
  | JStr text => analyze_logs text repo_name
  | _ =>
      let issues : list DeploymentIssue := [] in
      if negb (Py.truthy logs) then mret (issues ++ [no_logs_issue])
      else raise (AttributeError "strip" logs)
  end.

Section Analyzer.

(** The log source ([get_railway_deployment_logs], defined below): it
    catches its own failures and answers, for a project name and an
    optional project id, with a string or with the value the remote
    answer stores as logs. *)
Variable get_railway_deployment_logs : string → option string → json.

(** [str(e)] of an exception. *)
Variable str_exn : exn → string.

Definition analyze_repo (repo : Dict) (railway_projects : list Dict)
  : M RepoAnalysis :=
  repo_name ← getitem repo "name";
  railway_project ← find_project railway_projects repo_name;
  match railway_project with
  | None => mret (no_project_analysis repo_name)
  | Some project =>
      (* an empty dict is falsy too *)
      if decide (project = ∅) then mret (no_project_analysis repo_name)
      else
        project_name ← getitem project "name";
        let project_id := project !! "id" in
        tell (LogsFetched project_name project_id);;
        let logs := get_railway_deployment_logs project_name project_id in
        tell (LogsAnalyzed logs repo_name);;
        issues ← analyze_logs_value logs repo_name;
        let status := determine_status issues in
        logs_preview ← preview_value logs;
        mret {|
          repo_name := repo_name;
          status := status;
          issues := issues;
          last_deployment := project !! "updatedAt";
          logs_preview := logs_preview
        |}
  end.

Definition analysis_error (repo_name : string) (e : exn) : RepoAnalysis := {|
  repo_name := repo_name;
  status := UNKNOWN;
  issues := [ {|
    type := "analysis_error";
    severity := "warning";
    description := "Error during analysis: " +:+ str_exn e;
    remediation := "Check repository access and try again";
    affected_files := None |} ];
  last_deployment := None;
  logs_preview := JStr EmptyString
|}.

(** The loop of [run_analysis] that fills [analyses]; the handler reads
    [repo["name"]] itself, first for its message. *)
Fixpoint analyze_repos (repos railway_projects : list Dict)
  (analyses : list RepoAnalysis) : M (list RepoAnalysis) :=
  match repos with
  | [] => mret analyses
  | repo :: rest =>
      analysis ← try_except (analyze_repo repo railway_projects)
                   (λ e, _ ← getitem repo "name";
                         repo_name ← getitem repo "name";
                         mret (analysis_error repo_name e));
      analyze_repos rest railway_projects (analyses ++ [analysis])
  end.

End Analyzer.

(** ** What a run tests and finds, stated without effects *)

(** Pattern [pattern] compiles and is found in [text]. *)
Definition matches (pattern text : string) : bool :=
  match Re.search true pattern text with
  | Some true => true
  | _ => false
  end.

Definition category_matches (config : Config.t) (logs_lower : string)
  : bool :=
  existsb (λ p, matches p logs_lower) (Config.patterns config).

(** The patterns of a list up to and including the first that matches. *)
Fixpoint tested (pats : list string) (logs_lower : string) : list string :=
  match pats with
  | [] => []
  | p :: rest =>
      p :: (if matches p logs_lower then [] else tested rest logs_lower)
  end.

(** The indicators of a list up to and including the first contained. *)
Fixpoint asked (indicators : list string) (logs_lower : string)
  : list string :=
  match indicators with
  | [] => []
  | i :: rest =>
      i :: (if Str.contains i logs_lower then [] else asked rest logs_lower)
  end.

(** The patterns a trace records as tested for category [issue_type]. *)
Definition tested_patterns (issue_type : string) (tr : list event)
  : list string :=
  flat_map (λ ev, match ev with
                  | SearchTest k p =>
                      if String.eqb k issue_type then [p] else []
                  | _ => []
                  end) tr.

(** The file names one extraction pattern yields on [logs]. *)
Definition found_files (file_pattern logs : string) : list string :=
  match Re.findall true file_pattern logs with
  | Some ms => map match_file ms
  | None => []
  end.

Definition extracted (logs : string) : list string :=
  list_set (flat_map (λ fp, found_files fp logs) file_patterns).

Definition compiles (pattern : string) : bool :=
  match Re.compile pattern with Some _ => true | None => false end.

(** The first character a match of [r] must start with, when [r] starts
    with a literal. *)
Definition head_char (r : Re.regex) : option ascii :=
  match r with
  | Re.RChar c => Some c
  | Re.RCat (Re.RChar c) _ => Some c
  | _ => None
  end.

(** Pattern [pattern] compiles to an expression that starts with a
    literal other than a whitespace character. *)
Definition starts_with_ink (pattern : string) : bool :=
  match Re.compile pattern with
  | Some (r, _) =>
      match head_char r with
      | Some c => negb (Str.isspace (Str.lower_char c))
      | None => false
      end
  | None => false
  end.

Definition catalog_compiles (cats : list (string * Config.t)) : bool :=
  forallb (λ kc, forallb compiles (Config.patterns kc.2)) cats.

Definition catalog_ink (cats : list (string * Config.t)) : bool :=
  forallb (λ kc, forallb starts_with_ink (Config.patterns kc.2)) cats.

(** The issues the category loop appends: one per category with a
    matching pattern, in catalog order. *)
Definition detected (cats : list (string * Config.t))
  (logs logs_lower : string) : list DeploymentIssue :=
  (λ kc, pattern_issue kc.1 kc.2 (extracted logs))
    <$> filter (λ kc, category_matches kc.2 logs_lower = true) cats.

(** The pattern tests the category loop performs. *)
Definition search_trace (cats : list (string * Config.t))
  (logs_lower : string) : list event :=
  flat_map
    (λ kc, SearchTest kc.1 <$> tested (Config.patterns kc.2) logs_lower)
    cats.

Definition has_success (logs_lower : string) : bool :=
  existsb (λ i, Str.contains i logs_lower) success_indicators.

(** Issues and trace of [analyze_logs] on a text that is not blank. *)
Definition classify (logs : string) : list DeploymentIssue :=
  let found := detected failure_patterns logs (Str.lower logs) in
  if negb (has_success (Str.lower logs)) && is_nil found
  then [unknown_failure_issue] else found.

Definition classify_trace (logs : string) : list event :=
  search_trace failure_patterns (Str.lower logs)
  ++ (PhraseTest <$> asked success_indicators (Str.lower logs)).

(** Issues and trace of [analyze_logs] on any text. *)
Definition issues_of (logs : string) : list DeploymentIssue :=
  if Str.all_space logs then [no_logs_issue] else classify logs.

Definition trace_of (logs : string) : list event :=
  if Str.all_space logs then [] else classify_trace logs.

(** A project record that has a name, other than [repo_name] whatever
    the case of the letters. *)
Definition named_apart (repo_name : string) (project : Dict) : Prop :=
  ∃ name, project !! "name" = Some name ∧
          Str.lower name ≠ Str.lower repo_name.

(** Outcome and trace of [analyze_logs_value] on any value. *)
Definition issues_of_value (logs : json) : exn + list DeploymentIssue :=
  match logs with
  | JStr text => inr (issues_of text)
  | _ =>
      if Py.truthy logs then inl (AttributeError "strip" logs)
      else inr [no_logs_issue]
  end.

Definition trace_of_value (logs : json) : list event :=
  match logs with
  | JStr text => trace_of text
  | _ => []
  end.

(** The analysis [analyze_repo] builds for a repository matched to
    [project] when the log source answers with the text [logs]. *)
Definition matched_analysis (repo_name : string) (project : Dict)
  (logs : string) : RepoAnalysis :=
  {| repo_name := repo_name;
     status := determine_status (issues_of logs);
     issues := issues_of logs;
     last_deployment := project !! "updatedAt";
     logs_preview := JStr (preview logs) |}.

Section Outcomes.

Variable get_railway_deployment_logs : string → option string → json.
Variable str_exn : exn → string.

(** The outcome of [analyze_repo] for a repository matched to [project],
    whatever the log source answers, and the events of that run. *)
Definition matched_outcome (repo_name : string) (project : Dict)
  (project_name : string) : exn + RepoAnalysis :=
  let logs := get_railway_deployment_logs project_name (project !! "id") in
  match issues_of_value logs with
  | inl e => inl e
  | inr issues =>
      match (preview_value logs).1 with
      | inl e => inl e
      | inr logs_preview =>
          inr {| repo_name := repo_name;
                 status := determine_status issues;
                 issues := issues;
                 last_deployment := project !! "updatedAt";
                 logs_preview := logs_preview |}
      end
  end.

Definition matched_trace (repo_name : string) (project : Dict)
  (project_name : string) : list event :=
  let logs := get_railway_deployment_logs project_name (project !! "id") in
  LogsFetched project_name (project !! "id")
    :: LogsAnalyzed logs repo_name :: trace_of_value logs.

(** The three ways an analysis comes to its status: by the status rule,
    as the analysis of a repository without project, or as the analysis
    that stands for a raised exception. *)
Definition explained (a : RepoAnalysis) : Prop :=
  (status a = determine_status (issues a) ∧ status a ≠ UNKNOWN) ∨
  (a = no_project_analysis (repo_name a) ∧ status a = UNKNOWN ∧
   determine_status (issues a) = SUCCESS) ∨
  (∃ e, a = analysis_error str_exn (repo_name a) e ∧ status a = UNKNOWN ∧
        determine_status (issues a) = PENDING).

End Outcomes.

(** ** Inputs of the scenarios *)

Definition example_logs : string :=
  "Error: DATABASE_URL not found" +:+ Str.nl +:+ "Error: connection refused".

(** [text * n] *)
Fixpoint repeat_str (text : string) (n : nat) : string :=
  match n with
  | 0 => EmptyString
  | S n' => text +:+ repeat_str text n'
  end.

Definition long_logs : string := repeat_str "npm ERR! build failed " 30.

Definition repo_MyApp : Dict := {[ "name" := "MyApp" ]}.

Definition repo_api_service : Dict := {[ "name" := "api-service" ]}.

Definition project_other : Dict := {[ "name" := "other" ]}.

Definition project_myapp : Dict :=
  <[ "name" := "myapp" ]> (<[ "id" := "7" ]> ∅).

Definition project_MYAPP : Dict := {[ "name" := "MYAPP" ]}.

Definition project_nameless : Dict := {[ "id" := "8" ]}.

Definition repo_nameless : Dict := {[ "full_name" := "octocat/untitled" ]}.


(** ** [generate_report] *)

(** [status.value] *)
Definition status_value (s : DeploymentStatus) : string :=
  match s with
  | SUCCESS => "success"
  | FAILED => "failed"
  | PENDING => "pending"
  | UNKNOWN => "unknown"
  end.

(** [str(n)] for a count [n] *)
Definition str_nat (n : nat) : string :=
  NilEmpty.string_of_uint (Nat.to_uint n).

(** [sep.join(parts)] *)
Fixpoint str_join (sep : string) (parts : list string) : string :=
  match parts with
  | [] => EmptyString
  | [p] => p
  | p :: rest => p +:+ sep +:+ str_join sep rest
  end.

(** [d[key] = d.get(key, 0) + 1] on a dict, which keeps its keys in
    insertion order: a known key keeps its place, a new one goes last. *)
Fixpoint dict_incr (key : string) (d : list (string * nat))
  : list (string * nat) :=
  match d with
  | [] => [(key, 1)]
  | (k, n) :: rest =>
      if String.eqb k key then (k, n + 1) :: rest
      else (k, n) :: dict_incr key rest
  end.

(** The counters of the summary loop. *)
Record Summary : Type := {
  status_counts : list (string * nat);
  critical_issues : nat;
  warning_issues : nat
}.

(** The inner loop over [analysis.issues]. *)
Fixpoint count_issues (issues : list DeploymentIssue) (st : Summary)
  : Summary :=
  match issues with
  | [] => st
  | issue :: rest =>
      count_issues rest
        (if String.eqb (severity issue) "critical" then
           {| status_counts := status_counts st;
              critical_issues := critical_issues st + 1;
              warning_issues := warning_issues st |}
         else if String.eqb (severity issue) "warning" then
           {| status_counts := status_counts st;
              critical_issues := critical_issues st;
              warning_issues := warning_issues st + 1 |}
         else st)
  end.

(** The summary loop over [analyses]. *)
Fixpoint summarize (analyses : list RepoAnalysis) (st : Summary) : Summary :=
  match analyses with
  | [] => st
  | analysis :: rest =>
      summarize rest
        (count_issues (issues analysis)
           {| status_counts :=
                dict_incr (status_value (status analysis)) (status_counts st);
              critical_issues := critical_issues st;
              warning_issues := warning_issues st |})
  end.

(** The counters after the summary loop, which starts from an empty
    dict and two zeros. *)
Definition summary (analyses : list RepoAnalysis) : Summary :=
  summarize analyses
    {| status_counts := []; critical_issues := 0; warning_issues := 0 |}.

Section Report.

(** [str.upper]; the capitals of some characters of the range (y with
    diaeresis, the micro sign) lie outside it, so it is a parameter. *)
Variable upper : string → string.

(** [datetime.now().strftime('%Y-%m-%d %H:%M:%S')] *)
Variable now : string.

(** The lines of the issues, numbered from [i] ([enumerate]). *)
Fixpoint issue_lines (i : nat) (issues : list DeploymentIssue)
  : list string :=
  match issues with
  | [] => []
  | issue :: rest =>
      [ "  " +:+ str_nat i +:+ ". [" +:+ upper (severity issue) +:+ "] "
        +:+ description issue;
        "     Remediation: " +:+ remediation issue ]
      ++ match affected_files issue with
         | Some (_ :: _ as files) =>
             [ "     Affected Files: " +:+ str_join ", " files ]
         | _ => []
         end
      ++ issue_lines (S i) rest
  end.

(** The items appended for one analysis: strings, and the
    [logs_preview] as it is when it is truthy. *)
Definition analysis_lines (analysis : RepoAnalysis) : list json :=
  (JStr <$>
     [ "REPOSITORY: " +:+ repo_name analysis;
       repeat_str "-" 50;
       "Status: " +:+ upper (status_value (status analysis)) ]
     ++ match last_deployment analysis with
        | Some (String _ _ as date) => [ "Last Deployment: " +:+ date ]
        | _ => []
        end
     ++ match issues analysis with
        | [] => [ "No issues detected - deployment appears successful!" ]
        | _ :: _ =>
            (Str.nl +:+ "Issues Found:") :: issue_lines 1 (issues analysis)
        end)
  ++ (if Py.truthy (logs_preview analysis) then
        [ JStr (Str.nl +:+ "Logs Preview:"); JStr "```";
          logs_preview analysis; JStr "```" ]
      else [])
  ++ [ JStr (Str.nl +:+ repeat_str "=" 80 +:+ Str.nl) ].

(** The list [report] at the end of [generate_report]. *)
Definition report_lines (analyses : list RepoAnalysis) : list json :=
  let st := summary analyses in
  (JStr <$>
     [ repeat_str "=" 80;
       "RAILWAY DEPLOYMENT FAILURE ANALYSIS REPORT";
       repeat_str "=" 80;
       "Generated: " +:+ now;
       "Total Repositories Analyzed: " +:+ str_nat (length analyses);
       EmptyString;
       "SUMMARY:";
       repeat_str "-" 40 ]
     ++ ((λ '(status, count),
           "  " +:+ upper status +:+ ": " +:+ str_nat count)
           <$> status_counts st)
     ++ [ "  Critical Issues: " +:+ str_nat (critical_issues st);
          "  Warning Issues: " +:+ str_nat (warning_issues st);
          EmptyString ])
  ++ flat_map analysis_lines analyses.

(** The strings of [items] for [join], which raises a [TypeError] at the
    first item that is not a string. *)
Fixpoint texts (items : list json) : M (list string) :=
  match items with
  | [] => mret []
  | JStr text :: rest => rest_texts ← texts rest; mret (text :: rest_texts)
  | item :: _ => raise (TypeError "join" item)
  end.

Definition generate_report (analyses : list RepoAnalysis) : M string :=
  lines ← texts (report_lines analyses);
  mret (str_join Str.nl lines).

End Report.

(** ** [get_github_repos] *)

Section GitHub.

(** The answer to the request for one page of a user's repositories, as
    far as the loop tells answers apart: the records of the page, or
    [None] for a [RequestException]. *)
Variable github_page : string → nat → option (list Dict).

(** The [while True] loop; [None] when [fuel] iterations do not reach a
    [break]. *)
Fixpoint get_github_repos_loop (fuel : nat) (username : string)
  (page : nat) (repos : list Dict) : option (list Dict) :=
  match fuel with
  | 0 => None
  | S fuel' =>
      match github_page username page with
      | None => Some repos
      | Some page_repos =>
          if is_nil page_repos then Some repos
          else
            let repos := repos ++ page_repos in
            if 1000 <=? length repos then Some repos
            else get_github_repos_loop fuel' username (S page) repos
      end
  end.

(** A thousand iterations always reach a [break], as each one that
    goes on has added a record. *)
Definition get_github_repos (username : string) : option (list Dict) :=
  get_github_repos_loop 1000 username 1 [].

(** The records of the pages [1..k]. *)
Definition pages_upto (username : string) (k : nat) : list Dict :=
  flat_map (λ page, default [] (github_page username page)) (seq 1 k).

End GitHub.

(** ** The analyzer and its log source *)

Record RailwayDeploymentAnalyzer : Type := {
  github_token : string;
  railway_token : option string;
  github_headers : Dict;
  railway_headers : option Dict
}.

(** [RailwayDeploymentAnalyzer(github_token, railway_token)]: the headers
    of the deployment platform exist for a token that is not empty. *)
Definition __init__ (github_token : string) (railway_token : option string)
  : RailwayDeploymentAnalyzer := {|
  github_token := github_token;
  railway_token := railway_token;
  github_headers :=
    <[ "Authorization" := "token " +:+ github_token ]>
      (<[ "Accept" := "application/vnd.github.v3+json" ]> ∅);
  railway_headers :=
    match railway_token with
    | Some (String _ _ as token) =>
        Some (<[ "Authorization" := "Bearer " +:+ token ]>
                (<[ "Content-Type" := "application/json" ]> ∅))
    | _ => None
    end
|}.

(** What [subprocess.run] does: the process completes, with its return
    code and captured output, or does not end in time, or another
    exception [e] is raised ([message] is [str(e)]). *)
Inductive Completion : Type :=
| Completed (returncode : Z) (stdout stderr : string)
| TimeoutExpired
| Failed (message : string).

Section LogSource.

Variable subprocess_run : list string → Completion.

(** The request of [_get_railway_logs_api] for given headers and project
    id ([requests.post], [raise_for_status] and [response.json()]): the
    answer read as JSON, or [None] when one of the three raises. *)
Variable railway_post : Dict → string → option json.

(** What the [try] block of [_get_railway_logs_api] returns on the answer
    [data]; [None] where it raises. *)
Definition latest_logs (data : json) : option json :=
  has_data ← Py.contains "data" data;
  has_project ←
    (if has_data : bool then
       inner ← Py.subscript data "data";
       Py.contains "project" inner
     else Some false);
  if has_project : bool then
    inner ← Py.subscript data "data";
    project ← Py.subscript inner "project";
    deployments ← Py.subscript project "deployments";
    if Py.truthy deployments then
      latest ← Py.first deployments;
      Py.get latest "logs" (JStr EmptyString)
    else Some (JStr EmptyString)
  else Some (JStr EmptyString).

(** The [except] clause answers every exception with the empty string;
    otherwise the answer is what the latest deployment stores as logs,
    of whatever type. *)
Definition _get_railway_logs_api (headers : Dict) (project_id : string)
  : json :=
  default (JStr EmptyString)
    (railway_post headers project_id ≫= latest_logs).

Definition _get_railway_logs_cli (project_name : string) : string :=
  match subprocess_run
          ["railway"; "logs"; "--project"; project_name; "--tail"; "100"]
  with
  | Completed returncode stdout _ =>
      if (returncode =? 0)%Z then stdout
      else
        match subprocess_run ["railway"; "logs"; "--tail"; "100"] with
        | Completed returncode' stdout' stderr' =>
            if (returncode' =? 0)%Z then stdout' else stderr'
        | TimeoutExpired => "CLI command timed out"
        | Failed message => "CLI error: " +:+ message
        end
  | TimeoutExpired => "CLI command timed out"
  | Failed message => "CLI error: " +:+ message
  end.

(** [self.get_railway_deployment_logs(project_name, project_id)]: the
    remote interface for an analyzer with headers and a project id that
    is not empty, the command-line tool otherwise. *)
Definition get_railway_deployment_logs (self : RailwayDeploymentAnalyzer)
  (project_name : string) (project_id : option string) : json :=
  match railway_headers self, project_id with
  | Some headers, Some (String _ _ as id) =>
      (* an empty dict is falsy too *)
      if decide (headers = ∅) then JStr (_get_railway_logs_cli project_name)
      else _get_railway_logs_api headers id
  | _, _ => JStr (_get_railway_logs_cli project_name)
  end.

End LogSource.

(** ** [run_analysis] *)

(** The file [run_analysis] writes. *)
Record SavedReport : Type := {
  filename : string;
  content : string
}.

Section Run.

Variable github_page : string → nat → option (list Dict).

(** What [self.get_railway_projects()] returns. *)
Variable railway_projects : list Dict.

Variable get_railway_deployment_logs : string → option string → json.
Variable str_exn : exn → string.
Variable upper : string → string.

(** The time of the report, and [strftime("%Y%m%d_%H%M%S")] of the time
    of saving. *)
Variable now : string.
Variable timestamp : string.

(** [run_analysis]: the report saved, or [None] for the early [return].
    (The loop of [get_github_repos] always returns, so the default is not
    used.) *)
Definition run_analysis (github_username : string)
  : M (option SavedReport) :=
  let repos := default [] (get_github_repos github_page github_username) in
  if is_nil repos then mret None
  else
    analyses ← analyze_repos get_railway_deployment_logs str_exn
                 repos railway_projects [];
    report ← generate_report upper now analyses;
    mret (Some {| filename :=
                    "railway_deployment_analysis_" +:+ timestamp +:+ ".txt";
                  content := report |}).

End Run.


(** ** [main] *)

(** How [main] ends: [sys.exit(code)], an [EOFError] of [input], or the
    call of [run_analysis] on the analyzer built; each with the input
    lines not read. *)
Inductive MainOutcome : Type :=
| Exit (code : Z) (unread : list string)
| EOFError
| Runs (analyzer : RailwayDeploymentAnalyzer) (github_username : string)
    (unread : list string).

Definition main (inputs : list string) : MainOutcome :=
  match inputs with
  | [] => EOFError
  | line1 :: inputs1 =>
      let github_token := Str.strip line1 in
      if is_empty_str github_token then Exit 1 inputs1
      else
        match inputs1 with
        | [] => EOFError
        | line2 :: inputs2 =>
            let railway_token := Str.strip line2 in
            match inputs2 with
            | [] => EOFError
            | line3 :: inputs3 =>
                let github_username := Str.strip line3 in
                if is_empty_str github_username then Exit 1 inputs3
                else Runs (__init__ github_token (Some railway_token))
                       github_username inputs3
            end
        end
  end.

(** ** Counts, for the statements on the report *)

(** [d.get(key, 0)] *)
Fixpoint dict_get (key : string) (d : list (string * nat)) : nat :=
  match d with
  | [] => 0
  | (k, n) :: rest => if String.eqb k key then n else dict_get key rest
  end.

(** The issues of all analyses, in order. *)
Definition all_issues (analyses : list RepoAnalysis)
  : list DeploymentIssue :=
  flat_map issues analyses.

(** A character other than whitespace; a text that is not empty and
    holds no whitespace. *)
Definition is_ink (c : ascii) : bool := negb (Str.isspace c).

Definition is_token (s : string) : bool :=
  negb (is_empty_str s) && forallb is_ink (list_ascii_of_string s).

(** ** Matching as a relation, and what a pattern can capture *)

(** [takes ic r w cs cs1]: expression [r] matches the text [w] and
    turns the captures [cs] into [cs1]. *)
Inductive takes (ic : bool)
  : Re.regex → list ascii → Re.captures → Re.captures → Prop :=
| takes_eps cs : takes ic Re.REps [] cs cs
| takes_one r c cs : Re.accepts ic r c = true → takes ic r [c] cs cs
| takes_cat r1 r2 w1 w2 cs cs1 cs2 :
    takes ic r1 w1 cs cs1 → takes ic r2 w2 cs1 cs2 →
    takes ic (Re.RCat r1 r2) (w1 ++ w2) cs cs2
| takes_alt_l r1 r2 w cs cs1 :
    takes ic r1 w cs cs1 → takes ic (Re.RAlt r1 r2) w cs cs1
| takes_alt_r r1 r2 w cs cs1 :
    takes ic r2 w cs cs1 → takes ic (Re.RAlt r1 r2) w cs cs1
| takes_star_nil r cs : takes ic (Re.RStar r) [] cs cs
| takes_star_cons r w1 w2 cs cs1 cs2 :
    takes ic r w1 cs cs1 → takes ic (Re.RStar r) w2 cs1 cs2 →
    takes ic (Re.RStar r) (w1 ++ w2) cs cs2
| takes_plus r w1 w2 cs cs1 cs2 :
    takes ic r w1 cs cs1 → takes ic (Re.RStar r) w2 cs1 cs2 →
    takes ic (Re.RPlus r) (w1 ++ w2) cs cs2
| takes_opt_some r w cs cs1 :
    takes ic r w cs cs1 → takes ic (Re.ROpt r) w cs cs1
| takes_opt_none r cs : takes ic (Re.ROpt r) [] cs cs
| takes_group n r w cs cs1 :
    takes ic r w cs cs1 → takes ic (Re.RGroup n r) w cs ((n, w) :: cs1).

Definition item_ink (i : Re.citem) : bool :=
  match i with
  | Re.CChar p => is_ink p
  | Re.CSpace => false
  | Re.CDigit => true
  end.

Definition is_space_item (i : Re.citem) : bool :=
  match i with Re.CSpace => true | _ => false end.

(** Every character a match of [r] holds is other than whitespace. *)
Fixpoint ink_only (r : Re.regex) : bool :=
  match r with
  | Re.REps => true
  | Re.RChar p => is_ink p
  | Re.RAny => false
  | Re.RSet negated items =>
      if negated then existsb is_space_item items
      else forallb item_ink items
  | Re.RCat r1 r2 | Re.RAlt r1 r2 => ink_only r1 && ink_only r2
  | Re.RStar r1 | Re.RPlus r1 | Re.ROpt r1 | Re.RGroup _ r1 => ink_only r1
  end.

(** Every match of [r] holds a character at least. *)
Fixpoint consuming (r : Re.regex) : bool :=
  match r with
  | Re.REps | Re.RStar _ | Re.ROpt _ => false
  | Re.RChar _ | Re.RAny | Re.RSet _ _ => true
  | Re.RCat r1 r2 => consuming r1 || consuming r2
  | Re.RAlt r1 r2 => consuming r1 && consuming r2
  | Re.RPlus r1 | Re.RGroup _ r1 => consuming r1
  end.

(** Whatever group 1 of [r] captures is a token. *)
Fixpoint group1_tokens (r : Re.regex) : bool :=
  match r with
  | Re.REps | Re.RChar _ | Re.RAny | Re.RSet _ _ => true
  | Re.RCat r1 r2 | Re.RAlt r1 r2 => group1_tokens r1 && group1_tokens r2
  | Re.RStar r1 | Re.RPlus r1 | Re.ROpt r1 => group1_tokens r1
  | Re.RGroup n r1 =>
      group1_tokens r1
      && (if Nat.eqb n 1 then ink_only r1 && consuming r1 else true)
  end.

(** Every match of [r] goes through group 1. *)
Fixpoint group1_set (r : Re.regex) : bool :=
  match r with
  | Re.RGroup n r1 => Nat.eqb n 1 || group1_set r1
  | Re.RCat r1 r2 => group1_set r1 || group1_set r2
  | Re.RAlt r1 r2 => group1_set r1 && group1_set r2
  | Re.RPlus r1 => group1_set r1
  | _ => false
  end.

(** Pattern [pattern] compiles, has a group, and each of its matches
    captures a token in group 1. *)
Definition names_tokens (pattern : string) : bool :=
  match Re.compile pattern with
  | Some (r, n) => (1 <=? n) && group1_tokens r && group1_set r
  | None => false
  end.

(** The captures of group 1 are tokens. *)
Definition tokens_in (cs : Re.captures) : Prop :=
  Forall (λ nw, nw.1 = 1 →
                nw.2 ≠ [] ∧ Forall (λ c, is_ink c = true) nw.2) cs.

(** * Facts about strings *)

Lemma isspace_lower_char (c : ascii) :
  Str.isspace (Str.lower_char c) = Str.isspace c.
Proof. destruct c as [[] [] [] [] [] [] [] []]; reflexivity. Qed.

Lemma all_space_lower (s : string) :
  Str.all_space (Str.lower s) = Str.all_space s.
Proof.
  induction s as [|c s IH]; simpl; [done|].
  by rewrite isspace_lower_char, IH.
Qed.

Lemma all_space_rev_app (s1 s2 : string) :
  Str.all_space (String.rev_app s1 s2)
  = Str.all_space s1 && Str.all_space s2.
Proof.
  revert s2; induction s1 as [|c s1 IH]; intros s2; simpl; [done|].
  rewrite IH; simpl.
  destruct (Str.isspace c), (Str.all_space s1); simpl; try done.
Qed.

Lemma empty_rev_app (s1 s2 : string) :
  is_empty_str (String.rev_app s1 s2) = is_empty_str s1 && is_empty_str s2.
Proof.
  revert s2; induction s1 as [|c s1 IH]; intros s2; simpl; [done|].
  rewrite IH. by rewrite andb_false_r.
Qed.

Lemma lstrip_empty (s : string) :
  is_empty_str (Str.lstrip s) = Str.all_space s.
Proof.
  induction s as [|c s IH]; simpl; [done|].
  destruct (Str.isspace c); simpl; done.
Qed.

Lemma all_space_lstrip (s : string) :
  Str.all_space (Str.lstrip s) = Str.all_space s.
Proof.
  induction s as [|c s IH]; simpl; [done|].
  destruct (Str.isspace c) eqn:E; simpl; [done|]. by rewrite E.
Qed.

(** [s.strip()] is empty exactly for the texts made of whitespace, the
    empty text among them. *)
Lemma strip_empty (s : string) :
  is_empty_str (Str.strip s) = Str.all_space s.
Proof.
  unfold Str.strip, Str.rstrip, String.rev.
  rewrite empty_rev_app, andb_true_r, lstrip_empty, all_space_rev_app.
  by rewrite andb_true_r, all_space_lstrip.
Qed.

Lemma blank_test (logs : string) :
  is_empty_str logs || is_empty_str (Str.strip logs) = Str.all_space logs.
Proof. rewrite strip_empty. destruct logs; done. Qed.

Lemma all_space_chars (s : string) c :
  Str.all_space s = true → c ∈ list_ascii_of_string s →
  Str.isspace c = true.
Proof.
  induction s as [|a s IH]; cbn [Str.all_space list_ascii_of_string];
    intros Hs Hin.
  - by apply elem_of_nil in Hin.
  - apply andb_true_iff in Hs as [Ha Hs].
    apply elem_of_cons in Hin as [->|Hin]; auto.
Qed.

Lemma prefix_app (sub s : string) :
  String.prefix sub s = true ↔ ∃ post, s = sub +:+ post.
Proof.
  revert s; induction sub as [|a sub IH]; intros s.
  - split; [intros _; by exists s|by destruct s].
  - destruct s as [|b s]; cbn [String.prefix].
    { split; [done|]. intros [post Hpost]. discriminate Hpost. }
    destruct (Ascii.ascii_dec a b) as [->|Hne].
    + rewrite IH. split; intros [post Hpost]; exists post.
      * by rewrite Hpost.
      * by injection Hpost.
    + split; [done|]. intros [post Hpost]. injection Hpost as ? ?. done.
Qed.

(** [Str.contains] is Python's [in] on strings: [sub] occurs in [s]. *)
Lemma contains_occurs (sub s : string) :
  Str.contains sub s = true ↔ ∃ pre post, s = pre +:+ sub +:+ post.
Proof.
  induction s as [|c s IH]; cbn [Str.contains].
  - destruct (String.prefix sub EmptyString) eqn:Hp.
    + apply prefix_app in Hp as [post Hpost].
      split; [|done]. intros _. by exists EmptyString, post.
    + split; [done|]. intros ([|? pre] & post & Heq); [|done].
      assert (String.prefix sub EmptyString = true) as Hp'
        by (apply prefix_app; by exists post).
      by rewrite Hp' in Hp.
  - destruct (String.prefix sub (String c s)) eqn:Hp.
    + apply prefix_app in Hp as [post Hpost].
      split; [|done]. intros _. by exists EmptyString, post.
    + rewrite IH. split.
      * intros (pre & post & ->). by exists (String c pre), post.
      * intros ([|b pre] & post & Heq).
        { assert (String.prefix sub (String c s) = true) as Hp'
            by (apply prefix_app; by exists post).
          by rewrite Hp' in Hp. }
        injection Heq as -> ->. by exists pre, post.
Qed.

Lemma take_length n (s : string) :
  n ≤ String.length s → String.length (Str.take n s) = n.
Proof.
  revert s; induction n as [|n IH]; intros s Hn; [by destruct s|].
  destruct s as [|c s]; cbn [String.length] in Hn; [lia|].
  cbn [Str.take String.length]. rewrite IH; lia.
Qed.


(** * Facts about matching *)

(** A match of an expression that starts with a literal starts with a
    character equal to it up to case. *)
Lemma run_head {R : Type} ic r c s cs
    (k : list ascii → Re.captures → option R) x :
  head_char r = Some c →
  Re.run ic r s cs k = Some x →
  ∃ c' s1, s = c' :: s1 ∧ Re.fold_case ic c' = Re.fold_case ic c.
Proof.
  intros Hh Hrun.
  assert (Hlit : ∀ k', Re.run ic (Re.RChar c) s cs k' = Some x →
            ∃ c' s1, s = c' :: s1 ∧ Re.fold_case ic c' = Re.fold_case ic c).
  { intros k'. cbn [Re.run Re.accepts]. destruct s as [|c' s1]; [done|].
    destruct (Ascii.eqb _ _) eqn:E; [|done]. intros _.
    apply Ascii.eqb_eq in E. eauto. }
  destruct r; try done; cbn [head_char] in Hh.
  - injection Hh as ->. by apply (Hlit k).
  - destruct r1; try done. injection Hh as ->.
    apply (Hlit (λ s1 cs1, Re.run ic r2 s1 cs1 k)). exact Hrun.
Qed.

Lemma search_from_head ic r c s :
  head_char r = Some c →
  Re.search_from ic r s = true →
  ∃ c', c' ∈ s ∧ Re.fold_case ic c' = Re.fold_case ic c.
Proof.
  intros Hh. induction s as [|a s IH]; cbn [Re.search_from]; intros Hs.
  - destruct (Re.match_at ic r []) eqn:Hm; [|done].
    apply (run_head _ _ _ _ _ _ _ Hh) in Hm as (c' & s1 & ? & _). done.
  - destruct (Re.match_at ic r (a :: s)) eqn:Hm.
    + apply (run_head _ _ _ _ _ _ _ Hh) in Hm as (c' & s1 & [= -> ->] & Hc).
      exists c'. split; [left|done].
    + destruct (IH Hs) as (c' & Hin & Hc). exists c'. split; [by right|done].
Qed.

(** A pattern that starts with a visible literal finds nothing in a text
    made of whitespace. *)
Lemma blank_no_match (pattern logs : string) :
  starts_with_ink pattern = true →
  Str.all_space logs = true →
  matches pattern (Str.lower logs) = false.
Proof.
  unfold starts_with_ink, matches, Re.search. intros Hink Hb.
  destruct (Re.compile pattern) as [[r n]|]; [|done].
  cbn [mbind option_bind].
  destruct (head_char r) as [c|] eqn:Hh; [|done].
  destruct (Re.search_from _ _ _) eqn:Hs; [|done]. exfalso.
  apply (search_from_head _ _ _ _ Hh) in Hs as (c' & Hin & Hc).
  apply (all_space_chars (Str.lower logs)) in Hin;
    [|by rewrite all_space_lower].
  cbn [Re.fold_case] in Hc.
  rewrite <- isspace_lower_char, Hc in Hin. by rewrite Hin in Hink.
Qed.

(** * Running computations *)

Lemma bind_pure {A B : Type} (f : A → M B) a : mret a ≫= f = f a.
Proof. unfold mbind, mret, M_bind, M_ret, bind, ret. by destruct (f a). Qed.

Lemma bind_run {A B : Type} (m : M A) (f : A → M B) a tr :
  m = (inr a, tr) → m ≫= f = ((f a).1, tr ++ (f a).2).
Proof. intros ->. unfold mbind, M_bind, bind. by destruct (f a). Qed.

Lemma bind_tell {B : Type} (ev : event) (m : M B) r tr :
  m = (r, tr) → (tell ev;; m) = (r, ev :: tr).
Proof. intros ->. reflexivity. Qed.

Lemma is_nil_true {A : Type} (l : list A) : is_nil l = true → l = [].
Proof. by destruct l. Qed.

Lemma getitem_some (d : Dict) key v :
  d !! key = Some v → getitem d key = (inr v, []).
Proof. unfold getitem. by intros ->. Qed.

Lemma getitem_none (d : Dict) key :
  d !! key = None → getitem d key = (inl (KeyError key), []).
Proof. unfold getitem. by intros ->. Qed.

Lemma re_search_compiles (pattern text : string) :
  compiles pattern = true →
  re_search pattern text = (inr (matches pattern text), []).
Proof.
  unfold compiles, re_search, matches, Re.search.
  destruct (Re.compile pattern) as [[r n]|]; [|done]; simpl.
  by destruct (Re.search_from _ _ _).
Qed.

Lemma re_findall_compiles (pattern logs : string) :
  compiles pattern = true →
  ∃ ms, Re.findall true pattern logs = Some ms ∧
        re_findall pattern logs = (inr ms, []).
Proof.
  unfold compiles, re_findall, Re.findall.
  destruct (Re.compile pattern) as [[r n]|]; [|done]; simpl. eauto.
Qed.

(** * [_extract_affected_files] *)

Lemma file_patterns_compile : forallb compiles file_patterns = true.
Proof. vm_compute. reflexivity. Qed.

Lemma extend_files_compiles (fps : list string) (logs : string) files :
  forallb compiles fps = true →
  extend_files fps logs files
  = (inr (files ++ flat_map (λ fp, found_files fp logs) fps), []).
Proof.
  revert files; induction fps as [|fp fps IH]; intros files Hc;
    cbn [extend_files flat_map forallb] in *.
  - by rewrite app_nil_r.
  - apply andb_true_iff in Hc as [Hfp Hfps].
    destruct (re_findall_compiles fp logs Hfp) as (ms & Hms & Hrun).
    rewrite (bind_run _ _ _ _ Hrun), (IH _ Hfps).
    unfold found_files. rewrite Hms. cbn [fst snd app].
    by rewrite <- app_assoc.
Qed.

Lemma extract_affected_files_run (logs pattern : string) :
  _extract_affected_files logs pattern = (inr (extracted logs), []).
Proof.
  unfold _extract_affected_files, extracted.
  rewrite (bind_run _ _ _ _
             (extend_files_compiles _ logs [] file_patterns_compile)).
  reflexivity.
Qed.

(** * The loops of [analyze_logs] *)

Lemma check_patterns_run issue_type config pats logs logs_lower issues :
  forallb compiles pats = true →
  check_patterns issue_type config pats logs logs_lower issues
  = (inr (issues ++
            if existsb (λ p, matches p logs_lower) pats
            then [pattern_issue issue_type config (extracted logs)] else []),
     SearchTest issue_type <$> tested pats logs_lower).
Proof.
  induction pats as [|p pats IH]; intros Hc;
    cbn [check_patterns existsb tested fmap list_fmap].
  - by rewrite app_nil_r.
  - cbn [forallb] in Hc. apply andb_true_iff in Hc as [Hp Hpats].
    apply bind_tell.
    rewrite (bind_run _ _ _ _ (re_search_compiles _ logs_lower Hp)).
    destruct (matches p logs_lower) eqn:Hm; cbn [orb].
    + rewrite (bind_run _ _ _ _ (extract_affected_files_run logs p)).
      reflexivity.
    + by rewrite (IH Hpats).
Qed.

Lemma check_categories_run cats logs logs_lower issues :
  catalog_compiles cats = true →
  check_categories cats logs logs_lower issues
  = (inr (issues ++ detected cats logs logs_lower),
     search_trace cats logs_lower).
Proof.
  revert issues; induction cats as [|[k c] cats IH]; intros issues Hc;
    cbn [check_categories].
  - by rewrite app_nil_r.
  - unfold catalog_compiles in Hc; cbn [forallb snd] in Hc.
    apply andb_true_iff in Hc as [Hk Hcats].
    rewrite (bind_run _ _ _ _
               (check_patterns_run k c _ logs logs_lower issues Hk)).
    rewrite (IH _ Hcats). cbn [fst snd].
    unfold detected, search_trace. cbn [flat_map fst snd].
    rewrite filter_cons. cbn [fst snd].
    f_equal. f_equal. rewrite <- app_assoc. f_equal.
    change (existsb _ (Config.patterns c))
      with (category_matches c logs_lower).
    destruct (category_matches c logs_lower); case_decide; done.
Qed.

Lemma any_indicator_run indicators logs_lower :
  any_indicator indicators logs_lower
  = (inr (existsb (λ i, Str.contains i logs_lower) indicators),
     PhraseTest <$> asked indicators logs_lower).
Proof.
  induction indicators as [|i inds IH];
    cbn [any_indicator existsb asked fmap list_fmap]; [done|].
  apply bind_tell. destruct (Str.contains i logs_lower); cbn [orb]; [done|].
  exact IH.
Qed.

Lemma failure_patterns_compile : catalog_compiles failure_patterns = true.
Proof. vm_compute. reflexivity. Qed.

Lemma failure_patterns_ink : catalog_ink failure_patterns = true.
Proof. vm_compute. reflexivity. Qed.

Lemma failure_patterns_keys : NoDup failure_patterns.*1.
Proof. apply (bool_decide_unpack _). vm_compute. reflexivity. Qed.

Lemma analyze_logs_blank (logs repo_name : string) :
  Str.all_space logs = true →
  analyze_logs logs repo_name = (inr [no_logs_issue], []).
Proof.
  intros Hb. unfold analyze_logs. rewrite blank_test, Hb. reflexivity.
Qed.

Lemma analyze_logs_run (logs repo_name : string) :
  Str.all_space logs = false →
  analyze_logs logs repo_name = (inr (classify logs), classify_trace logs).
Proof.
  intros Hb. unfold analyze_logs. rewrite blank_test, Hb. cbv zeta.
  rewrite (bind_run _ _ _ _
             (check_categories_run _ logs (Str.lower logs) []
                failure_patterns_compile)).
  rewrite (bind_run _ _ _ _ (any_indicator_run _ _)).
  rewrite app_nil_l. unfold classify, classify_trace, has_success.
  destruct (negb _ && is_nil _) eqn:E; cbn [fst snd]; rewrite app_nil_r;
    [|done].
  apply andb_true_iff in E as [_ ->%is_nil_true]. done.
Qed.

Lemma analyze_logs_eq (logs repo_name : string) :
  analyze_logs logs repo_name = (inr (issues_of logs), trace_of logs).
Proof.
  unfold issues_of, trace_of. destruct (Str.all_space logs) eqn:Hb.
  - by apply analyze_logs_blank.
  - by apply analyze_logs_run.
Qed.

(** * The catalog *)

Section Catalog.
Variable cats : list (string * Config.t).
Hypothesis keys : NoDup cats.*1.
Variables logs logs_lower : string.

(** A key has one configuration. *)
Lemma key_config k c c' : (k, c) ∈ cats → (k, c') ∈ cats → c = c'.
Proof using keys.
  clear logs logs_lower.
  induction cats as [|[k0 c0] l IH]; [by intros ?%elem_of_nil|].
  rewrite fmap_cons in keys. apply NoDup_cons in keys as [Hk0 Hl].
  intros [[= -> ->]|H1]%elem_of_cons [[= ?]|H2]%elem_of_cons; subst; auto.
  - destruct Hk0. by apply (list_elem_of_fmap_2 fst _ (k0, c')).
  - destruct Hk0. by apply (list_elem_of_fmap_2 fst _ (k0, c)).
Qed.

Lemma cats_NoDup : NoDup cats.
Proof using keys. by apply (NoDup_fmap_1 fst). Qed.

Lemma detected_types :
  type <$> detected cats logs logs_lower
  = (filter (λ kc, category_matches kc.2 logs_lower = true) cats).*1.
Proof using Type.
  unfold detected. rewrite <- list_fmap_compose. reflexivity.
Qed.

Lemma detected_NoDup : NoDup (type <$> detected cats logs logs_lower).
Proof using keys.
  rewrite detected_types.
  apply (sublist_NoDup _ cats.*1); [exact keys|].
  apply fmap_sublist, sublist_filter.
Qed.

Lemma detected_nil :
  detected cats logs logs_lower = [] ↔
  ∀ k c, (k, c) ∈ cats → category_matches c logs_lower = false.
Proof using Type.
  unfold detected. split.
  - intros Hnil%fmap_nil_inv k c Hin. apply not_true_is_false. intros Hm.
    by eapply (filter_nil_not_elem_of _ _ (k, c)) in Hnil.
  - clear keys. intros Hno. induction cats as [|[k c] l IH]; [done|].
    rewrite filter_cons. cbn [snd].
    rewrite (Hno k c) by left. case_decide; [done|].
    apply IH. intros k' c' Hin. apply (Hno k' c'). by right.
Qed.

(** The issues of type [k] among the detected ones. *)
Lemma detected_of_type k c :
  (k, c) ∈ cats →
  filter (λ i, type i = k) (detected cats logs logs_lower)
  = if category_matches c logs_lower
    then [pattern_issue k c (extracted logs)] else [].
Proof using keys.
  induction cats as [|[k0 c0] l IH]; [by intros ?%elem_of_nil|].
  rewrite fmap_cons in keys. apply NoDup_cons in keys as [Hk0 Hl].
  intros Hin.
  assert (Hrest : ∀ k', k' ∉ l.*1 →
            filter (λ i, type i = k') (detected l logs logs_lower) = []).
  { intros k' Hk'. unfold detected.
    clear IH Hl Hk0 Hin. induction l as [|[k1 c1] l IH]; [done|].
    rewrite filter_cons. rewrite fmap_cons in Hk'.
    apply not_elem_of_cons in Hk' as [Hne Hk'].
    case_decide; [|by apply IH].
    rewrite fmap_cons, filter_cons. cbn [fst snd pattern_issue type].
    case_decide; [by subst|by apply IH]. }
  unfold detected. rewrite filter_cons. cbn [snd].
  fold (detected l logs logs_lower) in *.
  apply elem_of_cons in Hin as [[= <- <-]|Hin].
  - destruct (category_matches c logs_lower); case_decide; try done.
    + rewrite fmap_cons, filter_cons. cbn [fst snd pattern_issue type].
      fold (detected l logs logs_lower).
      case_decide; [|done]. by rewrite Hrest.
    + fold (detected l logs logs_lower). by apply Hrest.
  - assert (k0 ≠ k) as Hne.
    { intros ->. destruct Hk0. by apply (list_elem_of_fmap_2 fst _ (k, c)). }
    case_decide.
    + rewrite fmap_cons, filter_cons. cbn [fst snd pattern_issue type].
      case_decide; [done|]. by apply IH.
    + by apply IH.
Qed.

(** Two matching categories, and no third, give two issues. *)
Lemma detected_two k1 c1 k2 c2 :
  (k1, c1) ∈ cats → (k2, c2) ∈ cats → k1 ≠ k2 →
  category_matches c1 logs_lower = true →
  category_matches c2 logs_lower = true →
  (∀ k c, (k, c) ∈ cats → category_matches c logs_lower = true →
          k = k1 ∨ k = k2) →
  let i1 := pattern_issue k1 c1 (extracted logs) in
  let i2 := pattern_issue k2 c2 (extracted logs) in
  detected cats logs logs_lower = [i1; i2] ∨
  detected cats logs logs_lower = [i2; i1].
Proof using keys.
  intros H1 H2 Hne Hm1 Hm2 Honly i1 i2. unfold detected.
  set (L := filter _ cats).
  assert (HL : [(k1, c1); (k2, c2)] ≡ₚ L).
  { apply NoDup_Permutation.
    - apply NoDup_cons. split; [|apply NoDup_singleton].
      intros [= ? ?]%list_elem_of_singleton. done.
    - apply NoDup_filter, cats_NoDup.
    - intros [k c]. unfold L. rewrite list_elem_of_filter. cbn [snd]. split.
      + intros [[= -> ->]|[= -> ->]%list_elem_of_singleton]%elem_of_cons;
          done.
      + intros [Hm Hin]. destruct (Honly k c Hin Hm) as [->| ->].
        * rewrite (key_config _ _ _ Hin H1). left.
        * rewrite (key_config _ _ _ Hin H2). right. left. }
  apply Permutation_length_2_inv in HL as [-> | ->]; [by left|by right].
Qed.

(** The tests a trace of the category loop records for one category. *)
Lemma tested_patterns_search_trace k c :
  (k, c) ∈ cats →
  tested_patterns k (search_trace cats logs_lower)
  = tested (Config.patterns c) logs_lower.
Proof using keys.
  assert (Happ : ∀ tr1 tr2, tested_patterns k (tr1 ++ tr2)
            = tested_patterns k tr1 ++ tested_patterns k tr2)
    by (intros; apply flat_map_app).
  assert (Hone : ∀ k' pats, tested_patterns k (SearchTest k' <$> pats)
            = if String.eqb k' k then pats else []).
  { intros k' pats. unfold tested_patterns.
    induction pats as [|p pats IH]; cbn [fmap list_fmap flat_map].
    - by destruct (String.eqb k' k).
    - fold (fmap (M:=list) (SearchTest k') pats). rewrite IH.
      by destruct (String.eqb k' k). }
  induction cats as [|[k0 c0] l IH]; [by intros ?%elem_of_nil|].
  rewrite fmap_cons in keys. apply NoDup_cons in keys as [Hk0 Hl].
  intros Hin. unfold search_trace. cbn [flat_map fst snd].
  rewrite Happ, Hone. fold (search_trace l logs_lower).
  apply elem_of_cons in Hin as [[= <- <-]|Hin].
  - rewrite String.eqb_refl.
    assert (tested_patterns k (search_trace l logs_lower) = []) as ->;
      [|by rewrite app_nil_r].
    clear IH Hl. induction l as [|[k1 c1] l IH]; [done|].
    unfold search_trace. cbn [flat_map fst snd].
    rewrite Happ, Hone. fold (search_trace l logs_lower).
    destruct (String.eqb_spec k1 k) as [->|_].
    + destruct Hk0. left.
    + apply IH. intros ?. apply Hk0. by right.
  - destruct (String.eqb_spec k0 k) as [->|_]; [|by apply IH].
    destruct Hk0. by apply (list_elem_of_fmap_2 fst _ (k, c)).
Qed.

End Catalog.

Lemma tested_patterns_phrases k phrases :
  tested_patterns k (PhraseTest <$> phrases) = [].
Proof. by induction phrases. Qed.

Lemma tested_first pre p post logs_lower :
  Forall (λ q, matches q logs_lower = false) pre →
  matches p logs_lower = true →
  tested (pre ++ p :: post) logs_lower = pre ++ [p].
Proof.
  intros Hpre Hp. induction Hpre as [|q pre Hq _ IH]; cbn [app tested].
  - by rewrite Hp.
  - by rewrite Hq, IH.
Qed.

(** * [analyze_logs]: what a text yields *)

Lemma pattern_ink issue_type config pattern :
  (issue_type, config) ∈ failure_patterns →
  pattern ∈ Config.patterns config →
  starts_with_ink pattern = true.
Proof.
  intros Hin Hp. pose proof failure_patterns_ink as Hink.
  unfold catalog_ink in Hink. rewrite forallb_forall in Hink.
  apply list_elem_of_In, Hink in Hin. cbn [snd] in Hin.
  rewrite forallb_forall in Hin. by apply Hin, list_elem_of_In.
Qed.

Lemma category_matches_intro config logs_lower pattern :
  pattern ∈ Config.patterns config →
  matches pattern logs_lower = true →
  category_matches config logs_lower = true.
Proof.
  intros Hp Hm. apply existsb_exists. exists pattern.
  split; [by apply list_elem_of_In|exact Hm].
Qed.

(** No category of the catalog matches a text made of whitespace. *)
Lemma blank_no_category (logs : string) issue_type config :
  Str.all_space logs = true →
  (issue_type, config) ∈ failure_patterns →
  category_matches config (Str.lower logs) = false.
Proof.
  intros Hb Hin. unfold category_matches.
  apply not_true_is_false. intros (p & Hp & Hm)%existsb_exists.
  rewrite blank_no_match in Hm; [discriminate Hm| |exact Hb].
  by apply (pattern_ink issue_type config), list_elem_of_In.
Qed.

Lemma classify_detected (logs : string) :
  detected failure_patterns logs (Str.lower logs) ≠ [] →
  classify logs = detected failure_patterns logs (Str.lower logs).
Proof.
  unfold classify. cbv zeta.
  destruct (detected failure_patterns logs (Str.lower logs)); [done|].
  intros _. cbn [is_nil]. by rewrite andb_false_r.
Qed.

Lemma classify_NoDup (logs : string) : NoDup (type <$> classify logs).
Proof.
  unfold classify. cbv zeta. destruct (negb _ && _).
  - apply NoDup_singleton.
  - apply detected_NoDup, failure_patterns_keys.
Qed.

(** A text in which no category matches has no matching pattern. *)
Lemma unmatched_patterns (logs : string) :
  detected failure_patterns logs (Str.lower logs) = [] →
  ∀ issue_type config pattern,
    (issue_type, config) ∈ failure_patterns →
    pattern ∈ Config.patterns config →
    matches pattern (Str.lower logs) = false.
Proof.
  intros Hd k c p Hin Hp.
  pose proof (proj1 (detected_nil _ _ _) Hd k c Hin) as Hc.
  apply not_true_is_false. intros Hm.
  by rewrite (category_matches_intro _ _ _ Hp Hm) in Hc.
Qed.

(** Case analysis on a category of the catalog. *)
Ltac catalog_cases Hin :=
  apply list_elem_of_In in Hin; cbn [In failure_patterns] in Hin;
  repeat (destruct Hin as [Hin|Hin]; [injection Hin as <- <-|]);
  [..|destruct Hin].

(** C1.  On a text that is empty or made of whitespace only,
    [analyze_logs] returns exactly one issue, of type [no_logs] and
    severity [warning], and its trace is empty: no pattern of the catalog
    and no success phrase was tested. *)
Theorem analyze_logs_no_logs (logs repo_name : string) :
  Str.all_space logs = true →
  ∃ issue,
    analyze_logs logs repo_name = (inr [issue], []) ∧
    type issue = "no_logs" ∧ severity issue = "warning".
Proof.
  intros Hb. exists no_logs_issue.
  split; [by apply analyze_logs_blank|by split].
Qed.

Lemma analyze_logs_no_logs_witness :
  Str.all_space (" " +:+ Str.nl +:+ "  ") = true ∧
  ∃ issue,
    analyze_logs (" " +:+ Str.nl +:+ "  ") "api-service"
    = (inr [issue], []) ∧
    type issue = "no_logs" ∧ severity issue = "warning".
Proof.
  split; [reflexivity|].
  apply (analyze_logs_no_logs (" " +:+ Str.nl +:+ "  ") "api-service").
  reflexivity.
Defined.

(** C2.  On a text that is not blank and in which no pattern of the
    catalog matches: when the lowercased text contains one of the five
    success phrases, [analyze_logs] returns no issue; when it contains
    none, it returns exactly one issue, of type [unknown_failure] and
    severity [warning]. *)
Theorem analyze_logs_no_signature (logs repo_name : string) :
  Str.all_space logs = false →
  (∀ issue_type config pattern,
     (issue_type, config) ∈ failure_patterns →
     pattern ∈ Config.patterns config →
     matches pattern (Str.lower logs) = false) →
  (Exists (λ phrase, Str.contains phrase (Str.lower logs) = true)
     ["deployment successful"; "build completed"; "server started";
      "listening on port"; "application ready"] →
   ∃ tr, analyze_logs logs repo_name = (inr [], tr)) ∧
  (Forall (λ phrase, Str.contains phrase (Str.lower logs) = false)
     ["deployment successful"; "build completed"; "server started";
      "listening on port"; "application ready"] →
   ∃ issue tr,
     analyze_logs logs repo_name = (inr [issue], tr) ∧
     type issue = "unknown_failure" ∧ severity issue = "warning").
Proof.
  intros Hb Hno. rewrite (analyze_logs_run _ _ Hb).
  assert (Hd : detected failure_patterns logs (Str.lower logs) = []).
  { apply detected_nil. intros k c Hin. unfold category_matches.
    apply not_true_is_false. intros (p & Hp & Hm)%existsb_exists.
    rewrite (Hno k c p) in Hm;
      [discriminate Hm|exact Hin|by apply list_elem_of_In]. }
  unfold classify. rewrite Hd. cbv zeta. cbn [is_nil]. rewrite andb_true_r.
  change (Exists ?P _) with (Exists P success_indicators).
  change (Forall ?P _) with (Forall P success_indicators).
  split.
  - intros Hex. exists (classify_trace logs).
    assert (has_success (Str.lower logs) = true) as ->; [|reflexivity].
    apply existsb_exists. apply Exists_exists in Hex as (ph & Hin & Hc).
    exists ph. split; [by apply list_elem_of_In|exact Hc].
  - intros Hall. exists unknown_failure_issue, (classify_trace logs).
    assert (has_success (Str.lower logs) = false) as ->;
      [|repeat split; reflexivity].
    apply not_true_is_false. intros (ph & Hin & Hc)%existsb_exists.
    rewrite Forall_forall in Hall.
    rewrite Hall in Hc; [discriminate Hc|by apply list_elem_of_In].
Qed.

Lemma analyze_logs_no_signature_witness :
  (∃ tr,
     analyze_logs ("Server started" +:+ Str.nl +:+ "Listening on port 3000")
       "api-service" = (inr [], tr)) ∧
  (∃ issue tr,
     analyze_logs "hello world" "api-service" = (inr [issue], tr) ∧
     type issue = "unknown_failure" ∧ severity issue = "warning").
Proof.
  split.
  - apply (analyze_logs_no_signature
             ("Server started" +:+ Str.nl +:+ "Listening on port 3000")
             "api-service").
    + reflexivity.
    + apply unmatched_patterns. vm_compute. reflexivity.
    + do 2 apply Exists_cons_tl. apply Exists_cons_hd.
      vm_compute. reflexivity.
  - apply (analyze_logs_no_signature "hello world" "api-service").
    + reflexivity.
    + apply unmatched_patterns. vm_compute. reflexivity.
    + repeat constructor.
Defined.

(** C3.  The issues [analyze_logs] returns have pairwise distinct types,
    so there is one issue per category at most.  In a category, the
    patterns are tested in listed order up to the first that matches: the
    trace holds those tests and none of a later pattern, and the only
    issue of that type is the one built at that pattern.  When some
    category matches, the types of the issues are the keys of the
    matching categories, in catalog order; so when two distinct
    categories match (and no third), exactly two issues are returned, one
    of each type, with the severity and the remediation of its
    category. *)
Theorem analyze_logs_one_issue_per_category (logs repo_name : string) :
  ∃ issues tr,
    analyze_logs logs repo_name = (inr issues, tr) ∧
    NoDup (type <$> issues) ∧
    ((∃ issue_type config,
        (issue_type, config) ∈ failure_patterns ∧
        category_matches config (Str.lower logs) = true) →
     type <$> issues
     = (filter (λ kc, category_matches kc.2 (Str.lower logs) = true)
          failure_patterns).*1) ∧
    (∀ issue_type config pre pattern post,
       (issue_type, config) ∈ failure_patterns →
       Config.patterns config = pre ++ pattern :: post →
       Forall (λ q, matches q (Str.lower logs) = false) pre →
       matches pattern (Str.lower logs) = true →
       tested_patterns issue_type tr = pre ++ [pattern] ∧
       ∃ files,
         _extract_affected_files logs pattern = (inr files, []) ∧
         filter (λ i, type i = issue_type) issues
         = [pattern_issue issue_type config files]) ∧
    (∀ k1 c1 k2 c2,
       (k1, c1) ∈ failure_patterns → (k2, c2) ∈ failure_patterns →
       k1 ≠ k2 →
       category_matches c1 (Str.lower logs) = true →
       category_matches c2 (Str.lower logs) = true →
       (∀ k c, (k, c) ∈ failure_patterns →
               category_matches c (Str.lower logs) = true →
               k = k1 ∨ k = k2) →
       ∃ i1 i2,
         (issues = [i1; i2] ∨ issues = [i2; i1]) ∧
         type i1 = k1 ∧ severity i1 = Config.severity c1 ∧
         remediation i1 = Config.remediation c1 ∧
         type i2 = k2 ∧ severity i2 = Config.severity c2 ∧
         remediation i2 = Config.remediation c2).
Proof.
  destruct (Str.all_space logs) eqn:Hb.
  - exists [no_logs_issue], []. split; [by apply analyze_logs_blank|].
    split; [apply NoDup_singleton|]. split; [|split].
    + intros (k & c & Hin & Hm). exfalso.
      rewrite (blank_no_category _ _ _ Hb Hin) in Hm. discriminate Hm.
    + intros k c pre p post Hin Hpats _ Hm. exfalso.
      rewrite blank_no_match in Hm; [discriminate Hm| |exact Hb].
      apply (pattern_ink k c); [exact Hin|]. rewrite Hpats.
      apply elem_of_app. right. left.
    + intros k1 c1 k2 c2 Hin _ _ Hm _ _. exfalso.
      rewrite (blank_no_category _ _ _ Hb Hin) in Hm. discriminate Hm.
  - exists (classify logs), (classify_trace logs).
    split; [by apply analyze_logs_run|].
    split; [apply classify_NoDup|]. split; [|split].
    + intros (k & c & Hin & Hm).
      rewrite classify_detected; [apply detected_types|].
      intros Hnil.
      rewrite (proj1 (detected_nil _ _ _) Hnil k c Hin) in Hm.
      discriminate Hm.
    + intros k c pre p post Hin Hpats Hpre Hm.
      assert (Hc : category_matches c (Str.lower logs) = true).
      { apply (category_matches_intro _ _ p); [|exact Hm].
        rewrite Hpats. apply elem_of_app. right. left. }
      split.
      * unfold classify_trace, tested_patterns. rewrite flat_map_app.
        fold (tested_patterns k (search_trace failure_patterns
                                   (Str.lower logs))).
        fold (tested_patterns k (PhraseTest <$> asked success_indicators
                                   (Str.lower logs))).
        rewrite tested_patterns_phrases, app_nil_r.
        rewrite (tested_patterns_search_trace _ failure_patterns_keys
                   _ k c Hin).
        rewrite Hpats. by apply tested_first.
      * exists (extracted logs).
        split; [apply extract_affected_files_run|].
        pose proof (detected_of_type _ failure_patterns_keys
                      logs (Str.lower logs) k c Hin) as Hf.
        rewrite Hc in Hf. rewrite classify_detected; [exact Hf|].
        intros Hnil. rewrite Hnil, filter_nil in Hf. discriminate Hf.
    + intros k1 c1 k2 c2 H1 H2 Hne Hm1 Hm2 Honly.
      destruct (detected_two _ failure_patterns_keys
                  logs (Str.lower logs) k1 c1 k2 c2
                  H1 H2 Hne Hm1 Hm2 Honly) as [Hd|Hd];
        (rewrite classify_detected; [|rewrite Hd; discriminate]);
        rewrite Hd;
        exists (pattern_issue k1 c1 (extracted logs)),
               (pattern_issue k2 c2 (extracted logs));
        (split; [(left; reflexivity) || (right; reflexivity)
                |repeat split]).
Qed.

Lemma analyze_logs_one_issue_per_category_witness :
  ∃ issues tr,
    analyze_logs example_logs "api-service" = (inr issues, tr) ∧
    tested_patterns "database_connection" tr
    = ["database.*connection.*failed"; "prisma.*error";
       "connection.*refused"] ∧
    ∃ i1 i2,
      (issues = [i1; i2] ∨ issues = [i2; i1]) ∧
      type i1 = "missing_env_vars" ∧
      severity i1 = Config.severity missing_env_vars ∧
      remediation i1 = Config.remediation missing_env_vars ∧
      type i2 = "database_connection" ∧
      severity i2 = Config.severity database_connection ∧
      remediation i2 = Config.remediation database_connection.
Proof.
  destruct (analyze_logs_one_issue_per_category example_logs "api-service")
    as (issues & tr & Hrun & _ & _ & Hfirst & Htwo).
  exists issues, tr. split; [exact Hrun|]. split.
  - apply (Hfirst "database_connection" database_connection
             ["database.*connection.*failed"; "prisma.*error"]
             "connection.*refused"
             ["database.*not found"; "authentication.*failed"]).
    + repeat constructor.
    + reflexivity.
    + repeat constructor.
    + vm_compute. reflexivity.
  - apply (Htwo "missing_env_vars" missing_env_vars
             "database_connection" database_connection).
    + repeat constructor.
    + repeat constructor.
    + discriminate.
    + vm_compute. reflexivity.
    + vm_compute. reflexivity.
    + intros k c Hin Hm. catalog_cases Hin; vm_compute in Hm;
        first [discriminate Hm | left; reflexivity | right; reflexivity].
Defined.

(** C7.  On the text made of the two lines [Error: DATABASE_URL not found]
    and [Error: connection refused], [analyze_logs] returns exactly two
    issues, of type [missing_env_vars] and [database_connection], both of
    severity [critical], and the status rule gives [FAILED] on them. *)
Theorem database_url_scenario (repo_name : string) :
  ∃ i1 i2 tr,
    analyze_logs
      ("Error: DATABASE_URL not found" +:+ Str.nl
       +:+ "Error: connection refused") repo_name
    = (inr [i1; i2], tr) ∧
    type i1 = "missing_env_vars" ∧ severity i1 = "critical" ∧
    type i2 = "database_connection" ∧ severity i2 = "critical" ∧
    determine_status [i1; i2] = FAILED.
Proof.
  destruct (analyze_logs _ repo_name) as [r tr] eqn:E.
  vm_compute in E. injection E as <- <-.
  eexists _, _, _. repeat split.
Qed.

(** C10.  [analyze_logs] returns on every text, without raising, and
    what it returns (issues and trace) depends on the text alone: two
    calls on one text, under any repository names, agree. *)
Theorem analyze_logs_total (logs repo_name1 repo_name2 : string) :
  ∃ issues tr,
    analyze_logs logs repo_name1 = (inr issues, tr) ∧
    analyze_logs logs repo_name2 = (inr issues, tr).
Proof.
  exists (issues_of logs), (trace_of logs).
  split; apply analyze_logs_eq.
Qed.

(** C9.  [_extract_affected_files] returns, without raising, a list
    without duplicates whose members are exactly the file names found by
    one of the four extraction patterns; a name found several times, or
    by several patterns, is therefore listed once, as [src/app.js] is in
    the example. *)
Theorem extract_affected_files_no_duplicates (logs pattern : string) :
  ∃ files,
    _extract_affected_files logs pattern = (inr files, []) ∧
    NoDup files ∧
    (∀ f, f ∈ files ↔
          ∃ file_pattern ms,
            file_pattern ∈ file_patterns ∧
            Re.findall true file_pattern logs = Some ms ∧
            f ∈ match_file <$> ms) ∧
    _extract_affected_files
      "Build failed in src/app.js at src/app.js:10 file: src/app.js" pattern
    = (inr ["src/app.js"], []).
Proof.
  exists (extracted logs). split; [apply extract_affected_files_run|].
  split; [unfold extracted, list_set; apply NoDup_elements|]. split.
  - intros f. unfold extracted, list_set.
    etrans; [apply elem_of_elements|]. etrans; [apply elem_of_list_to_set|].
    rewrite list_elem_of_In, in_flat_map.
    split.
    + intros (fp & Hfp & Hf). exists fp. unfold found_files in Hf.
      destruct (Re.findall true fp logs) as [ms|] eqn:Hms; [|destruct Hf].
      exists ms. by rewrite !list_elem_of_In.
    + intros (fp & ms & Hfp & Hms & Hf). exists fp.
      unfold found_files. rewrite Hms. by rewrite <- !list_elem_of_In.
  - rewrite extract_affected_files_run. vm_compute. reflexivity.
Qed.

(** * The status rule *)

Lemma all_info_forallb issues :
  forallb (λ issue, String.eqb (severity issue) "info") issues = true ↔
  Forall (λ issue, severity issue = "info") issues.
Proof.
  rewrite forallb_forall, Forall_forall. setoid_rewrite String.eqb_eq.
  by setoid_rewrite list_elem_of_In.
Qed.

Lemma any_critical_existsb issues :
  existsb (λ issue, String.eqb (severity issue) "critical") issues = true ↔
  Exists (λ issue, severity issue = "critical") issues.
Proof.
  rewrite existsb_exists, Exists_exists. setoid_rewrite String.eqb_eq.
  by setoid_rewrite list_elem_of_In.
Qed.

(** The rule never answers [UNKNOWN]. *)
Lemma determine_status_known issues : determine_status issues ≠ UNKNOWN.
Proof. unfold determine_status. by repeat case_match. Qed.

(** C4.  The status rule gives [SUCCESS] on the empty list and on a list
    whose issues all have severity [info], [FAILED] on a list with an
    issue of severity [critical], and [PENDING] on every other list (no
    [critical] issue, some issue that is not [info]); so on the lists
    [[]], [[info]], [[warning]] and [[critical; info]] it gives
    [SUCCESS], [SUCCESS], [PENDING] and [FAILED]. *)
Theorem determine_status_rule :
  (∀ issues,
     issues = [] ∨ Forall (λ issue, severity issue = "info") issues →
     determine_status issues = SUCCESS) ∧
  (∀ issues,
     Exists (λ issue, severity issue = "critical") issues →
     determine_status issues = FAILED) ∧
  (∀ issues,
     ¬ Exists (λ issue, severity issue = "critical") issues →
     Exists (λ issue, severity issue ≠ "info") issues →
     determine_status issues = PENDING) ∧
  determine_status [] = SUCCESS ∧
  (∀ info warning critical,
     severity info = "info" → severity warning = "warning" →
     severity critical = "critical" →
     determine_status [info] = SUCCESS ∧
     determine_status [warning] = PENDING ∧
     determine_status [critical; info] = FAILED).
Proof.
  assert (Hs : ∀ issues,
            issues = [] ∨ Forall (λ issue, severity issue = "info") issues →
            determine_status issues = SUCCESS).
  { intros issues [->|Hall]; [done|]. unfold determine_status.
    apply all_info_forallb in Hall. by rewrite Hall, orb_true_r. }
  assert (Hf : ∀ issues,
            Exists (λ issue, severity issue = "critical") issues →
            determine_status issues = FAILED).
  { intros issues Hex. unfold determine_status.
    assert (is_nil issues
            || forallb (λ issue, String.eqb (severity issue) "info") issues
            = false) as ->.
    { apply orb_false_iff. split; [by destruct Hex|].
      apply not_true_is_false. intros Hall%all_info_forallb.
      apply Exists_exists in Hex as (i & Hi & Hc).
      rewrite Forall_forall in Hall. by rewrite (Hall i Hi) in Hc. }
    apply any_critical_existsb in Hex. by rewrite Hex. }
  assert (Hp : ∀ issues,
            ¬ Exists (λ issue, severity issue = "critical") issues →
            Exists (λ issue, severity issue ≠ "info") issues →
            determine_status issues = PENDING).
  { intros issues Hnc Hni. unfold determine_status.
    assert (is_nil issues
            || forallb (λ issue, String.eqb (severity issue) "info") issues
            = false) as ->.
    { apply orb_false_iff. split; [by destruct Hni|].
      apply not_true_is_false. intros Hall%all_info_forallb.
      apply Exists_exists in Hni as (i & Hi & Hc).
      rewrite Forall_forall in Hall. by apply Hc, Hall. }
    assert (existsb (λ issue, String.eqb (severity issue) "critical") issues
            = false) as ->; [|done].
    apply not_true_is_false. by intros ?%any_critical_existsb. }
  repeat split; try done.
  - apply Hs. right. by repeat constructor.
  - apply Hp.
    + intros [Hc|Hc%Exists_nil]%Exists_cons; [|done]. congruence.
    + apply Exists_cons_hd. congruence.
  - apply Hf. by apply Exists_cons_hd.
Qed.

Lemma determine_status_rule_witness :
  determine_status (issues (no_project_analysis "api-service")) = SUCCESS ∧
  determine_status [no_logs_issue] = PENDING ∧
  determine_status
    [pattern_issue "timeout" timeout []; unknown_failure_issue;
     pattern_issue "build_failure" build_failure []] = FAILED.
Proof.
  destruct determine_status_rule as (Hs & Hf & Hp & _).
  split; [|split].
  - apply Hs. right. repeat constructor.
  - apply Hp.
    + intros [Hc|Hc%Exists_nil]%Exists_cons; [discriminate Hc|exact Hc].
    + apply Exists_cons_hd. discriminate.
  - apply Hf. do 2 apply Exists_cons_tl. apply Exists_cons_hd. reflexivity.
Defined.

(** * The log excerpt *)

Lemma preview_short (logs : string) :
  String.length logs ≤ 500 → preview logs = logs.
Proof.
  intros Hl. unfold preview.
  by destruct (Nat.ltb_spec 500 (String.length logs)); [lia|].
Qed.

Lemma preview_long (logs : string) :
  500 < String.length logs → preview logs = Str.take 500 logs +:+ "...".
Proof.
  intros Hl. unfold preview.
  by destruct (Nat.ltb_spec 500 (String.length logs)); [|lia].
Qed.

(** * The matcher *)

Lemma find_project_none projects repo_name :
  Forall (named_apart repo_name) projects →
  find_project projects repo_name = (inr None, []).
Proof.
  induction 1 as [|q projects (qn & Hq & Hne) _ IH]; cbn [find_project];
    [done|].
  rewrite (getitem_some _ _ _ Hq).
  change (inr qn, []) with (mret (M:=M) qn). rewrite bind_pure.
  by apply String.eqb_neq in Hne as ->.
Qed.

Lemma find_project_first pre project post repo_name name :
  Forall (named_apart repo_name) pre →
  project !! "name" = Some name →
  Str.lower name = Str.lower repo_name →
  find_project (pre ++ project :: post) repo_name
  = (inr (Some project), []).
Proof.
  intros Hpre Hname Heq.
  induction Hpre as [|q pre (qn & Hq & Hne) _ IH]; cbn [app find_project].
  - rewrite (getitem_some _ _ _ Hname).
    change (inr name, []) with (mret (M:=M) name). rewrite bind_pure.
    by apply String.eqb_eq in Heq as ->.
  - rewrite (getitem_some _ _ _ Hq).
    change (inr qn, []) with (mret (M:=M) qn). rewrite bind_pure.
    by apply String.eqb_neq in Hne as ->.
Qed.

(** What [find_project] can answer: the first project of the name, no
    project, or the [KeyError] of a project without name met before. *)
Lemma find_project_cases projects repo_name :
  (∃ pre project post name,
     projects = pre ++ project :: post ∧
     Forall (named_apart repo_name) pre ∧
     project !! "name" = Some name ∧
     Str.lower name = Str.lower repo_name ∧
     find_project projects repo_name = (inr (Some project), [])) ∨
  (Forall (named_apart repo_name) projects ∧
   find_project projects repo_name = (inr None, [])) ∨
  find_project projects repo_name = (inl (KeyError "name"), []).
Proof.
  induction projects as [|q projects IH]; cbn [find_project].
  - right. left. by split.
  - destruct (q !! "name") as [qn|] eqn:Hq.
    2:{ right. right. by rewrite (getitem_none _ _ Hq). }
    rewrite (getitem_some _ _ _ Hq).
    change (inr qn, []) with (mret (M:=M) qn). rewrite bind_pure.
    destruct (String.eqb_spec (Str.lower qn) (Str.lower repo_name))
      as [Heq|Hne].
    + left. exists [], q, projects, qn. by repeat split.
    + assert (Hq' : named_apart repo_name q) by (by exists qn).
      destruct IH as [(pre & p & post & pn & -> & Hpre & Hp & Heq & Hrun)
                     |[[Hall Hrun]|Hrun]].
      * left. exists (q :: pre), p, post, pn. repeat split; try done.
        by constructor.
      * right. left. split; [by constructor|done].
      * by right; right.
Qed.

(** * [analyze_repo] and the loop of [run_analysis] *)

Lemma analyze_logs_value_run (logs : json) (repo_name : string) :
  analyze_logs_value logs repo_name
  = (issues_of_value logs, trace_of_value logs).
Proof.
  destruct logs; cbn [analyze_logs_value issues_of_value trace_of_value];
    try (by destruct (Py.truthy _)).
  apply analyze_logs_eq.
Qed.

Lemma preview_value_pure (logs : json) : (preview_value logs).2 = [].
Proof.
  destruct logs; cbn [preview_value]; try reflexivity.
  - by destruct (500 <? length items).
  - by destruct (500 <? size fields).
Qed.

(** The values on which both the analysis and the preview go through:
    the strings, the empty list and the empty dict. *)
Lemma value_outcomes (logs : json) issues logs_preview :
  issues_of_value logs = inr issues →
  (preview_value logs).1 = inr logs_preview →
  (∃ text, logs = JStr text ∧ issues = issues_of text ∧
           logs_preview = JStr (preview text)) ∨
  ((logs = JArr [] ∨ logs = JObj ∅) ∧ issues = [no_logs_issue] ∧
   logs_preview = logs).
Proof.
  destruct logs as [|b|n|x|text|items|fields];
    cbn [issues_of_value preview_value fst mret M_ret ret raise];
    intros Hi Hp; try discriminate Hp.
  - left. exists text. by injection Hi as <-; injection Hp as <-.
  - right. destruct items as [|item items]; [|discriminate Hi].
    injection Hi as <-. injection Hp as <-. by repeat split; try left.
  - right. cbn [Py.truthy] in Hi. case_bool_decide as Hempty;
      [|discriminate Hi].
    injection Hi as <-. subst fields. rewrite map_size_empty in Hp.
    injection Hp as <-. by repeat split; try right.
Qed.

(** The run of [analyze_repo] from the fetch of the logs on. *)
Lemma matched_run (logs : json) repo_name project_name project_id
    last_deployment :
  (tell (LogsFetched project_name project_id);;
   tell (LogsAnalyzed logs repo_name);;
   issues ← analyze_logs_value logs repo_name;
   logs_preview ← preview_value logs;
   mret {| repo_name := repo_name;
           status := determine_status issues;
           issues := issues;
           last_deployment := last_deployment;
           logs_preview := logs_preview |})
  = (match issues_of_value logs with
     | inl e => inl e
     | inr issues =>
         match (preview_value logs).1 with
         | inl e => inl e
         | inr logs_preview =>
             inr {| repo_name := repo_name;
                    status := determine_status issues;
                    issues := issues;
                    last_deployment := last_deployment;
                    logs_preview := logs_preview |}
         end
     end,
     LogsFetched project_name project_id
       :: LogsAnalyzed logs repo_name :: trace_of_value logs).
Proof.
  apply bind_tell, bind_tell. rewrite analyze_logs_value_run.
  pose proof (preview_value_pure logs) as Hpure.
  destruct (issues_of_value logs) as [e|issues]; [reflexivity|].
  unfold mbind, M_bind, bind.
  destruct (preview_value logs) as [[e|logs_preview] tr];
    cbn [fst snd] in *; subst tr; cbn [mret M_ret ret];
    by rewrite app_nil_r.
Qed.

Section RepoClaims.
Variable get_railway_deployment_logs : string → option string → json.
Variable str_exn : exn → string.

Lemma analyze_repo_unnamed repo projects :
  repo !! "name" = None →
  analyze_repo get_railway_deployment_logs repo projects
  = (inl (KeyError "name"), []).
Proof.
  intros Hn. unfold analyze_repo. by rewrite (getitem_none _ _ Hn).
Qed.

Lemma analyze_repo_unmatched repo projects repo_name :
  repo !! "name" = Some repo_name →
  find_project projects repo_name = (inr None, []) →
  analyze_repo get_railway_deployment_logs repo projects
  = (inr (no_project_analysis repo_name), []).
Proof.
  intros Hn Hfind. unfold analyze_repo.
  rewrite (bind_run _ _ _ _ (getitem_some _ _ _ Hn)).
  by rewrite (bind_run _ _ _ _ Hfind).
Qed.

Lemma analyze_repo_raises repo projects repo_name :
  repo !! "name" = Some repo_name →
  find_project projects repo_name = (inl (KeyError "name"), []) →
  analyze_repo get_railway_deployment_logs repo projects
  = (inl (KeyError "name"), []).
Proof.
  intros Hn Hfind. unfold analyze_repo.
  rewrite (bind_run _ _ _ _ (getitem_some _ _ _ Hn)).
  by rewrite Hfind.
Qed.

Lemma analyze_repo_matched repo projects repo_name project project_name :
  repo !! "name" = Some repo_name →
  find_project projects repo_name = (inr (Some project), []) →
  project !! "name" = Some project_name →
  analyze_repo get_railway_deployment_logs repo projects
  = (matched_outcome get_railway_deployment_logs
       repo_name project project_name,
     matched_trace get_railway_deployment_logs
       repo_name project project_name).
Proof.
  intros Hn Hfind Hp. unfold analyze_repo.
  rewrite (bind_run _ _ _ _ (getitem_some _ _ _ Hn)).
  rewrite (bind_run _ _ _ _ Hfind).
  destruct (decide (project = ∅)) as [->|_].
  { by rewrite lookup_empty in Hp. }
  rewrite (bind_run _ _ _ _ (getitem_some _ _ _ Hp)). cbv zeta.
  rewrite matched_run. reflexivity.
Qed.

Lemma matched_outcome_text repo_name project project_name logs :
  get_railway_deployment_logs project_name (project !! "id") = JStr logs →
  matched_outcome get_railway_deployment_logs repo_name project project_name
  = inr (matched_analysis repo_name project logs).
Proof. unfold matched_outcome. by intros ->. Qed.

Lemma matched_outcome_inr repo_name project project_name analysis :
  matched_outcome get_railway_deployment_logs repo_name project project_name
  = inr analysis →
  (∃ logs,
     get_railway_deployment_logs project_name (project !! "id") = JStr logs ∧
     analysis = matched_analysis repo_name project logs) ∨
  ((get_railway_deployment_logs project_name (project !! "id") = JArr [] ∨
    get_railway_deployment_logs project_name (project !! "id") = JObj ∅) ∧
   analysis
   = {| repo_name := repo_name;
        status := PENDING;
        issues := [no_logs_issue];
        last_deployment := project !! "updatedAt";
        logs_preview :=
          get_railway_deployment_logs project_name (project !! "id") |}).
Proof.
  unfold matched_outcome. cbv zeta.
  destruct (issues_of_value _) as [e|issues] eqn:Hi; [discriminate|].
  destruct (preview_value _).1 as [e|logs_preview] eqn:Hp; [discriminate|].
  intros [= <-].
  destruct (value_outcomes _ _ _ Hi Hp)
    as [(text & Hl & -> & ->)|(Hl & -> & ->)].
  - left. by exists text.
  - right. by split.
Qed.

Lemma matched_outcome_status repo_name project project_name analysis :
  matched_outcome get_railway_deployment_logs repo_name project project_name
  = inr analysis →
  status analysis = determine_status (issues analysis) ∧
  status analysis ≠ UNKNOWN.
Proof.
  unfold matched_outcome. cbv zeta.
  destruct (issues_of_value _) as [e|issues]; [discriminate|].
  destruct (preview_value _).1 as [e|logs_preview]; [discriminate|].
  intros [= <-]. split; [reflexivity|apply determine_status_known].
Qed.

Lemma analyze_repo_status repo projects analysis tr :
  analyze_repo get_railway_deployment_logs repo projects
  = (inr analysis, tr) →
  (status analysis = determine_status (issues analysis) ∧
   status analysis ≠ UNKNOWN) ∨
  analysis = no_project_analysis (repo_name analysis).
Proof.
  destruct (repo !! "name") as [n|] eqn:Hn.
  2:{ by rewrite (analyze_repo_unnamed _ _ Hn). }
  destruct (find_project_cases projects n)
    as [(pre & p & post & pn & -> & Hpre & Hp & Heq & Hfind)
       |[[Hall Hfind]|Hfind]].
  - rewrite (analyze_repo_matched _ _ _ _ _ Hn Hfind Hp).
    intros [= Hout _]. left. by eapply matched_outcome_status.
  - rewrite (analyze_repo_unmatched _ _ _ Hn Hfind).
    intros [= <- <-]. by right.
  - by rewrite (analyze_repo_raises _ _ _ Hn Hfind).
Qed.

Lemma analyze_repos_status repos projects acc out tr :
  analyze_repos get_railway_deployment_logs str_exn repos projects acc
  = (inr out, tr) →
  Forall (explained str_exn) acc → Forall (explained str_exn) out.
Proof.
  revert acc tr; induction repos as [|repo repos IH]; intros acc tr;
    cbn [analyze_repos].
  { by intros [= <- <-]. }
  intros Hrun Hacc.
  destruct (analyze_repo get_railway_deployment_logs repo projects)
    as [[e|a] tr1] eqn:Ha; cbn [try_except] in Hrun.
  - destruct (repo !! "name") as [n|] eqn:Hn.
    + rewrite (getitem_some _ _ _ Hn) in Hrun.
      change (inr n, []) with (mret (M:=M) n) in Hrun.
      rewrite !bind_pure in Hrun. cbn [mret M_ret ret] in Hrun.
      rewrite (bind_run _ _ (analysis_error str_exn n e) (tr1 ++ []) eq_refl)
        in Hrun.
      destruct (analyze_repos _ _ repos projects _) as [r tr2] eqn:Hrest.
      cbn [fst snd] in Hrun. injection Hrun as -> <-.
      apply (IH _ _ Hrest). apply Forall_app. split; [done|].
      constructor; [|done]. right. right. by exists e.
    + rewrite (getitem_none _ _ Hn) in Hrun. discriminate Hrun.
  - rewrite (bind_run _ _ a tr1 eq_refl) in Hrun.
    destruct (analyze_repos _ _ repos projects _) as [r tr2] eqn:Hrest.
    cbn [fst snd] in Hrun. injection Hrun as -> <-.
    apply (IH _ _ Hrest). apply Forall_app. split; [done|].
    constructor; [|done].
    destruct (analyze_repo_status _ _ _ _ Ha) as [Hu| ->]; [by left|].
    right. left. by repeat split.
Qed.


(** C6.  For a repository with a name: the matcher takes the first
    project whose name is the repository name up to the case of the
    letters, and the outcome of the analysis is the one built from that
    project: an analysis of the text when its log source answers with a
    text; when every
    project has another name, the analysis has status [UNKNOWN] and the
    one issue [no_railway_project] of severity [info], and the trace is
    empty: no log was fetched and [analyze_logs] was not called.  The
    project [myapp] is the match of the repository [MyApp]. *)
Theorem matcher_first_match repo projects repo_name :
  repo !! "name" = Some repo_name →
  (∀ pre project post project_name,
     projects = pre ++ project :: post →
     Forall (named_apart repo_name) pre →
     project !! "name" = Some project_name →
     Str.lower project_name = Str.lower repo_name →
     find_project projects repo_name = (inr (Some project), []) ∧
     analyze_repo get_railway_deployment_logs repo projects
     = (matched_outcome get_railway_deployment_logs
          repo_name project project_name,
        matched_trace get_railway_deployment_logs
          repo_name project project_name) ∧
     (∀ logs,
        get_railway_deployment_logs project_name (project !! "id")
        = JStr logs →
        analyze_repo get_railway_deployment_logs repo projects
        = (inr (matched_analysis repo_name project logs),
           matched_trace get_railway_deployment_logs
             repo_name project project_name))) ∧
  (Forall (named_apart repo_name) projects →
   find_project projects repo_name = (inr None, []) ∧
   ∃ issue,
     analyze_repo get_railway_deployment_logs repo projects
     = (inr {| repo_name := repo_name;
               status := UNKNOWN;
               issues := [issue];
               last_deployment := None;
               logs_preview := JStr "No Railway project found" |}, []) ∧
     type issue = "no_railway_project" ∧ severity issue = "info") ∧
  find_project [{[ "name" := "myapp" ]}] "MyApp"
  = (inr (Some {[ "name" := "myapp" ]}), []).
Proof.
  intros Hn. split; [|split].
  - intros pre project post project_name -> Hpre Hp Heq.
    assert (Hfind : find_project (pre ++ project :: post) repo_name
                    = (inr (Some project), []))
      by by eapply find_project_first.
    split; [done|]. split; [by apply analyze_repo_matched|].
    intros logs Hlogs.
    rewrite <- (matched_outcome_text _ _ project_name _ Hlogs).
    by apply analyze_repo_matched.
  - intros Hall. pose proof (find_project_none _ _ Hall) as Hfind.
    split; [done|]. eexists. split; [by apply analyze_repo_unmatched|].
    by split.
  - apply (find_project_first [] _ [] _ "myapp"); [constructor|done|].
    vm_compute. reflexivity.
Qed.

(** C5, as the code has it.  For a repository matched to a project whose
    log source answers with a text, [analyze_repo] returns an analysis
    whose status is the value of the status rule on its issues; and
    whatever the log source answers, an analysis [analyze_repo] returns
    for a matched repository has its status by that rule.  Every
    analysis [analyze_repo] returns has its status by the rule (and then
    not [UNKNOWN]) or is the analysis of a repository without project.
    Every analysis the loop of [run_analysis] collects comes
    to its status in one of three ways: by the status rule applied to
    its issues (the status is then not [UNKNOWN]); or it is the analysis
    of a repository without project, of status [UNKNOWN], on whose one
    issue the rule would give [SUCCESS]; or it is the analysis standing
    for a raised exception, of status [UNKNOWN], on whose one issue the
    rule would give [PENDING]. *)
Theorem constructed_status :
  (∀ repo projects repo_name pre project post project_name logs,
     repo !! "name" = Some repo_name →
     projects = pre ++ project :: post →
     Forall (named_apart repo_name) pre →
     project !! "name" = Some project_name →
     Str.lower project_name = Str.lower repo_name →
     get_railway_deployment_logs project_name (project !! "id")
     = JStr logs →
     ∃ analysis tr,
       analyze_repo get_railway_deployment_logs repo projects
       = (inr analysis, tr) ∧
       status analysis = determine_status (issues analysis) ∧
       status analysis ≠ UNKNOWN) ∧
  (∀ repo projects repo_name pre project post project_name analysis tr,
     repo !! "name" = Some repo_name →
     projects = pre ++ project :: post →
     Forall (named_apart repo_name) pre →
     project !! "name" = Some project_name →
     Str.lower project_name = Str.lower repo_name →
     analyze_repo get_railway_deployment_logs repo projects
     = (inr analysis, tr) →
     status analysis = determine_status (issues analysis) ∧
     status analysis ≠ UNKNOWN) ∧
  (∀ repo projects analysis tr,
     analyze_repo get_railway_deployment_logs repo projects
     = (inr analysis, tr) →
     (status analysis = determine_status (issues analysis) ∧
      status analysis ≠ UNKNOWN) ∨
     (analysis = no_project_analysis (repo_name analysis) ∧
      status analysis = UNKNOWN ∧
      determine_status (issues analysis) = SUCCESS)) ∧
  (∀ repos projects analyses tr,
     analyze_repos get_railway_deployment_logs str_exn repos projects []
     = (inr analyses, tr) →
     Forall (λ a,
       (status a = determine_status (issues a) ∧ status a ≠ UNKNOWN) ∨
       (a = no_project_analysis (repo_name a) ∧ status a = UNKNOWN ∧
        determine_status (issues a) = SUCCESS) ∨
       (∃ e, a = analysis_error str_exn (repo_name a) e ∧
             status a = UNKNOWN ∧
             determine_status (issues a) = PENDING)) analyses).
Proof.
  split; [|split; [|split]].
  - intros repo projects repo_name pre project post project_name logs
      Hn -> Hpre Hp Heq Hlogs.
    exists (matched_analysis repo_name project logs),
           (matched_trace get_railway_deployment_logs
              repo_name project project_name).
    split.
    { rewrite <- (matched_outcome_text _ _ project_name _ Hlogs).
      apply analyze_repo_matched; [exact Hn| |exact Hp].
      by eapply find_project_first. }
    split; [reflexivity|apply determine_status_known].
  - intros repo projects repo_name pre project post project_name
      analysis tr Hn -> Hpre Hp Heq.
    rewrite (analyze_repo_matched _ _ _ _ _ Hn
               (find_project_first _ _ _ _ _ Hpre Hp Heq) Hp).
    intros [= Hout _]. by eapply matched_outcome_status.
  - intros repo projects analysis tr Hrun.
    destruct (analyze_repo_status _ _ _ _ Hrun) as [Hu|Heq]; [by left|].
    right. rewrite Heq. by repeat split.
  - intros repos projects analyses tr Hrun.
    by apply (analyze_repos_status _ _ _ _ _ Hrun).
Qed.

End RepoClaims.

(** * The claims on concrete inputs *)

Lemma other_apart (repo_name : string) :
  Str.lower "other" ≠ Str.lower repo_name →
  Forall (named_apart repo_name) [project_other].
Proof.
  intros Hne. constructor; [|constructor].
  exists "other". split; [reflexivity|exact Hne].
Qed.



Lemma matcher_first_match_witness :
  find_project [project_other; project_myapp; project_MYAPP] "MyApp"
  = (inr (Some project_myapp), []) ∧
  (∃ analysis tr,
     analyze_repo (λ _ _, JStr example_logs) repo_MyApp
       [project_other; project_myapp; project_MYAPP]
     = (inr analysis, tr) ∧
     status analysis = FAILED ∧
     LogsFetched "myapp" (Some "7") ∈ tr) ∧
  ∃ issue,
    analyze_repo (λ _ _, JStr example_logs) repo_api_service [project_other]
    = (inr {| repo_name := "api-service";
              status := UNKNOWN;
              issues := [issue];
              last_deployment := None;
              logs_preview := JStr "No Railway project found" |}, []) ∧
    type issue = "no_railway_project" ∧ severity issue = "info".
Proof.
  destruct (matcher_first_match (λ _ _, JStr example_logs) repo_MyApp
              [project_other; project_myapp; project_MYAPP] "MyApp"
              eq_refl) as (Hfirst & _ & _).
  destruct (Hfirst [project_other] project_myapp [project_MYAPP] "myapp")
    as (Hfind & Hrun & _).
  { reflexivity. }
  { apply other_apart. vm_compute. discriminate. }
  { reflexivity. }
  { vm_compute. reflexivity. }
  split; [exact Hfind|]. split.
  - eexists _, _. split; [exact Hrun|].
    split; [vm_compute; reflexivity|left].
  - destruct (matcher_first_match (λ _ _, JStr example_logs)
                repo_api_service [project_other] "api-service" eq_refl)
      as (_ & Hnone & _).
    apply Hnone, other_apart. vm_compute. discriminate.
Defined.

Lemma constructed_status_witness :
  ∃ analyses tr,
    analyze_repos (λ _ _, JStr example_logs)
      (λ e, match e with
            | KeyError key => "'" +:+ key +:+ "'"
            | ReError pattern => pattern
            | _ => EmptyString
            end)
      [repo_MyApp; repo_api_service] [project_myapp; project_nameless] []
    = (inr analyses, tr) ∧
    status <$> analyses = [FAILED; UNKNOWN] ∧
    Forall (explained
              (λ e, match e with
                    | KeyError key => "'" +:+ key +:+ "'"
                    | ReError pattern => pattern
                    | _ => EmptyString
                    end)) analyses.
Proof.
  destruct (analyze_repos _ _ [repo_MyApp; repo_api_service]
              [project_myapp; project_nameless] [])
    as [[e|analyses] tr] eqn:E.
  - exfalso. vm_compute in E. discriminate E.
  - exists analyses, tr. split; [reflexivity|]. split.
    + pose proof E as E'. vm_compute in E'. injection E' as <- <-.
      reflexivity.
    + exact (proj2 (proj2 (proj2 (constructed_status _ _))) _ _ _ _ E).
Defined.

(** C5 fails as stated: the analysis of a repository without project has
    status [UNKNOWN] while the status rule gives [SUCCESS] on its issues,
    and the analysis standing for a raised exception has status [UNKNOWN]
    while the rule gives [PENDING] on its issues. *)
Lemma unknown_status_not_aggregated :
  (∃ analysis,
     analyze_repo (λ _ _, JStr EmptyString) repo_api_service [project_other]
     = (inr analysis, []) ∧
     status analysis = UNKNOWN ∧
     determine_status (issues analysis) = SUCCESS ∧
     status analysis ≠ determine_status (issues analysis)) ∧
  (∃ analysis tr,
     analyze_repos (λ _ _, JStr EmptyString) (λ _, EmptyString)
       [repo_api_service] [project_nameless] []
     = (inr [analysis], tr) ∧
     status analysis = UNKNOWN ∧
     determine_status (issues analysis) = PENDING ∧
     status analysis ≠ determine_status (issues analysis)).
Proof.
  split.
  - exists (no_project_analysis "api-service").
    split; [vm_compute; reflexivity|].
    repeat split; [discriminate].
  - exists (analysis_error (λ _, EmptyString) "api-service"
              (KeyError "name")), [].
    split; [vm_compute; reflexivity|].
    repeat split; [discriminate].
Qed.

(** * More on [analyze_logs] *)

Lemma failure_patterns_severities :
  forallb (λ kc, String.eqb (Config.severity kc.2) "critical"
                 || String.eqb (Config.severity kc.2) "warning")
    failure_patterns = true.
Proof. vm_compute. reflexivity. Qed.

(** Where a detected issue comes from. *)
Lemma detected_elem issue logs logs_lower :
  issue ∈ detected failure_patterns logs logs_lower →
  ∃ k c, (k, c) ∈ failure_patterns ∧
         category_matches c logs_lower = true ∧
         issue = pattern_issue k c (extracted logs).
Proof.
  unfold detected.
  intros ([k c] & -> & [Hm Hin]%list_elem_of_filter)%list_elem_of_fmap.
  by exists k, c.
Qed.

Lemma detected_intro k c logs logs_lower :
  (k, c) ∈ failure_patterns →
  category_matches c logs_lower = true →
  pattern_issue k c (extracted logs)
  ∈ detected failure_patterns logs logs_lower.
Proof.
  intros Hin Hm. unfold detected.
  apply list_elem_of_fmap. exists (k, c). split; [reflexivity|].
  apply list_elem_of_filter. split; [exact Hm|exact Hin].
Qed.

Lemma category_severity k c :
  (k, c) ∈ failure_patterns →
  Config.severity c = "critical" ∨ Config.severity c = "warning".
Proof.
  intros Hin. pose proof failure_patterns_severities as Hs.
  rewrite forallb_forall in Hs. apply list_elem_of_In, Hs in Hin.
  cbn [snd] in Hin. apply orb_true_iff in Hin as [H|H];
    apply String.eqb_eq in H; auto.
Qed.

(** The three shapes of the issues of a text. *)
Lemma issues_of_cases (logs : string) :
  (Str.all_space logs = true ∧ issues_of logs = [no_logs_issue]) ∨
  (Str.all_space logs = false ∧
   detected failure_patterns logs (Str.lower logs) = [] ∧
   has_success (Str.lower logs) = false ∧
   issues_of logs = [unknown_failure_issue]) ∨
  (Str.all_space logs = false ∧
   (detected failure_patterns logs (Str.lower logs) ≠ [] ∨
    has_success (Str.lower logs) = true) ∧
   issues_of logs = detected failure_patterns logs (Str.lower logs)).
Proof.
  unfold issues_of. destruct (Str.all_space logs) eqn:Hb; [by left|].
  right. unfold classify. cbv zeta.
  destruct (detected failure_patterns logs (Str.lower logs)) as [|i l] eqn:Hd.
  - destruct (has_success (Str.lower logs)) eqn:Hs; cbn [negb andb is_nil].
    + right. split; [done|]. split; [by right|done].
    + left. by repeat split.
  - right. cbn [is_nil]. rewrite andb_false_r.
    split; [done|]. split; [by left|done].
Qed.

Lemma issues_of_severities (logs : string) :
  Forall (λ i, severity i = "critical" ∨ severity i = "warning")
    (issues_of logs).
Proof.
  destruct (issues_of_cases logs)
    as [[_ ->]|[(_ & _ & _ & ->)|(_ & _ & ->)]].
  - apply Forall_singleton. right. reflexivity.
  - apply Forall_singleton. right. reflexivity.
  - apply Forall_forall. intros i (k & c & Hin & _ & ->)%detected_elem.
    cbn [pattern_issue severity]. by apply (category_severity k).
Qed.

Lemma status_success_nil (issues : list DeploymentIssue) :
  Forall (λ i, severity i = "critical" ∨ severity i = "warning") issues →
  determine_status issues = SUCCESS ↔ issues = [].
Proof.
  intros Hsev. split; [|by intros ->].
  destruct issues as [|i l]; [done|]. unfold determine_status.
  apply Forall_cons in Hsev as [Hi _]. cbn [is_nil orb forallb].
  assert (String.eqb (severity i) "info" = false) as ->.
  { apply String.eqb_neq. by destruct Hi as [-> | ->]. }
  cbn [andb]. by case_match.
Qed.

Lemma status_failed_critical (issues : list DeploymentIssue) :
  Forall (λ i, severity i = "critical" ∨ severity i = "warning") issues →
  determine_status issues = FAILED ↔
  Exists (λ i, severity i = "critical") issues.
Proof.
  intros Hsev. rewrite <- any_critical_existsb. unfold determine_status.
  destruct issues as [|i l]; [done|].
  apply Forall_cons in Hsev as [Hi _]. cbn [is_nil orb forallb].
  assert (String.eqb (severity i) "info" = false) as ->.
  { apply String.eqb_neq. by destruct Hi as [-> | ->]. }
  cbn [andb]. by case_match.
Qed.

(** X1.  Every issue [analyze_logs] returns has severity [critical] or
    [warning], never [info]; so the status rule gives [SUCCESS] on its
    result exactly when it returns no issue at all. *)
Theorem analyze_logs_severities (logs repo_name : string) :
  ∃ issues tr,
    analyze_logs logs repo_name = (inr issues, tr) ∧
    Forall (λ i, severity i = "critical" ∨ severity i = "warning") issues ∧
    (determine_status issues = SUCCESS ↔ issues = []).
Proof.
  exists (issues_of logs), (trace_of logs).
  split; [apply analyze_logs_eq|].
  split; [apply issues_of_severities|].
  apply status_success_nil, issues_of_severities.
Qed.

(** X2.  [analyze_logs] returns the empty list exactly when the text is
    not blank, no category of the catalog has a matching pattern, and one
    of the five success phrases occurs in the lowercased text. *)
Theorem analyze_logs_empty_iff (logs repo_name : string) :
  ∃ issues tr,
    analyze_logs logs repo_name = (inr issues, tr) ∧
    (issues = [] ↔
     Str.all_space logs = false ∧
     (∀ k c, (k, c) ∈ failure_patterns →
             category_matches c (Str.lower logs) = false) ∧
     Exists (λ phrase, Str.contains phrase (Str.lower logs) = true)
       success_indicators).
Proof.
  exists (issues_of logs), (trace_of logs).
  split; [apply analyze_logs_eq|].
  assert (Hs : has_success (Str.lower logs) = true ↔
               Exists (λ phrase, Str.contains phrase (Str.lower logs) = true)
                 success_indicators).
  { unfold has_success. rewrite existsb_exists, Exists_exists.
    by setoid_rewrite list_elem_of_In. }
  rewrite <- Hs, <- detected_nil.
  destruct (issues_of_cases logs)
    as [[Hb ->]|[(Hb & Hd & Hn & ->)|(Hb & Hor & ->)]].
  - split; [intros Hx; discriminate Hx|].
    intros [Hb' _]. rewrite Hb in Hb'. discriminate Hb'.
  - split; [intros Hx; discriminate Hx|].
    intros (_ & _ & Hs'). rewrite Hn in Hs'. discriminate Hs'.
  - split.
    + intros Hd. destruct Hor as [Hne|Hs'].
      * exfalso. exact (Hne Hd).
      * split; [exact Hb|]. split; [exact Hd|exact Hs'].
    + intros (_ & Hd & _). exact Hd.
Qed.

(** X3.  The status rule gives [FAILED] on the issues of [analyze_logs]
    exactly when a category of severity [critical] has a pattern that
    matches the lowercased text. *)
Theorem analyze_logs_failed_iff (logs repo_name : string) :
  ∃ issues tr,
    analyze_logs logs repo_name = (inr issues, tr) ∧
    (determine_status issues = FAILED ↔
     ∃ k c, (k, c) ∈ failure_patterns ∧
            Config.severity c = "critical" ∧
            category_matches c (Str.lower logs) = true).
Proof.
  exists (issues_of logs), (trace_of logs).
  split; [apply analyze_logs_eq|].
  rewrite (status_failed_critical _ (issues_of_severities logs)).
  rewrite Exists_exists. split.
  - intros (i & Hi & Hc).
    destruct (issues_of_cases logs)
      as [[_ Heq]|[(_ & _ & _ & Heq)|(_ & _ & Heq)]]; rewrite Heq in Hi.
    + apply list_elem_of_singleton in Hi as ->. discriminate Hc.
    + apply list_elem_of_singleton in Hi as ->. discriminate Hc.
    + apply detected_elem in Hi as (k & c & Hin & Hm & ->).
      exists k, c. split; [exact Hin|]. split; [exact Hc|exact Hm].
  - intros (k & c & Hin & Hc & Hm).
    exists (pattern_issue k c (extracted logs)). split; [|exact Hc].
    pose proof (detected_intro k c logs _ Hin Hm) as Hd.
    destruct (issues_of_cases logs)
      as [[Hb _]|[(_ & Hnil & _)|(_ & _ & ->)]]; [| |exact Hd].
    + rewrite (blank_no_category _ _ _ Hb Hin) in Hm. discriminate Hm.
    + rewrite Hnil in Hd. apply elem_of_nil in Hd. destruct Hd.
Qed.

(** * Letter case and file names in [analyze_logs] *)

Lemma severities_ext (p : string → bool)
    (issues1 issues2 : list DeploymentIssue) :
  severity <$> issues1 = severity <$> issues2 →
  forallb (λ i, p (severity i)) issues1
  = forallb (λ i, p (severity i)) issues2 ∧
  existsb (λ i, p (severity i)) issues1
  = existsb (λ i, p (severity i)) issues2.
Proof.
  revert issues2. induction issues1 as [|i l IH]; intros [|i' l'] Hsev;
    try discriminate Hsev; [done|].
  rewrite !fmap_cons in Hsev. injection Hsev as Hi Hl.
  cbn [forallb existsb]. destruct (IH _ Hl) as [-> ->]. by rewrite Hi.
Qed.

Lemma determine_status_severities (issues1 issues2 : list DeploymentIssue) :
  severity <$> issues1 = severity <$> issues2 →
  determine_status issues1 = determine_status issues2.
Proof.
  intros Hsev. unfold determine_status.
  assert (is_nil issues1 = is_nil issues2) as ->.
  { by destruct issues1, issues2. }
  destruct (severities_ext (λ s, String.eqb s "info") _ _ Hsev) as [-> _].
  by destruct (severities_ext (λ s, String.eqb s "critical") _ _ Hsev)
    as [_ ->].
Qed.

Lemma fmap_eq_Forall2 {A B : Type} (f : A → B) (l1 l2 : list A) :
  f <$> l1 = f <$> l2 → Forall2 (λ a b, f a = f b) l1 l2.
Proof.
  revert l2; induction l1 as [|a l1 IH]; intros [|b l2] Heq;
    try discriminate Heq; [constructor|].
  rewrite !fmap_cons in Heq. injection Heq as Hab Hl.
  constructor; [exact Hab|by apply IH].
Qed.

Lemma issues_of_lower (logs1 logs2 : string) :
  Str.lower logs1 = Str.lower logs2 →
  trace_of logs1 = trace_of logs2 ∧
  (λ i, (type i, severity i, description i, remediation i))
    <$> issues_of logs1
  = (λ i, (type i, severity i, description i, remediation i))
    <$> issues_of logs2.
Proof.
  intros Hl. unfold trace_of, issues_of.
  assert (Str.all_space logs1 = Str.all_space logs2) as ->.
  { by rewrite <- (all_space_lower logs1), Hl, all_space_lower. }
  destruct (Str.all_space logs2); [done|].
  unfold classify_trace, classify. cbv zeta. rewrite Hl. split; [done|].
  unfold detected.
  destruct (filter (λ kc, category_matches kc.2 (Str.lower logs2) = true)
              failure_patterns) as [|kc l].
  - by destruct (negb _ && _).
  - rewrite !fmap_cons. cbn [is_nil]. rewrite !andb_false_r, !fmap_cons.
    f_equal. rewrite <- !list_fmap_compose. apply list_fmap_ext.
    intros; reflexivity.
Qed.

(** X4.  Two texts that are equal after lowercasing are analysed alike:
    the same tests in the same order, and issues that agree in type,
    severity, description and remediation (the file names may differ),
    hence the same status. *)
Theorem analyze_logs_case_blind (logs1 logs2 repo_name1 repo_name2 : string) :
  Str.lower logs1 = Str.lower logs2 →
  ∃ issues1 issues2 tr,
    analyze_logs logs1 repo_name1 = (inr issues1, tr) ∧
    analyze_logs logs2 repo_name2 = (inr issues2, tr) ∧
    Forall2 (λ i1 i2, type i1 = type i2 ∧ severity i1 = severity i2 ∧
                      description i1 = description i2 ∧
                      remediation i1 = remediation i2) issues1 issues2 ∧
    determine_status issues1 = determine_status issues2.
Proof.
  intros Hl. destruct (issues_of_lower _ _ Hl) as [Htr Hissues].
  exists (issues_of logs1), (issues_of logs2), (trace_of logs1).
  split; [apply analyze_logs_eq|].
  split; [rewrite Htr; apply analyze_logs_eq|].
  split.
  - eapply Forall2_impl; [exact (fmap_eq_Forall2 _ _ _ Hissues)|].
    cbv beta. intros i1 i2 Heq. by injection Heq.
  - apply determine_status_severities.
    apply (f_equal (fmap (λ t : string * string * string * string, t.1.1.2)))
      in Hissues.
    by rewrite <- !list_fmap_compose in Hissues.
Qed.

(** X5.  All issues of one run that stand for a category carry the same
    list of file names, the names found in the whole text, whichever
    pattern matched; the issues [no_logs] and [unknown_failure] carry
    none. *)
Theorem analyze_logs_shared_files (logs repo_name : string) :
  ∃ issues tr,
    analyze_logs logs repo_name = (inr issues, tr) ∧
    Forall (λ i,
      (type i ∈ failure_patterns.*1 ∧
       affected_files i = Some (extracted logs)) ∨
      (type i ∈ ["no_logs"; "unknown_failure"] ∧ affected_files i = None))
      issues.
Proof.
  exists (issues_of logs), (trace_of logs).
  split; [apply analyze_logs_eq|].
  destruct (issues_of_cases logs)
    as [[_ ->]|[(_ & _ & _ & ->)|(_ & _ & ->)]].
  - apply Forall_singleton. right. split; [left|reflexivity].
  - apply Forall_singleton. right. split; [right; left|reflexivity].
  - apply Forall_forall. intros i (k & c & Hin & _ & ->)%detected_elem.
    left. split; [|reflexivity]. cbn [pattern_issue type].
    apply list_elem_of_fmap. by exists (k, c).
Qed.

(** * What the file patterns capture *)

Lemma consumed_app (w s1 : list ascii) : Re.consumed (w ++ s1) s1 = w.
Proof.
  unfold Re.consumed. rewrite length_app.
  replace (length w + length s1 - length s1) with (length w) by lia.
  by rewrite take_app_length.
Qed.

Section Sound.
Context {R : Type}.
Variable ic : bool.

Lemma star_takes r1 :
  (∀ s cs (k : list ascii → Re.captures → option R) x,
     Re.run ic r1 s cs k = Some x →
     ∃ w s1 cs1, s = w ++ s1 ∧ takes ic r1 w cs cs1 ∧ k s1 cs1 = Some x) →
  ∀ fuel s cs (k : list ascii → Re.captures → option R) x,
    Re.star (Re.run ic r1) k fuel s cs = Some x →
    ∃ w s1 cs1,
      s = w ++ s1 ∧ takes ic (Re.RStar r1) w cs cs1 ∧ k s1 cs1 = Some x.
Proof.
  intros IH. induction fuel as [|fuel IHf]; intros s cs k x;
    cbn [Re.star]; intros Hrun.
  { exists [], s, cs. split; [done|].
    split; [apply takes_star_nil|exact Hrun]. }
  destruct (Re.run ic r1 s cs _) as [y|] eqn:Hstep.
  - injection Hrun as ->.
    apply IH in Hstep as (w1 & s1 & cs1 & -> & Hw1 & Hk).
    destruct (length s1 <? length (w1 ++ s1)); [|discriminate Hk].
    apply IHf in Hk as (w2 & s2 & cs2 & -> & Hw2 & Hk).
    exists (w1 ++ w2), s2, cs2. split; [by rewrite app_assoc|].
    split; [by econstructor|exact Hk].
  - exists [], s, cs. split; [done|].
    split; [apply takes_star_nil|exact Hrun].
Qed.

Lemma run_takes r :
  ∀ s cs (k : list ascii → Re.captures → option R) x,
    Re.run ic r s cs k = Some x →
    ∃ w s1 cs1, s = w ++ s1 ∧ takes ic r w cs cs1 ∧ k s1 cs1 = Some x.
Proof.
  assert (Hone : ∀ r0 s cs (k : list ascii → Re.captures → option R) x,
            match s with
            | c :: s1 => if Re.accepts ic r0 c then k s1 cs else None
            | [] => None
            end = Some x →
            ∃ w s1 cs1, s = w ++ s1 ∧ takes ic r0 w cs cs1 ∧
                        k s1 cs1 = Some x).
  { intros r0 [|c s1] cs k x Hrun; [discriminate Hrun|].
    destruct (Re.accepts ic r0 c) eqn:Hacc; [|discriminate Hrun].
    exists [c], s1, cs. split; [done|]. split; [by constructor|exact Hrun]. }
  induction r as [|p| |negated items|r1 IH1 r2 IH2|r1 IH1 r2 IH2
                 |r1 IH1|r1 IH1|r1 IH1|n r1 IH1];
    intros s cs k x; cbn [Re.run]; intros Hrun.
  - exists [], s, cs. split; [done|]. split; [apply takes_eps|exact Hrun].
  - by apply Hone.
  - by apply Hone.
  - by apply Hone.
  - apply IH1 in Hrun as (w1 & s1 & cs1 & -> & Hw1 & Hrun).
    apply IH2 in Hrun as (w2 & s2 & cs2 & -> & Hw2 & Hk).
    exists (w1 ++ w2), s2, cs2. split; [by rewrite app_assoc|].
    split; [by econstructor|exact Hk].
  - destruct (Re.run ic r1 s cs k) as [y|] eqn:Hl.
    + injection Hrun as ->.
      apply IH1 in Hl as (w & s1 & cs1 & -> & Hw & Hk).
      exists w, s1, cs1. split; [done|]. split; [by apply takes_alt_l|done].
    + apply IH2 in Hrun as (w & s1 & cs1 & -> & Hw & Hk).
      exists w, s1, cs1. split; [done|]. split; [by apply takes_alt_r|done].
  - by apply (star_takes r1 IH1) in Hrun.
  - apply IH1 in Hrun as (w1 & s1 & cs1 & -> & Hw1 & Hrun).
    apply (star_takes r1 IH1) in Hrun as (w2 & s2 & cs2 & -> & Hw2 & Hk).
    exists (w1 ++ w2), s2, cs2. split; [by rewrite app_assoc|].
    split; [by econstructor|exact Hk].
  - destruct (Re.run ic r1 s cs k) as [y|] eqn:Hl.
    + injection Hrun as ->.
      apply IH1 in Hl as (w & s1 & cs1 & -> & Hw & Hk).
      exists w, s1, cs1. split; [done|].
      split; [by apply takes_opt_some|done].
    + exists [], s, cs. split; [done|].
      split; [apply takes_opt_none|exact Hrun].
  - apply IH1 in Hrun as (w & s1 & cs1 & -> & Hw & Hk).
    rewrite consumed_app in Hk.
    exists w, s1, ((n, w) :: cs1). split; [done|].
    split; [by constructor|exact Hk].
Qed.

End Sound.

Lemma match_at_takes ic r s whole cs rest :
  Re.match_at ic r s = Some (whole, cs, rest) →
  s = whole ++ rest ∧ takes ic r whole [] cs.
Proof.
  unfold Re.match_at. intros Hrun.
  apply run_takes in Hrun as (w & s1 & cs1 & -> & Hw & Hk).
  rewrite consumed_app in Hk. by injection Hk as <- <- <-.
Qed.

Lemma isdigit_ink (c : ascii) : Str.isdigit c = true → is_ink c = true.
Proof. destruct c as [[] [] [] [] [] [] [] []]; vm_compute; congruence. Qed.

Lemma accepts_ink ic r c :
  ink_only r = true → Re.accepts ic r c = true → is_ink c = true.
Proof.
  assert (Hfold : ∀ p, Ascii.eqb (Re.fold_case ic c) (Re.fold_case ic p)
                       = true → is_ink p = true → is_ink c = true).
  { intros p Heq%Ascii.eqb_eq. unfold is_ink, Re.fold_case in *.
    destruct ic; [|by rewrite Heq].
    by rewrite <- (isspace_lower_char c), Heq, isspace_lower_char. }
  destruct r as [|p| |negated items| | | | | |];
    cbn [ink_only Re.accepts]; intros Hink Hacc;
    try discriminate Hacc; try discriminate Hink.
  - exact (Hfold p Hacc Hink).
  - revert Hink Hacc. destruct negated; cbn [xorb].
    + intros Hsp Hacc. apply negb_true_iff in Hacc.
      unfold is_ink. apply negb_true_iff.
      destruct (Str.isspace c) eqn:Hc; [|done].
      rewrite <- Hacc. symmetry. apply existsb_exists.
      apply existsb_exists in Hsp as (i & Hin & Hi).
      exists i. split; [exact Hin|]. by destruct i.
    + intros Hall Hacc. rewrite forallb_forall in Hall.
      apply existsb_exists in Hacc as (i & Hin & Hi).
      specialize (Hall i Hin). destruct i as [p| |]; cbn in Hi, Hall.
      * exact (Hfold p Hi Hall).
      * discriminate Hall.
      * by apply isdigit_ink.
Qed.

Lemma takes_ink ic r w cs cs1 :
  takes ic r w cs cs1 → ink_only r = true →
  Forall (λ c, is_ink c = true) w.
Proof.
  induction 1 as [cs|r c cs Hacc|r1 r2 w1 w2 cs cs1 cs2 _ IH1 _ IH2
                 |r1 r2 w cs cs1 _ IH|r1 r2 w cs cs1 _ IH|r cs
                 |r w1 w2 cs cs1 cs2 _ IH1 _ IH2
                 |r w1 w2 cs cs1 cs2 _ IH1 _ IH2
                 |r w cs cs1 _ IH|r cs|n r w cs cs1 _ IH];
    cbn [ink_only]; intros Hink.
  - constructor.
  - apply Forall_singleton. by apply (accepts_ink ic r).
  - apply andb_true_iff in Hink as [H1 H2]. apply Forall_app. auto.
  - apply andb_true_iff in Hink as [H1 H2]. auto.
  - apply andb_true_iff in Hink as [H1 H2]. auto.
  - constructor.
  - apply Forall_app. auto.
  - apply Forall_app. auto.
  - auto.
  - constructor.
  - auto.
Qed.

Lemma takes_consuming ic r w cs cs1 :
  takes ic r w cs cs1 → consuming r = true → w ≠ [].
Proof.
  induction 1 as [cs|r c cs Hacc|r1 r2 w1 w2 cs cs1 cs2 _ IH1 _ IH2
                 |r1 r2 w cs cs1 _ IH|r1 r2 w cs cs1 _ IH|r cs
                 |r w1 w2 cs cs1 cs2 _ IH1 _ IH2
                 |r w1 w2 cs cs1 cs2 _ IH1 _ IH2
                 |r w cs cs1 _ IH|r cs|n r w cs cs1 _ IH];
    cbn [consuming]; intros Hc; try discriminate Hc.
  - discriminate.
  - apply orb_true_iff in Hc as [Hc|Hc].
    + specialize (IH1 Hc). by destruct w1.
    + specialize (IH2 Hc). destruct w1, w2; done.
  - apply andb_true_iff in Hc as [H1 H2]. auto.
  - apply andb_true_iff in Hc as [H1 H2]. auto.
  - specialize (IH1 Hc). by destruct w1.
  - auto.
Qed.

Lemma takes_tokens ic r w cs cs1 :
  takes ic r w cs cs1 → group1_tokens r = true →
  tokens_in cs → tokens_in cs1.
Proof.
  induction 1 as [cs|r c cs Hacc|r1 r2 w1 w2 cs cs1 cs2 _ IH1 _ IH2
                 |r1 r2 w cs cs1 _ IH|r1 r2 w cs cs1 _ IH|r cs
                 |r w1 w2 cs cs1 cs2 _ IH1 _ IH2
                 |r w1 w2 cs cs1 cs2 _ IH1 _ IH2
                 |r w cs cs1 Hw IH|r cs|n r w cs cs1 Hw IH];
    cbn [group1_tokens]; intros Hg Hcs; auto.
  - apply andb_true_iff in Hg as [H1 H2]. auto.
  - apply andb_true_iff in Hg as [H1 H2]. auto.
  - apply andb_true_iff in Hg as [H1 H2]. auto.
  - apply andb_true_iff in Hg as [H1 H2].
    constructor; [|by apply IH]. cbn [fst snd]. intros ->.
    cbn [Nat.eqb] in H2. apply andb_true_iff in H2 as [Hi Hc].
    split; [by eapply takes_consuming|by eapply takes_ink].
Qed.

Lemma takes_keeps ic r w cs cs1 n :
  takes ic r w cs cs1 → n ∈ cs.*1 → n ∈ cs1.*1.
Proof.
  induction 1; intros Hin; auto.
  rewrite fmap_cons. right. auto.
Qed.

Lemma takes_sets ic r w cs cs1 :
  takes ic r w cs cs1 → group1_set r = true → 1 ∈ cs1.*1.
Proof.
  induction 1 as [cs|r c cs Hacc|r1 r2 w1 w2 cs cs1 cs2 H1 IH1 H2 IH2
                 |r1 r2 w cs cs1 _ IH|r1 r2 w cs cs1 _ IH|r cs
                 |r w1 w2 cs cs1 cs2 _ IH1 _ IH2
                 |r w1 w2 cs cs1 cs2 H1 IH1 H2 IH2
                 |r w cs cs1 Hw IH|r cs|n r w cs cs1 Hw IH];
    cbn [group1_set]; intros Hg; try discriminate Hg.
  - destruct r; try discriminate Hg; cbn [Re.accepts] in Hacc;
      discriminate Hacc.
  - apply orb_true_iff in Hg as [Hg|Hg]; [|auto].
    eapply takes_keeps; [exact H2|auto].
  - apply andb_true_iff in Hg as [? ?]. auto.
  - apply andb_true_iff in Hg as [? ?]. auto.
  - eapply takes_keeps; [exact H2|auto].
  - rewrite fmap_cons. cbn [fst]. apply orb_true_iff in Hg as [Hg|Hg].
    + apply Nat.eqb_eq in Hg as ->. left.
    + right. auto.
Qed.

Lemma group_token (cs : Re.captures) :
  tokens_in cs → 1 ∈ cs.*1 → is_token (Re.group cs 1) = true.
Proof.
  induction 1 as [|[n w] cs Hnw Hcs IH]; intros Hin.
  { by apply elem_of_nil in Hin. }
  cbn [Re.group]. destruct (Nat.eqb_spec n 1) as [->|Hne].
  - destruct (Hnw eq_refl) as [Hw Hink]. cbn [snd] in Hw, Hink.
    unfold is_token. rewrite list_ascii_of_string_of_list_ascii.
    apply andb_true_iff. split.
    + by destruct w.
    + apply forallb_forall. rewrite Forall_forall in Hink.
      intros c Hc. apply Hink. by apply list_elem_of_In.
  - apply IH. rewrite fmap_cons in Hin.
    apply elem_of_cons in Hin as [Heq|Hin]; [|done]. by cbn in Heq.
Qed.

Lemma findall_from_tokens ic r n fuel s :
  1 ≤ n → group1_tokens r = true → group1_set r = true →
  Forall (λ m, is_token (match_file m) = true)
    (Re.findall_from ic r n fuel s).
Proof.
  intros Hn Hg Hs. revert s; induction fuel as [|fuel IH]; intros s;
    cbn [Re.findall_from]; [constructor|].
  destruct (Re.match_at ic r s) as [[[whole cs] rest]|] eqn:Hm.
  - apply match_at_takes in Hm as [_ Hw]. constructor.
    + assert (is_token (Re.group cs 1) = true) as Htok.
      { apply group_token.
        - eapply takes_tokens; [exact Hw|exact Hg|constructor].
        - eapply takes_sets; [exact Hw|exact Hs]. }
      destruct n as [|[|n]]; [lia|exact Htok|exact Htok].
    + destruct whole, s; auto.
  - destruct s; auto.
Qed.

Lemma file_patterns_tokens : forallb names_tokens file_patterns = true.
Proof. vm_compute. reflexivity. Qed.

Lemma found_files_tokens (fp logs : string) :
  names_tokens fp = true →
  Forall (λ f, is_token f = true) (found_files fp logs).
Proof.
  unfold names_tokens, found_files, Re.findall.
  destruct (Re.compile fp) as [[r n]|]; [|discriminate].
  intros [[Hn Hg]%andb_true_iff Hs]%andb_true_iff.
  cbn [mbind option_bind]. apply Forall_fmap.
  apply Nat.leb_le in Hn. by apply findall_from_tokens.
Qed.

Lemma flat_found_tokens (fps : list string) (logs : string) :
  forallb names_tokens fps = true →
  Forall (λ f, is_token f = true) (flat_map (λ fp, found_files fp logs) fps).
Proof.
  induction fps as [|fp fps IH]; cbn [forallb flat_map]; [constructor|].
  intros [Hfp Hfps]%andb_true_iff. apply Forall_app.
  split; [by apply found_files_tokens|by apply IH].
Qed.

Lemma list_set_Forall (P : string → Prop) (files : list string) :
  Forall P files → Forall P (list_set files).
Proof.
  rewrite !Forall_forall. intros Hall f Hf. apply Hall.
  unfold list_set in Hf. by apply elem_of_elements, elem_of_list_to_set in Hf.
Qed.

Lemma extracted_tokens (logs : string) :
  Forall (λ f, is_token f = true) (extracted logs).
Proof.
  unfold extracted. apply list_set_Forall.
  apply flat_found_tokens. exact file_patterns_tokens.
Qed.

(** X6.  [_extract_affected_files] returns, for every text, a list of
    names that are not empty and hold no whitespace character. *)
Theorem extract_affected_files_tokens (logs pattern : string) :
  ∃ files,
    _extract_affected_files logs pattern = (inr files, []) ∧
    Forall (λ f, is_token f = true) files.
Proof.
  exists (extracted logs).
  split; [apply extract_affected_files_run|apply extracted_tokens].
Qed.

(** * More on the loop of [run_analysis] *)

Lemma find_project_nameless pre project post repo_name :
  Forall (named_apart repo_name) pre →
  project !! "name" = None →
  find_project (pre ++ project :: post) repo_name
  = (inl (KeyError "name"), []).
Proof.
  intros Hpre Hname.
  induction Hpre as [|q pre (qn & Hq & Hne) _ IH]; cbn [app find_project].
  - rewrite (getitem_none _ _ Hname). reflexivity.
  - rewrite (getitem_some _ _ _ Hq).
    change (inr qn, []) with (mret (M:=M) qn). rewrite bind_pure.
    apply String.eqb_neq in Hne as ->. exact IH.
Qed.

Lemma length_append (s1 s2 : string) :
  String.length (s1 +:+ s2) = String.length s1 + String.length s2.
Proof.
  induction s1 as [|c s1 IH]; [reflexivity|].
  change (String c s1 +:+ s2) with (String c (s1 +:+ s2)).
  cbn [String.length]. by rewrite IH.
Qed.

Lemma preview_length (logs : string) :
  String.length (preview logs) ≤ 503.
Proof.
  destruct (Nat.le_gt_cases (String.length logs) 500) as [Hl|Hl].
  - rewrite (preview_short _ Hl). lia.
  - rewrite (preview_long _ Hl), length_append, take_length; [|lia].
    cbn [String.length]. lia.
Qed.

Section LoopFacts.
Variable get_railway_deployment_logs : string → option string → json.
Variable str_exn : exn → string.

(** The analysis the loop appends for a repository of name [n]. *)
Lemma loop_step repo projects n :
  repo !! "name" = Some n →
  ∃ a tr,
    try_except (analyze_repo get_railway_deployment_logs repo projects)
      (λ e, _ ← getitem repo "name";
            repo_name ← getitem repo "name";
            mret (analysis_error str_exn repo_name e))
    = (inr a, tr) ∧
    ((∃ project project_name,
        matched_outcome get_railway_deployment_logs n project project_name
        = inr a) ∨
     a = no_project_analysis n ∨
     ∃ e, a = analysis_error str_exn n e).
Proof.
  intros Hn.
  assert (Hhandler : ∀ e tr,
    try_except (inl e, tr)
      (λ e, _ ← getitem repo "name";
            repo_name ← getitem repo "name";
            mret (analysis_error str_exn repo_name e))
    = (inr (analysis_error str_exn n e), tr ++ [])).
  { intros e tr. cbn [try_except]. rewrite (getitem_some _ _ _ Hn).
    change (inr n, []) with (mret (M:=M) n). by rewrite !bind_pure. }
  destruct (find_project_cases projects n)
    as [(pre & p & post & pn & -> & Hpre & Hp & Heq & Hfind)
       |[[Hall Hfind]|Hfind]].
  - rewrite (analyze_repo_matched _ _ _ _ _ _ Hn Hfind Hp).
    destruct (matched_outcome _ n p pn) as [e|a] eqn:Hout.
    + rewrite Hhandler. eexists _, _. split; [reflexivity|].
      right. right. by exists e.
    + eexists _, _. split; [reflexivity|]. left. by exists p, pn.
  - rewrite (analyze_repo_unmatched _ _ _ _ Hn Hfind).
    eexists _, _. split; [reflexivity|]. right. by left.
  - rewrite (analyze_repo_raises _ _ _ _ Hn Hfind), Hhandler.
    eexists _, _. split; [reflexivity|]. right. right. by eexists.
Qed.

Lemma analyze_repos_shapes repos projects acc :
  Forall (λ repo, is_Some (repo !! "name")) repos →
  ∃ analyses tr,
    analyze_repos get_railway_deployment_logs str_exn repos projects acc
    = (inr (acc ++ analyses), tr) ∧
    Forall2 (λ repo a, ∃ n,
      repo !! "name" = Some n ∧
      ((∃ project project_name,
          matched_outcome get_railway_deployment_logs n project
            project_name
          = inr a) ∨
       a = no_project_analysis n ∨
       ∃ e, a = analysis_error str_exn n e)) repos analyses.
Proof.
  intros Hnamed. revert acc.
  induction Hnamed as [|repo repos [n Hn] _ IH]; intros acc;
    cbn [analyze_repos].
  { exists [], []. rewrite app_nil_r. split; [reflexivity|constructor]. }
  destruct (loop_step repo projects n Hn) as (a & tr1 & Hstep & Hshape).
  rewrite (bind_run _ _ _ _ Hstep).
  destruct (IH (acc ++ [a])) as (analyses & tr2 & Hrest & Hall).
  rewrite Hrest. cbn [fst snd]. rewrite <- app_assoc.
  exists (a :: analyses), (tr1 ++ tr2). split; [reflexivity|].
  constructor; [|exact Hall]. by exists n.
Qed.

Lemma analyze_repos_unnamed pre repo post projects acc :
  Forall (λ repo, is_Some (repo !! "name")) pre →
  repo !! "name" = None →
  ∃ tr,
    analyze_repos get_railway_deployment_logs str_exn
      (pre ++ repo :: post) projects acc
    = (inl (KeyError "name"), tr).
Proof.
  intros Hpre Hn. revert acc.
  induction Hpre as [|r pre [n Hr] _ IH]; intros acc;
    cbn [app analyze_repos].
  - rewrite (analyze_repo_unnamed _ _ _ Hn). cbn [try_except].
    rewrite (getitem_none _ _ Hn). by eexists.
  - destruct (loop_step r projects n Hr) as (a & tr1 & Hstep & _).
    rewrite (bind_run _ _ _ _ Hstep).
    destruct (IH (acc ++ [a])) as [tr2 Hrest].
    rewrite Hrest. cbn [fst snd]. by eexists.
Qed.

(** X7.  When every repository record has a name, the loop of
    [run_analysis] completes with one analysis per repository, in order,
    each under its repository's name; also when projects lack a name or
    no project matches. *)
Theorem analyze_repos_completes repos projects :
  Forall (λ repo, is_Some (repo !! "name")) repos →
  ∃ analyses tr,
    analyze_repos get_railway_deployment_logs str_exn repos projects []
    = (inr analyses, tr) ∧
    Forall2 (λ repo a, repo !! "name" = Some (repo_name a)) repos analyses.
Proof.
  intros Hnamed.
  destruct (analyze_repos_shapes repos projects [] Hnamed)
    as (analyses & tr & Hrun & Hall).
  exists analyses, tr. split; [exact Hrun|].
  eapply Forall2_impl; [exact Hall|]. cbv beta.
  intros repo a (n & Hn & [(p & pn & Hout)|[->|[e ->]]]); [|exact Hn..].
  apply matched_outcome_inr in Hout as [(logs & _ & ->)|(_ & ->)];
    exact Hn.
Qed.

(** X8.  A repository record without name ends the loop with the
    [KeyError] of the key [name]: the handler reads the name again and
    raises, so no list of analyses is returned, whatever the records
    before and after it. *)
Theorem analyze_repos_nameless_repo pre repo post projects :
  Forall (λ repo, is_Some (repo !! "name")) pre →
  repo !! "name" = None →
  ∃ tr,
    analyze_repos get_railway_deployment_logs str_exn
      (pre ++ repo :: post) projects []
    = (inl (KeyError "name"), tr).
Proof. apply analyze_repos_unnamed. Qed.

(** X9.  A project record without name that comes before any project of
    the repository's name turns the analysis into the one standing for
    the [KeyError], with an empty trace: no log is fetched, even when a
    project of that name follows. *)
Theorem nameless_project_hides_match repo repo_name pre project post :
  repo !! "name" = Some repo_name →
  Forall (named_apart repo_name) pre →
  project !! "name" = None →
  analyze_repos get_railway_deployment_logs str_exn
    [repo] (pre ++ project :: post) []
  = (inr [analysis_error str_exn repo_name (KeyError "name")], []).
Proof.
  intros Hn Hpre Hp. cbn [analyze_repos].
  rewrite (analyze_repo_raises _ _ _ _ Hn
             (find_project_nameless _ _ _ _ Hpre Hp)).
  cbn [try_except]. rewrite (getitem_some _ _ _ Hn).
  change (inr repo_name, []) with (mret (M:=M) repo_name).
  rewrite !bind_pure. reflexivity.
Qed.

(** X10.  Every analysis the loop collects has a [logs_preview] of at
    most 503 characters: its [len] is defined and at most 503. *)
Theorem analyses_previews_bounded repos projects :
  Forall (λ repo, is_Some (repo !! "name")) repos →
  ∃ analyses tr,
    analyze_repos get_railway_deployment_logs str_exn repos projects []
    = (inr analyses, tr) ∧
    Forall (λ a, ∃ n, Py.len (logs_preview a) = Some n ∧ n ≤ 503) analyses.
Proof.
  intros Hnamed.
  destruct (analyze_repos_shapes repos projects [] Hnamed)
    as (analyses & tr & Hrun & Hall).
  exists analyses, tr. split; [exact Hrun|].
  clear Hrun Hnamed. induction Hall as [|repo a repos analyses Ha _ IH];
    constructor; [|exact IH].
  destruct Ha as (n & _ & [(p & pn & Hout)|[->|[e ->]]]).
  - apply matched_outcome_inr in Hout
      as [(logs & _ & ->)|([Hl|Hl] & ->)]; cbn [logs_preview].
    + exists (String.length (preview logs)).
      split; [reflexivity|apply preview_length].
    + rewrite Hl. exists 0. split; [reflexivity|lia].
    + rewrite Hl. exists 0. split; [reflexivity|lia].
  - exists 24. split; [reflexivity|lia].
  - exists 0. split; [reflexivity|lia].
Qed.

(** X11.  For every analysis the loop collects, the status is [SUCCESS]
    exactly when the list of issues is empty. *)
Theorem analyses_success_iff_no_issue repos projects :
  Forall (λ repo, is_Some (repo !! "name")) repos →
  ∃ analyses tr,
    analyze_repos get_railway_deployment_logs str_exn repos projects []
    = (inr analyses, tr) ∧
    Forall (λ a, status a = SUCCESS ↔ issues a = []) analyses.
Proof.
  intros Hnamed.
  destruct (analyze_repos_shapes repos projects [] Hnamed)
    as (analyses & tr & Hrun & Hall).
  exists analyses, tr. split; [exact Hrun|].
  clear Hrun Hnamed. induction Hall as [|repo a repos analyses Ha _ IH];
    constructor; [|exact IH].
  destruct Ha as (n & _ & [(p & pn & Hout)|[->|[e ->]]]).
  - apply matched_outcome_inr in Hout as [(logs & _ & ->)|(_ & ->)].
    + cbn [matched_analysis status issues].
      apply status_success_nil, issues_of_severities.
    + split; intros H; discriminate H.
  - split; intros H; discriminate H.
  - split; intros H; discriminate H.
Qed.

End LoopFacts.

(** * Log answers that are not texts *)

Section OtherAnswers.
Variable get_railway_deployment_logs : string → option string → json.
Variable str_exn : exn → string.

(** The loop on one repository whose analysis raises. *)
Lemma analyze_repos_raised repo projects repo_name e tr :
  repo !! "name" = Some repo_name →
  analyze_repo get_railway_deployment_logs repo projects = (inl e, tr) →
  analyze_repos get_railway_deployment_logs str_exn [repo] projects []
  = (inr [analysis_error str_exn repo_name e], tr).
Proof.
  intros Hn Hrun. cbn [analyze_repos]. rewrite Hrun. cbn [try_except].
  rewrite (getitem_some _ _ _ Hn).
  change (inr repo_name, []) with (mret (M:=M) repo_name).
  rewrite !bind_pure. cbn [mret M_ret ret mbind M_bind bind app].
  by rewrite !app_nil_r.
Qed.

(** X24.  For a repository matched to a project whose log source
    answers with a value that is not a text: the empty list and the
    empty dict are analysed as missing logs (the issue [no_logs], status
    [PENDING]) and kept as the preview; on every other value
    [analyze_repo] raises, an [AttributeError] for a truthy value, which
    has no [strip], and a [TypeError] for a falsy one, which has no
    [len], and the loop records the analysis standing for the
    exception. *)
Theorem other_answer_outcome repo repo_name pre project post
    project_name answer :
  repo !! "name" = Some repo_name →
  Forall (named_apart repo_name) pre →
  project !! "name" = Some project_name →
  Str.lower project_name = Str.lower repo_name →
  get_railway_deployment_logs project_name (project !! "id") = answer →
  (∀ text, answer ≠ JStr text) →
  (answer = JArr [] ∨ answer = JObj ∅ →
   analyze_repo get_railway_deployment_logs repo (pre ++ project :: post)
   = (inr {| repo_name := repo_name;
             status := PENDING;
             issues := [no_logs_issue];
             last_deployment := project !! "updatedAt";
             logs_preview := answer |},
      [LogsFetched project_name (project !! "id");
       LogsAnalyzed answer repo_name])) ∧
  (answer ≠ JArr [] → answer ≠ JObj ∅ →
   ∃ e,
     e = (if Py.truthy answer then AttributeError "strip" answer
          else TypeError "len" answer) ∧
     analyze_repo get_railway_deployment_logs repo (pre ++ project :: post)
     = (inl e,
        [LogsFetched project_name (project !! "id");
         LogsAnalyzed answer repo_name]) ∧
     analyze_repos get_railway_deployment_logs str_exn [repo]
       (pre ++ project :: post) []
     = (inr [analysis_error str_exn repo_name e],
        [LogsFetched project_name (project !! "id");
         LogsAnalyzed answer repo_name])).
Proof.
  intros Hn Hpre Hp Heq Hlogs Htext.
  pose proof (analyze_repo_matched get_railway_deployment_logs _ _ _ _ _ Hn
                (find_project_first pre _ post _ _ Hpre Hp Heq) Hp) as Hrun.
  unfold matched_outcome, matched_trace in Hrun. cbv zeta in Hrun.
  rewrite Hlogs in Hrun. split.
  - intros [-> | ->]; rewrite Hrun; reflexivity.
  - intros Hne1 Hne2. eexists. split; [reflexivity|].
    assert (Hraise :
      analyze_repo get_railway_deployment_logs repo (pre ++ project :: post)
      = (inl (if Py.truthy answer then AttributeError "strip" answer
              else TypeError "len" answer),
         [LogsFetched project_name (project !! "id");
          LogsAnalyzed answer repo_name])).
    { rewrite Hrun.
      destruct answer as [|b|n|x|text|items|fields];
        cbn [issues_of_value trace_of_value preview_value Py.truthy fst
             raise].
      - reflexivity.
      - by destruct b.
      - by destruct (n =? 0)%Z.
      - by destruct x.
      - by destruct (Htext text).
      - destruct items as [|item items]; [done|reflexivity].
      - case_bool_decide as Hempty; [by subst fields|reflexivity]. }
    split; [exact Hraise|]. by apply analyze_repos_raised.
Qed.

End OtherAnswers.

Section RemoteLogs.
Variable railway_post : Dict → string → option json.

(** X25.  [_get_railway_logs_api] returns what the latest deployment
    stores as logs, of whatever type (the empty string when it stores
    nothing), when the answer is a dict whose [data] is a dict whose
    [project] is a dict whose [deployments] is a list that starts with a
    dict; in every other case, a failing request among them, it returns
    the empty string. *)
Theorem api_logs_stored_or_empty (headers : Dict) (project_id : string) :
  (∀ answer inner project latest others,
     railway_post headers project_id = Some (JObj answer) →
     answer !! "data" = Some (JObj inner) →
     inner !! "project" = Some (JObj project) →
     project !! "deployments" = Some (JArr (JObj latest :: others)) →
     _get_railway_logs_api railway_post headers project_id
     = default (JStr EmptyString) (latest !! "logs")) ∧
  (_get_railway_logs_api railway_post headers project_id = JStr EmptyString ∨
   ∃ answer inner project latest others,
     railway_post headers project_id = Some (JObj answer) ∧
     answer !! "data" = Some (JObj inner) ∧
     inner !! "project" = Some (JObj project) ∧
     project !! "deployments" = Some (JArr (JObj latest :: others))).
Proof.
  unfold _get_railway_logs_api. split.
  - intros answer inner project latest others -> Ha Hi Hp.
    cbn [mbind option_bind]. unfold latest_logs.
    cbn [mbind option_bind Py.contains Py.subscript]. rewrite !Ha.
    rewrite bool_decide_true by (by eexists).
    cbn [mbind option_bind Py.contains Py.subscript]. rewrite !Hi.
    rewrite bool_decide_true by (by eexists).
    cbn [mbind option_bind Py.subscript]. rewrite Hp.
    reflexivity.
  - destruct (railway_post headers project_id) as [data|]; [|by left].
    cbn [mbind option_bind]. unfold latest_logs.
    destruct data as [|b|n|x|text|items|answer];
      cbn [Py.contains Py.subscript mbind option_bind default from_option];
      try (by left).
    { destruct (Str.contains _ _); by left. }
    { destruct (existsb _ _); by left. }
    case_bool_decide as Hdata; [|by left].
    destruct (answer !! "data") as [inner|] eqn:Ha; [|by left].
    destruct inner as [|b|n|x|text|items|inner];
      cbn [Py.contains Py.subscript mbind option_bind default from_option];
      try (by left).
    { destruct (Str.contains _ _); by left. }
    { destruct (existsb _ _); by left. }
    case_bool_decide as Hproject; [|by left].
    destruct (inner !! "project") as [project|] eqn:Hi; [|by left].
    destruct project as [|b|n|x|text|items|project];
      cbn [Py.subscript mbind option_bind default from_option];
      try (by left).
    destruct (project !! "deployments") as [deployments|] eqn:Hp;
      [|by left].
    cbn [mbind option_bind].
    destruct (Py.truthy deployments) eqn:Ht; [|by left].
    destruct deployments as [|b|n|x|text|items|fields];
      cbn [Py.first mbind option_bind default from_option];
      try (by left).
    { destruct text; by left. }
    destruct items as [|latest others]; [by left|].
    cbn [mbind option_bind].
    destruct latest as [|b|n|x|text|items|latest];
      cbn [Py.get default from_option]; try (by left).
    right. by exists answer, inner, project, latest, others.
Qed.

End RemoteLogs.

(** * The summary of [generate_report] *)

Lemma dict_get_incr (key k : string) (d : list (string * nat)) :
  dict_get k (dict_incr key d)
  = dict_get k d + (if decide (key = k) then 1 else 0).
Proof.
  induction d as [|[k' n] d IH]; cbn [dict_incr dict_get].
  - destruct (String.eqb_spec key k), (decide (key = k)); done.
  - destruct (String.eqb_spec k' key) as [->|Hne]; cbn [dict_get].
    + destruct (String.eqb_spec key k), (decide (key = k)); try done; lia.
    + destruct (String.eqb_spec k' k) as [->|Hne'].
      * destruct (decide (key = k)); [done|lia].
      * exact IH.
Qed.

Lemma dict_incr_keys (key : string) (d : list (string * nat)) :
  (dict_incr key d).*1 = if decide (key ∈ d.*1) then d.*1 else d.*1 ++ [key].
Proof.
  induction d as [|[k' n] d IH]; cbn [dict_incr fmap list_fmap fst].
  - rewrite decide_False; [done|]. apply not_elem_of_nil.
  - destruct (String.eqb_spec k' key) as [->|Hne].
    + cbn. rewrite decide_True; [done|]. left.
    + cbn [fmap list_fmap fst].
      change (list_fmap _ _ fst) with (fmap (M:=list) (@fst string nat)).
      rewrite IH. destruct (decide (key ∈ d.*1)) as [Hin|Hout].
      * rewrite decide_True; [done|]. by right.
      * rewrite decide_False; [done|].
        intros [->|Hin]%elem_of_cons; done.
Qed.

Lemma dict_incr_NoDup (key : string) (d : list (string * nat)) :
  NoDup d.*1 → NoDup (dict_incr key d).*1.
Proof.
  intros Hd. rewrite dict_incr_keys. case_decide; [done|].
  apply NoDup_app. split; [done|]. split; [|apply NoDup_singleton].
  intros x Hx ->%list_elem_of_singleton. done.
Qed.

Lemma dict_incr_sum (key : string) (d : list (string * nat)) :
  sum_list (dict_incr key d).*2 = S (sum_list d.*2).
Proof.
  induction d as [|[k' n] d IH]; cbn [dict_incr]; [done|].
  destruct (String.eqb k' key); cbn; [lia|].
  change (list_fmap _ _ snd) with (fmap (M:=list) (@snd string nat)).
  rewrite IH. lia.
Qed.

Lemma dict_incr_positive (key : string) (d : list (string * nat)) :
  Forall (λ kn, 0 < kn.2) d → Forall (λ kn, 0 < kn.2) (dict_incr key d).
Proof.
  induction 1 as [|[k' n] d Hn Hd IH]; cbn [dict_incr].
  - repeat constructor.
  - destruct (String.eqb k' key); constructor; cbn [snd] in *; try done; lia.
Qed.

Lemma dict_get_elem (k : string) (n : nat) (d : list (string * nat)) :
  NoDup d.*1 → (k, n) ∈ d → dict_get k d = n.
Proof.
  induction d as [|[k' n'] d IH]; intros Hd Hin.
  - by apply elem_of_nil in Hin.
  - rewrite fmap_cons in Hd. apply NoDup_cons in Hd as [Hk' Hd].
    cbn [dict_get]. apply elem_of_cons in Hin as [[= <- <-]|Hin].
    + by rewrite String.eqb_refl.
    + destruct (String.eqb_spec k' k) as [->|Hne]; [|by apply IH].
      exfalso. apply Hk'. apply list_elem_of_fmap. by exists (k, n).
Qed.

Lemma dict_get_positive (k : string) (d : list (string * nat)) :
  0 < dict_get k d → (k, dict_get k d) ∈ d.
Proof.
  induction d as [|[k' n'] d IH]; cbn [dict_get]; [lia|].
  destruct (String.eqb_spec k' k) as [->|Hne]; intros Hpos; [left|].
  right. by apply IH.
Qed.

Lemma count_issues_counts (l : list DeploymentIssue) (st : Summary) :
  status_counts (count_issues l st) = status_counts st ∧
  critical_issues (count_issues l st)
  = critical_issues st + length (filter (λ i, severity i = "critical") l) ∧
  warning_issues (count_issues l st)
  = warning_issues st + length (filter (λ i, severity i = "warning") l).
Proof.
  revert st; induction l as [|i l IH]; intros st; cbn [count_issues].
  { rewrite !filter_nil. cbn [length]. by rewrite !Nat.add_0_r. }
  rewrite !filter_cons.
  destruct (IH (if String.eqb (severity i) "critical" then
           {| status_counts := status_counts st;
              critical_issues := critical_issues st + 1;
              warning_issues := warning_issues st |}
         else if String.eqb (severity i) "warning" then
           {| status_counts := status_counts st;
              critical_issues := critical_issues st;
              warning_issues := warning_issues st + 1 |}
         else st)) as (-> & -> & ->).
  destruct (String.eqb_spec (severity i) "critical") as [Hc|Hc].
  - rewrite Hc. rewrite decide_True by done. rewrite decide_False by done.
    cbn [status_counts critical_issues warning_issues length].
    split; [done|]. split; lia.
  - rewrite (decide_False (P := severity i = "critical")) by done.
    destruct (String.eqb_spec (severity i) "warning") as [Hw|Hw].
    + rewrite decide_True by done.
      cbn [status_counts critical_issues warning_issues length].
      split; [done|]. split; lia.
    + rewrite decide_False by done. done.
Qed.

Lemma all_issues_cons a (analyses : list RepoAnalysis) :
  all_issues (a :: analyses) = issues a ++ all_issues analyses.
Proof. reflexivity. Qed.

Lemma summarize_counts (analyses : list RepoAnalysis) (st : Summary) :
  let out := summarize analyses st in
  (∀ k, dict_get k (status_counts out)
        = dict_get k (status_counts st)
          + length (filter (λ a, status_value (status a) = k) analyses)) ∧
  (NoDup (status_counts st).*1 → NoDup (status_counts out).*1) ∧
  (Forall (λ kn, 0 < kn.2) (status_counts st) →
   Forall (λ kn, 0 < kn.2) (status_counts out)) ∧
  sum_list (status_counts out).*2
  = sum_list (status_counts st).*2 + length analyses ∧
  (∀ k, k ∈ (status_counts out).*1 →
        k ∈ (status_counts st).*1 ∨
        ∃ a, a ∈ analyses ∧ k = status_value (status a)) ∧
  critical_issues out
  = critical_issues st
    + length (filter (λ i, severity i = "critical") (all_issues analyses)) ∧
  warning_issues out
  = warning_issues st
    + length (filter (λ i, severity i = "warning") (all_issues analyses)).
Proof.
  cbv zeta. revert st; induction analyses as [|a analyses IH]; intros st;
    cbn [summarize].
  { cbn [all_issues flat_map]. rewrite !filter_nil. cbn [length].
    rewrite !Nat.add_0_r. repeat split; try done. by left. }
  pose proof (count_issues_counts (issues a)
    {| status_counts :=
         dict_incr (status_value (status a)) (status_counts st);
       critical_issues := critical_issues st;
       warning_issues := warning_issues st |}) as (Hs & Hc & Hw).
  cbn [status_counts critical_issues warning_issues] in Hs, Hc, Hw.
  destruct (IH (count_issues (issues a)
    {| status_counts :=
         dict_incr (status_value (status a)) (status_counts st);
       critical_issues := critical_issues st;
       warning_issues := warning_issues st |}))
    as (Hget & Hnd & Hpos & Hsum & Hkeys & Hcrit & Hwarn).
  rewrite Hs in Hget, Hnd, Hpos, Hsum, Hkeys. rewrite Hc in Hcrit.
  rewrite Hw in Hwarn.
  split; [|split; [|split; [|split; [|split; [|split]]]]].
  - intros k. rewrite Hget, dict_get_incr, filter_cons.
    destruct (decide (status_value (status a) = k)); cbn [length]; lia.
  - intros Hd. by apply Hnd, dict_incr_NoDup.
  - intros Hd. by apply Hpos, dict_incr_positive.
  - rewrite Hsum, dict_incr_sum. cbn [length]. lia.
  - intros k Hk. destruct (Hkeys k Hk) as [Hin|(b & Hb & ->)].
    + rewrite dict_incr_keys in Hin. case_decide; [by left|].
      apply elem_of_app in Hin as [Hin|Hin]; [by left|].
      apply list_elem_of_singleton in Hin as ->.
      right. exists a. split; [left|done].
    + right. exists b. split; [by right|done].
  - rewrite Hcrit, all_issues_cons, filter_app, length_app. lia.
  - rewrite Hwarn, all_issues_cons, filter_app, length_app. lia.
Qed.

Lemma summary_counts (analyses : list RepoAnalysis) :
  (∀ k, dict_get k (status_counts (summary analyses))
        = length (filter (λ a, status_value (status a) = k) analyses)) ∧
  NoDup (status_counts (summary analyses)).*1 ∧
  Forall (λ kn, 0 < kn.2) (status_counts (summary analyses)) ∧
  sum_list (status_counts (summary analyses)).*2 = length analyses ∧
  (∀ k, k ∈ (status_counts (summary analyses)).*1 →
        ∃ a, a ∈ analyses ∧ k = status_value (status a)) ∧
  critical_issues (summary analyses)
  = length (filter (λ i, severity i = "critical") (all_issues analyses)) ∧
  warning_issues (summary analyses)
  = length (filter (λ i, severity i = "warning") (all_issues analyses)).
Proof.
  unfold summary.
  destruct (summarize_counts analyses
              {| status_counts := []; critical_issues := 0;
                 warning_issues := 0 |})
    as (Hget & Hnd & Hpos & Hsum & Hkeys & Hc & Hw).
  cbn [status_counts critical_issues warning_issues dict_get Nat.add
       fmap list_fmap sum_list] in *.
  split; [exact Hget|]. split; [apply Hnd, NoDup_nil_2|].
  split; [apply Hpos, Forall_nil_2|]. split; [exact Hsum|].
  split; [|split; [exact Hc|exact Hw]].
  intros k Hk. destruct (Hkeys k Hk) as [Hin|Hin]; [|exact Hin].
  by apply elem_of_nil in Hin.
Qed.

Lemma summary_keys_bound (analyses : list RepoAnalysis) :
  length (status_counts (summary analyses)) ≤ 4.
Proof.
  destruct (summary_counts analyses) as (_ & Hnd & _ & _ & Hkeys & _).
  rewrite <- (length_fmap fst).
  change 4
    with (length (status_value <$> [SUCCESS; FAILED; PENDING; UNKNOWN])).
  apply submseteq_length, NoDup_submseteq; [exact Hnd|].
  intros k (a & _ & ->)%Hkeys.
  apply list_elem_of_fmap. exists (status a). split; [done|].
  destruct (status a); repeat constructor.
Qed.

(** X12.  The status counts of the report's summary: the keys are
    distinct; an entry [(k, n)] is present exactly when [n > 0] is the
    number of analyses whose status has the value [k]; the counts add up
    to the number of analyses; there are at most four entries. *)
Theorem summary_status_counts (analyses : list RepoAnalysis) :
  NoDup (status_counts (summary analyses)).*1 ∧
  (∀ k n, (k, n) ∈ status_counts (summary analyses) ↔
          0 < n ∧
          n = length (filter (λ a, status_value (status a) = k) analyses)) ∧
  sum_list (status_counts (summary analyses)).*2 = length analyses ∧
  length (status_counts (summary analyses)) ≤ 4.
Proof.
  destruct (summary_counts analyses) as (Hget & Hnd & Hpos & Hsum & _).
  split; [exact Hnd|].
  split; [|split; [exact Hsum|apply summary_keys_bound]].
  intros k n. split.
  - intros Hin. split.
    + rewrite Forall_forall in Hpos. exact (Hpos _ Hin).
    + rewrite <- (dict_get_elem k n _ Hnd Hin). apply Hget.
  - intros [Hn ->]. rewrite <- Hget in Hn |- *. by apply dict_get_positive.
Qed.

Section ReportFacts.
Variable upper : string → string.
Variable now : string.

Lemma report_summary_block (analyses : list RepoAnalysis) i :
  i < 3 →
  report_lines upper now analyses
    !! (8 + length (status_counts (summary analyses)) + i)
  = JStr <$>
    [ "  Critical Issues: "
      +:+ str_nat (length (filter (λ i, severity i = "critical")
                             (all_issues analyses)));
      "  Warning Issues: "
      +:+ str_nat (length (filter (λ i, severity i = "warning")
                             (all_issues analyses)));
      EmptyString ] !! i.
Proof.
  intros Hi.
  destruct (summary_counts analyses) as (_ & _ & _ & _ & _ & Hc & Hw).
  unfold report_lines. cbv zeta. rewrite Hc, Hw.
  rewrite lookup_app_l
    by (rewrite length_fmap, !length_app, length_fmap; cbn [length]; lia).
  rewrite list_lookup_fmap. f_equal.
  rewrite lookup_app_r by (cbn [length]; lia).
  rewrite lookup_app_r by (rewrite length_fmap; cbn [length]; lia).
  f_equal. rewrite length_fmap. cbn [length]. lia.
Qed.

(** X13.  In the list of report lines (counted from 0), line 4 gives the
    number of analyses; after the [k ≤ 4] status lines that start at
    line 8 come the line with the number of issues of severity
    [critical] over all analyses and the line with the number of those
    of severity [warning]. *)
Theorem report_issue_counters (analyses : list RepoAnalysis) :
  ∃ k,
    k ≤ 4 ∧
    report_lines upper now analyses !! 4
    = Some (JStr ("Total Repositories Analyzed: "
                  +:+ str_nat (length analyses))) ∧
    report_lines upper now analyses !! (8 + k)
    = Some (JStr ("  Critical Issues: "
                  +:+ str_nat (length (filter (λ i, severity i = "critical")
                                         (all_issues analyses))))) ∧
    report_lines upper now analyses !! (9 + k)
    = Some (JStr ("  Warning Issues: "
                  +:+ str_nat (length (filter (λ i, severity i = "warning")
                                         (all_issues analyses))))).
Proof.
  exists (length (status_counts (summary analyses))).
  split; [apply summary_keys_bound|]. split; [reflexivity|]. split.
  - rewrite <- (Nat.add_0_r (8 + _)).
    by rewrite (report_summary_block analyses 0) by lia.
  - replace (9 + length (status_counts (summary analyses)))
      with (8 + length (status_counts (summary analyses)) + 1) by lia.
    by rewrite (report_summary_block analyses 1) by lia.
Qed.

End ReportFacts.

(** * [get_github_repos] *)

Section GitHubFacts.
Variable github_page : string → nat → option (list Dict).

(** Every iteration that does not leave the loop adds a record, so the
    loop is left before [repos] holds a thousand records. *)
Lemma github_loop_returns fuel username page repos :
  0 < fuel → 1000 ≤ fuel + length repos →
  is_Some (get_github_repos_loop github_page fuel username page repos).
Proof.
  revert page repos; induction fuel as [|fuel IH]; intros page repos Hpos Hf;
    [lia|].
  cbn [get_github_repos_loop].
  destruct (github_page username page) as [page_repos|]; [|by eexists].
  destruct page_repos as [|r page_repos]; cbn [is_nil]; [by eexists|].
  cbv zeta.
  destruct (Nat.leb_spec 1000 (length (repos ++ r :: page_repos)))
    as [Hl|Hl]; [by eexists|].
  apply IH; rewrite length_app in *; cbn [length] in *; lia.
Qed.

Lemma github_loop_fuel fuel fuel' username page repos out :
  get_github_repos_loop github_page fuel username page repos = Some out →
  fuel ≤ fuel' →
  get_github_repos_loop github_page fuel' username page repos = Some out.
Proof.
  revert fuel' page repos; induction fuel as [|fuel IH];
    intros fuel' page repos Hrun Hle; [discriminate Hrun|].
  destruct fuel' as [|fuel']; [lia|].
  cbn [get_github_repos_loop] in *.
  destruct (github_page username page) as [page_repos|]; [|exact Hrun].
  destruct (is_nil page_repos); [exact Hrun|]. cbv zeta in *.
  destruct (1000 <=? length (repos ++ page_repos)); [exact Hrun|].
  apply IH; [exact Hrun|lia].
Qed.

Lemma github_loop_pages fuel username page repos out :
  get_github_repos_loop github_page fuel username page repos = Some out →
  ∃ k,
    out = repos
          ++ flat_map (λ p, default [] (github_page username p)) (seq page k) ∧
    (∀ i, i < k →
          ∃ l, github_page username (page + i) = Some l ∧ l ≠ []) ∧
    (∀ j, 0 < j < k →
          length (repos
                  ++ flat_map (λ p, default [] (github_page username p))
                       (seq page j)) < 1000) ∧
    (k = 0 ∨ length out < 1000 →
     github_page username (page + k) = None ∨
     github_page username (page + k) = Some []).
Proof.
  revert page repos; induction fuel as [|fuel IH]; intros page repos Hrun;
    [discriminate Hrun|].
  cbn [get_github_repos_loop] in Hrun.
  destruct (github_page username page) as [page_repos|] eqn:Hpage.
  2:{ injection Hrun as <-. exists 0. cbn [seq flat_map].
      rewrite app_nil_r, Nat.add_0_r.
      split; [done|]. split; [intros i Hi; lia|]. split; [intros j Hj; lia|].
      intros _. by left. }
  destruct page_repos as [|r page_repos]; cbn [is_nil] in Hrun.
  { injection Hrun as <-. exists 0. cbn [seq flat_map].
    rewrite app_nil_r, Nat.add_0_r.
    split; [done|]. split; [intros i Hi; lia|]. split; [intros j Hj; lia|].
    intros _. by right. }
  cbv zeta in Hrun.
  destruct (Nat.leb_spec 1000 (length (repos ++ r :: page_repos)))
    as [Hl|Hl].
  - injection Hrun as <-. exists 1. cbn [seq flat_map].
    rewrite Hpage. cbn [default from_option id]. rewrite app_nil_r.
    split; [done|]. split; [|split].
    + intros i Hi. assert (i = 0) as -> by lia. rewrite Nat.add_0_r.
      by exists (r :: page_repos).
    + intros j Hj. lia.
    + intros [H|H]; [discriminate H|lia].
  - destruct (IH _ _ Hrun) as (k & -> & Hpages & Hlen & Hstop).
    exists (S k). cbn [seq flat_map]. rewrite Hpage.
    cbn [default from_option id].
    rewrite <- !app_assoc. split; [done|]. split; [|split].
    + intros [|i] Hi.
      * rewrite Nat.add_0_r. by exists (r :: page_repos).
      * rewrite Nat.add_succ_r. apply (Hpages i). lia.
    + intros [|[|j]] Hj; [lia| |].
      * cbn [seq flat_map]. rewrite Hpage. cbn [default from_option id].
        by rewrite app_nil_r.
      * specialize (Hlen (S j)). cbn [seq flat_map] in *. rewrite Hpage.
        cbn [default from_option id]. rewrite app_assoc. apply Hlen. lia.
    + intros [H|H]; [discriminate H|]. rewrite Nat.add_succ_r.
      apply Hstop. right. by rewrite app_assoc in H.
Qed.

Lemma pages_upto_length username k :
  (∀ i, i < k → ∃ l, github_page username (1 + i) = Some l ∧ l ≠ []) →
  k ≤ length (pages_upto github_page username k).
Proof.
  unfold pages_upto. induction k as [|k IH]; intros Hpages; [done|].
  rewrite seq_S, flat_map_app, length_app. cbn [flat_map].
  destruct (Hpages k) as (l & -> & Hl); [lia|]. cbn [default from_option id].
  rewrite app_nil_r. destruct l as [|r l]; [done|]. cbn [id length].
  specialize (IH (λ i Hi, Hpages i (Nat.lt_lt_succ_r _ _ Hi))). lia.
Qed.

(** X14.  [get_github_repos] returns for every behaviour of the server:
    a thousand iterations always reach a [break], and more iterations
    allowed give the same list. *)
Theorem get_github_repos_returns (username : string) :
  ∃ repos,
    get_github_repos github_page username = Some repos ∧
    ∀ fuel, 1000 ≤ fuel →
      get_github_repos_loop github_page fuel username 1 [] = Some repos.
Proof.
  destruct (github_loop_returns 1000 username 1 []) as [repos Hrun];
    [lia|cbn [length]; lia|].
  exists repos. split; [exact Hrun|]. intros fuel Hf.
  by apply (github_loop_fuel 1000).
Qed.

(** X15.  The list [get_github_repos] returns is that of the pages
    [1..k] for some [k ≤ 1000]: each of these pages was answered with a
    list that is not empty; before each of them fewer than a thousand
    records were collected; and if the result has fewer than a thousand
    records, the request for page [k+1] failed or gave an empty list. *)
Theorem get_github_repos_pages (username : string) :
  ∃ k,
    k ≤ 1000 ∧
    get_github_repos github_page username
    = Some (pages_upto github_page username k) ∧
    (∀ i, 1 ≤ i ≤ k → ∃ l, github_page username i = Some l ∧ l ≠ []) ∧
    (∀ j, j < k → length (pages_upto github_page username j) < 1000) ∧
    (length (pages_upto github_page username k) < 1000 →
     github_page username (S k) = None ∨
     github_page username (S k) = Some []).
Proof.
  destruct (github_loop_returns 1000 username 1 []) as [repos Hrun];
    [lia|cbn [length]; lia|].
  destruct (github_loop_pages _ _ _ _ _ Hrun)
    as (k & -> & Hpages & Hlen & Hstop).
  cbn [app] in *. fold (pages_upto github_page username k) in *.
  assert (Hbelow : ∀ j, j < k →
            length (pages_upto github_page username j) < 1000).
  { intros [|j] Hj; [cbn; lia|]. apply Hlen. lia. }
  exists k. split; [|split; [exact Hrun|split; [|split]]].
  - destruct k as [|k]; [lia|].
    pose proof (Hbelow k (Nat.lt_succ_diag_r k)) as Hk.
    pose proof (pages_upto_length username k
                  (λ i Hi, Hpages i (Nat.lt_lt_succ_r _ _ Hi))). lia.
  - intros [|i] Hi; [lia|]. apply (Hpages i). lia.
  - exact Hbelow.
  - intros Hl. apply Hstop. by right.
Qed.

End GitHubFacts.

(** * [main] and the log source *)

Lemma main_three (line1 line2 line3 : string) (rest : list string) :
  main (line1 :: line2 :: line3 :: rest)
  = if Str.all_space line1 then Exit 1 (line2 :: line3 :: rest)
    else if Str.all_space line3 then Exit 1 rest
    else Runs (__init__ (Str.strip line1) (Some (Str.strip line2)))
           (Str.strip line3) rest.
Proof. unfold main. cbv zeta. by rewrite !strip_empty. Qed.

Lemma init_headers (token : string) (railway : string) :
  railway_headers (__init__ token (Some railway))
  = if is_empty_str railway then None
    else Some (<[ "Authorization" := "Bearer " +:+ railway ]>
                 (<[ "Content-Type" := "application/json" ]> ∅)).
Proof. by destruct railway. Qed.

(** X16.  [main] reaches [run_analysis] exactly when three lines can be
    read and neither the first (the GitHub token) nor the third (the user
    name) is blank; the second line (the Railway token) plays no role. *)
Theorem main_runs_iff (inputs : list string) :
  (∃ analyzer github_username unread,
     main inputs = Runs analyzer github_username unread) ↔
  ∃ line1 line2 line3 rest,
    inputs = line1 :: line2 :: line3 :: rest ∧
    Str.all_space line1 = false ∧ Str.all_space line3 = false.
Proof.
  split.
  - intros (analyzer & user & unread & Hrun).
    destruct inputs as [|line1 [|line2 [|line3 rest]]].
    + discriminate Hrun.
    + unfold main in Hrun. cbv zeta in Hrun.
      destruct (is_empty_str (Str.strip line1)); discriminate Hrun.
    + unfold main in Hrun. cbv zeta in Hrun.
      destruct (is_empty_str (Str.strip line1)); discriminate Hrun.
    + rewrite main_three in Hrun. exists line1, line2, line3, rest.
      destruct (Str.all_space line1); [discriminate Hrun|].
      destruct (Str.all_space line3); [discriminate Hrun|]. done.
  - intros (line1 & line2 & line3 & rest & -> & H1 & H3).
    rewrite main_three, H1, H3. by eexists _, _, _.
Qed.

(** X17.  [main] exits with code 1 only, and then either the first line
    is blank and no further line was read, or the first is not blank and
    the third is. *)
Theorem main_exit (inputs : list string) (code : Z) (unread : list string) :
  main inputs = Exit code unread →
  code = 1%Z ∧
  ∃ line1 rest,
    inputs = line1 :: rest ∧
    ((Str.all_space line1 = true ∧ unread = rest) ∨
     (∃ line2 line3,
        rest = line2 :: line3 :: unread ∧ Str.all_space line1 = false ∧
        Str.all_space line3 = true)).
Proof.
  destruct inputs as [|line1 [|line2 [|line3 rest]]].
  - intros H; discriminate H.
  - unfold main. cbv zeta. rewrite strip_empty.
    destruct (Str.all_space line1) eqn:H1; intros H; [|discriminate H].
    injection H as <- <-. split; [done|]. exists line1, []. split; [done|].
    by left.
  - unfold main. cbv zeta. rewrite strip_empty.
    destruct (Str.all_space line1) eqn:H1; intros H; [|discriminate H].
    injection H as <- <-. split; [done|]. exists line1, [line2].
    split; [done|]. by left.
  - rewrite main_three.
    destruct (Str.all_space line1) eqn:H1.
    { intros H. injection H as <- <-. split; [done|].
      exists line1, (line2 :: line3 :: rest). split; [done|]. by left. }
    destruct (Str.all_space line3) eqn:H3; intros H; [|discriminate H].
    injection H as <- <-. split; [done|].
    exists line1, (line2 :: line3 :: rest). split; [done|]. right.
    by exists line2, line3.
Qed.

Section LogSourceFacts.
Variable subprocess_run : list string → Completion.
Variable railway_post : Dict → string → option json.

(** X18.  For the analyzer [main] builds, the logs come from the
    command-line tool when the Railway token line is blank or the project
    has no id (or an empty one), and otherwise from the remote interface,
    called with the headers that carry the stripped token and with the
    project id. *)
Theorem railway_token_selects_source line1 line2 line3 rest
    analyzer github_username unread project_name project_id :
  main (line1 :: line2 :: line3 :: rest)
  = Runs analyzer github_username unread →
  get_railway_deployment_logs subprocess_run railway_post
    analyzer project_name project_id
  = match project_id with
    | Some (String c id) =>
        if Str.all_space line2 then
          JStr (_get_railway_logs_cli subprocess_run project_name)
        else
          _get_railway_logs_api railway_post
            (<[ "Authorization" := "Bearer " +:+ Str.strip line2 ]>
               (<[ "Content-Type" := "application/json" ]> ∅))
            (String c id)
    | _ => JStr (_get_railway_logs_cli subprocess_run project_name)
    end.
Proof.
  rewrite main_three.
  destruct (Str.all_space line1); [intros H; discriminate H|].
  destruct (Str.all_space line3); intros H; [discriminate H|].
  injection H as <- _ _. unfold get_railway_deployment_logs.
  rewrite init_headers, strip_empty.
  destruct (Str.all_space line2), project_id as [[|c id]|]; reflexivity.
Qed.

(** X19.  When the analyzer has no Railway headers and the first command
    of the command-line tool does not end in time, a repository matched
    to a project is analysed on the message of the timeout: the single
    issue [unknown_failure] and status [PENDING] (no pattern of the
    category [timeout] matches the message), and the message as
    preview. *)
Theorem cli_timeout_analysis analyzer repo repo_name pre project post
    project_name :
  railway_headers analyzer = None →
  repo !! "name" = Some repo_name →
  Forall (named_apart repo_name) pre →
  project !! "name" = Some project_name →
  Str.lower project_name = Str.lower repo_name →
  subprocess_run
    ["railway"; "logs"; "--project"; project_name; "--tail"; "100"]
  = TimeoutExpired →
  ∃ tr,
    analyze_repo
      (get_railway_deployment_logs subprocess_run railway_post analyzer)
      repo (pre ++ project :: post)
    = (inr {| repo_name := repo_name;
              status := PENDING;
              issues := [unknown_failure_issue];
              last_deployment := project !! "updatedAt";
              logs_preview := JStr "CLI command timed out" |}, tr).
Proof.
  intros Hh Hn Hpre Hp Heq Hrun.
  rewrite (analyze_repo_matched _ _ _ _ _ _ Hn
             (find_project_first _ _ _ _ _ Hpre Hp Heq) Hp).
  eexists. f_equal.
  rewrite (matched_outcome_text _ _ _ _ "CLI command timed out").
  - unfold matched_analysis. f_equal; vm_compute; reflexivity.
  - unfold get_railway_deployment_logs, _get_railway_logs_cli.
    rewrite Hh, Hrun. reflexivity.
Qed.

End LogSourceFacts.

(** * The further properties on concrete inputs *)

Lemma analyze_logs_case_blind_witness :
  ∃ issues1 issues2 tr,
    analyze_logs "Build FAILED" "MyApp" = (inr issues1, tr) ∧
    analyze_logs "build failed" "api-service" = (inr issues2, tr) ∧
    Forall2 (λ i1 i2, type i1 = type i2 ∧ severity i1 = severity i2 ∧
                      description i1 = description i2 ∧
                      remediation i1 = remediation i2) issues1 issues2 ∧
    determine_status issues1 = determine_status issues2.
Proof.
  apply (analyze_logs_case_blind "Build FAILED" "build failed"
           "MyApp" "api-service").
  vm_compute. reflexivity.
Defined.

Lemma analyze_repos_completes_witness :
  ∃ analyses tr,
    analyze_repos (λ _ _, JStr example_logs) (λ _, EmptyString)
      [repo_MyApp; repo_api_service] [project_nameless; project_myapp] []
    = (inr analyses, tr) ∧
    Forall2 (λ repo a, repo !! "name" = Some (repo_name a))
      [repo_MyApp; repo_api_service] analyses.
Proof.
  apply (analyze_repos_completes (λ _ _, JStr example_logs) (λ _, EmptyString)).
  constructor; [exists "MyApp"; reflexivity|].
  constructor; [exists "api-service"; reflexivity|]. constructor.
Defined.

Lemma analyze_repos_nameless_repo_witness :
  ∃ tr,
    analyze_repos (λ _ _, JStr example_logs) (λ _, EmptyString)
      ([repo_MyApp] ++ repo_nameless :: [repo_api_service])
      [project_myapp] []
    = (inl (KeyError "name"), tr).
Proof.
  apply (analyze_repos_nameless_repo (λ _ _, JStr example_logs)
           (λ _, EmptyString) [repo_MyApp] repo_nameless
           [repo_api_service] [project_myapp]).
  - constructor; [exists "MyApp"; reflexivity|constructor].
  - reflexivity.
Defined.

Lemma nameless_project_hides_match_witness :
  analyze_repos (λ _ _, JStr example_logs) (λ _, EmptyString) [repo_MyApp]
    ([project_other] ++ project_nameless :: [project_myapp]) []
  = (inr [analysis_error (λ _, EmptyString) "MyApp" (KeyError "name")], []).
Proof.
  apply (nameless_project_hides_match (λ _ _, JStr example_logs)
           (λ _, EmptyString) repo_MyApp "MyApp" [project_other]
           project_nameless [project_myapp]).
  - reflexivity.
  - apply other_apart. vm_compute. discriminate.
  - reflexivity.
Defined.

Lemma analyses_previews_bounded_witness :
  ∃ analyses tr,
    analyze_repos (λ _ _, JStr long_logs) (λ _, EmptyString)
      [repo_MyApp; repo_api_service] [project_myapp] []
    = (inr analyses, tr) ∧
    Forall (λ a, ∃ n, Py.len (logs_preview a) = Some n ∧ n ≤ 503) analyses.
Proof.
  apply (analyses_previews_bounded (λ _ _, JStr long_logs) (λ _, EmptyString)).
  constructor; [exists "MyApp"; reflexivity|].
  constructor; [exists "api-service"; reflexivity|]. constructor.
Defined.

Lemma analyses_success_iff_no_issue_witness :
  ∃ analyses tr,
    analyze_repos (λ _ _, JStr "server started") (λ _, EmptyString)
      [repo_MyApp; repo_api_service] [project_myapp] []
    = (inr analyses, tr) ∧
    Forall (λ a, status a = SUCCESS ↔ issues a = []) analyses.
Proof.
  apply (analyses_success_iff_no_issue (λ _ _, JStr "server started")
           (λ _, EmptyString)).
  constructor; [exists "MyApp"; reflexivity|].
  constructor; [exists "api-service"; reflexivity|]. constructor.
Defined.

Lemma main_exit_witness :
  1%Z = 1%Z ∧
  ∃ line1 rest,
    ["ghp_token"; " "; "  "; "unread"] = line1 :: rest ∧
    ((Str.all_space line1 = true ∧ ["unread"] = rest) ∨
     (∃ line2 line3,
        rest = line2 :: line3 :: ["unread"] ∧
        Str.all_space line1 = false ∧ Str.all_space line3 = true)).
Proof.
  apply (main_exit ["ghp_token"; " "; "  "; "unread"] 1 ["unread"]).
  vm_compute. reflexivity.
Defined.

Lemma railway_token_selects_source_witness :
  get_railway_deployment_logs (λ _, TimeoutExpired) (λ _ _, None)
    (__init__ "ghp_token" (Some EmptyString)) "myapp" (Some "7")
  = JStr "CLI command timed out".
Proof.
  exact (railway_token_selects_source (λ _, TimeoutExpired) (λ _ _, None)
           "ghp_token" "  " " octocat" []
           (__init__ "ghp_token" (Some EmptyString)) "octocat" []
           "myapp" (Some "7") eq_refl).
Defined.

Lemma cli_timeout_analysis_witness :
  ∃ tr,
    analyze_repo
      (get_railway_deployment_logs (λ _, TimeoutExpired) (λ _ _, None)
         (__init__ "ghp_token" None))
      repo_MyApp ([project_other] ++ project_myapp :: [])
    = (inr {| repo_name := "MyApp";
              status := PENDING;
              issues := [unknown_failure_issue];
              last_deployment := project_myapp !! "updatedAt";
              logs_preview := JStr "CLI command timed out" |}, tr).
Proof.
  apply (cli_timeout_analysis (λ _, TimeoutExpired) (λ _ _, None)
           (__init__ "ghp_token" None) repo_MyApp "MyApp" [project_other]
           project_myapp [] "myapp").
  - reflexivity.
  - reflexivity.
  - apply other_apart. vm_compute. discriminate.
  - reflexivity.
  - vm_compute. reflexivity.
  - reflexivity.
Defined.

(** * [run_analysis] *)




Section RunFacts.
Variable github_page : string → nat → option (list Dict).
Variable railway_projects : list Dict.
Variable get_railway_deployment_logs : string → option string → json.
Variable str_exn : exn → string.
Variable upper : string → string.
Variable now : string.
Variable timestamp : string.

Lemma github_loop_stops fuel username page repos :
  github_page username page = None ∨ github_page username page = Some [] →
  get_github_repos_loop github_page (S fuel) username page repos
  = Some repos.
Proof. intros [H|H]; cbn [get_github_repos_loop]; by rewrite H. Qed.

(** X20.  When the request for the first page of repositories fails or
    gives an empty list, [run_analysis] returns early: no report is
    saved, and nothing is analysed (the trace is empty). *)
Theorem run_analysis_no_repos (github_username : string) :
  github_page github_username 1 = None ∨
  github_page github_username 1 = Some [] →
  run_analysis github_page railway_projects get_railway_deployment_logs
    str_exn upper now timestamp github_username
  = (inr None, []).
Proof.
  intros Hpage. unfold run_analysis, get_github_repos.
  change 1000 with (S 999) at 1.
  by rewrite (github_loop_stops 999 _ 1 [] Hpage).
Qed.




End RunFacts.

Lemma run_analysis_no_repos_witness :
  run_analysis (λ _ _, None) [project_myapp] (λ _ _, JStr example_logs)
    (λ _, EmptyString) (λ s, s) "2024-01-01 00:00:00" "20240101_000000"
    "octocat"
  = (inr None, []).
Proof.
  apply (run_analysis_no_repos (λ _ _, None)). left. reflexivity.
Defined.



(** * Longer texts *)

Section Complete.
Context {R : Type}.
Variable ic : bool.

(** The matcher finds a match where the relation has one, whenever the
    continuation goes on from the end of that match. *)
Lemma takes_run r w cs0 cs1 :
  takes ic r w cs0 cs1 →
  ∀ s1 cs (k : list ascii → Re.captures → option R),
    (∀ cs', is_Some (k s1 cs')) →
    is_Some (Re.run ic r (w ++ s1) cs k) ∧
    ∀ r1, r = Re.RStar r1 →
      ∀ fuel, length (w ++ s1) ≤ fuel →
        is_Some (Re.star (Re.run ic r1) k fuel (w ++ s1) cs).
Proof.
  induction 1 as [cs0|r c cs0 Hacc|r1 r2 w1 w2 cs0 cs1 cs2 _ IH1 _ IH2
                 |r1 r2 w cs0 cs1 _ IH|r1 r2 w cs0 cs1 _ IH|r cs0
                 |r w1 w2 cs0 cs1 cs2 _ IH1 _ IH2
                 |r w1 w2 cs0 cs1 cs2 _ IH1 _ IH2
                 |r w cs0 cs1 _ IH|r cs0|n r w cs0 cs1 _ IH];
    intros s1 cs k Hk.
  - split; [apply Hk|]. intros r1 Hr; discriminate Hr.
  - split.
    + destruct r; cbn [Re.accepts] in Hacc; try discriminate Hacc;
        cbn [Re.run app Re.accepts]; rewrite Hacc; apply Hk.
    + intros r1 ->. discriminate Hacc.
  - split; [|intros r Hr; discriminate Hr].
    cbn [Re.run]. rewrite <- app_assoc. apply IH1.
    intros cs'. by apply IH2.
  - split; [|intros r Hr; discriminate Hr].
    cbn [Re.run]. destruct (IH s1 cs k Hk) as [[x ->] _]. by eexists.
  - split; [|intros r Hr; discriminate Hr].
    cbn [Re.run]. destruct (Re.run ic r1 (w ++ s1) cs k); [by eexists|].
    by apply IH.
  - assert (Hstar : ∀ fuel, is_Some (Re.star (Re.run ic r) k fuel s1 cs)).
    { intros [|fuel]; cbn [Re.star]; [apply Hk|].
      destruct (Re.run ic r s1 cs _); [by eexists|apply Hk]. }
    split; [apply Hstar|]. intros r1 [= <-] fuel _. apply Hstar.
  - assert (Hstar : ∀ fuel, length ((w1 ++ w2) ++ s1) ≤ fuel →
              is_Some (Re.star (Re.run ic r) k fuel ((w1 ++ w2) ++ s1) cs)).
    { intros fuel Hfuel. destruct w1 as [|a w1].
      { cbn [app] in *. by eapply (proj2 (IH2 s1 cs k Hk)). }
      destruct fuel as [|fuel]; [cbn [app length] in Hfuel; lia|].
      cbn [Re.star]. rewrite <- app_assoc.
      destruct (IH1 (w2 ++ s1) cs
                  (λ s2 cs2,
                     if length s2 <? length ((a :: w1) ++ w2 ++ s1)
                     then Re.star (Re.run ic r) k fuel s2 cs2 else None))
        as [[x ->] _]; [|by eexists].
      intros cs'.
      destruct (Nat.ltb_spec (length (w2 ++ s1))
                  (length ((a :: w1) ++ w2 ++ s1))) as [_|Hge].
      - eapply (proj2 (IH2 s1 cs' k Hk)); [reflexivity|].
        rewrite <- app_assoc in Hfuel. cbn [app length] in Hfuel.
        rewrite length_app in Hfuel. lia.
      - cbn [app length] in Hge. rewrite !length_app in Hge. lia. }
    split; [by apply Hstar|]. intros r1 [= <-]. apply Hstar.
  - split; [|intros r1 Hr; discriminate Hr].
    cbn [Re.run]. rewrite <- app_assoc. apply IH1. intros cs'.
    by eapply (proj2 (IH2 s1 cs' k Hk)).
  - split; [|intros r1 Hr; discriminate Hr].
    cbn [Re.run]. destruct (IH s1 cs k Hk) as [[x ->] _]. by eexists.
  - split; [|intros r1 Hr; discriminate Hr].
    cbn [Re.run app]. destruct (Re.run ic r s1 cs k); [by eexists|apply Hk].
  - split; [|intros r1 Hr; discriminate Hr].
    cbn [Re.run]. apply IH. intros cs'. apply Hk.
Qed.

End Complete.

Lemma search_from_takes ic r s :
  Re.search_from ic r s = true →
  ∃ pre w rest cs, s = pre ++ w ++ rest ∧ takes ic r w [] cs.
Proof.
  induction s as [|a s IH]; cbn [Re.search_from].
  - destruct (Re.match_at ic r []) as [[[w cs] rest]|] eqn:Hm; [|done].
    intros _. apply match_at_takes in Hm as [Hs Hw].
    by exists [], w, rest, cs.
  - destruct (Re.match_at ic r (a :: s)) as [[[w cs] rest]|] eqn:Hm.
    + intros _. apply match_at_takes in Hm as [Hs Hw].
      by exists [], w, rest, cs.
    + intros (pre & w & rest & cs & -> & Hw)%IH.
      by exists (a :: pre), w, rest, cs.
Qed.

Lemma takes_search_from ic r w cs0 cs1 pre rest :
  takes ic r w cs0 cs1 → Re.search_from ic r (pre ++ w ++ rest) = true.
Proof.
  intros Hw.
  assert (Hat : is_Some (Re.match_at ic r (w ++ rest))).
  { unfold Re.match_at. apply (takes_run ic r w cs0 cs1 Hw). by eexists. }
  induction pre as [|a pre IH]; cbn [app].
  - destruct Hat as [x Hx]. destruct (w ++ rest); cbn [Re.search_from];
      by rewrite Hx.
  - cbn [Re.search_from].
    by destruct (Re.match_at ic r (a :: pre ++ w ++ rest)).
Qed.

Lemma search_from_app ic r pre s post :
  Re.search_from ic r s = true →
  Re.search_from ic r (pre ++ s ++ post) = true.
Proof.
  intros (p & w & rest & cs & -> & Hw)%search_from_takes.
  replace (pre ++ (p ++ w ++ rest) ++ post)
    with ((pre ++ p) ++ w ++ (rest ++ post))
    by (by rewrite <- !app_assoc).
  by eapply takes_search_from.
Qed.

Lemma list_ascii_append (s1 s2 : string) :
  list_ascii_of_string (s1 +:+ s2)
  = list_ascii_of_string s1 ++ list_ascii_of_string s2.
Proof.
  induction s1 as [|c s1 IH]; [reflexivity|].
  change (String c s1 +:+ s2) with (String c (s1 +:+ s2)).
  cbn [list_ascii_of_string app]. by rewrite IH.
Qed.

Lemma lower_append (s1 s2 : string) :
  Str.lower (s1 +:+ s2) = Str.lower s1 +:+ Str.lower s2.
Proof.
  induction s1 as [|c s1 IH]; [reflexivity|].
  change (String c s1 +:+ s2) with (String c (s1 +:+ s2)).
  cbn [Str.lower]. by rewrite IH.
Qed.

Lemma all_space_append (s1 s2 : string) :
  Str.all_space (s1 +:+ s2) = Str.all_space s1 && Str.all_space s2.
Proof.
  induction s1 as [|c s1 IH]; [reflexivity|].
  change (String c s1 +:+ s2) with (String c (s1 +:+ s2)).
  cbn [Str.all_space]. by rewrite IH, andb_assoc.
Qed.

Lemma matches_append (pattern pre text post : string) :
  matches pattern text = true →
  matches pattern (pre +:+ text +:+ post) = true.
Proof.
  unfold matches, Re.search.
  destruct (Re.compile pattern) as [[r n]|]; [|done].
  cbn [mbind option_bind].
  destruct (Re.search_from true r (list_ascii_of_string text)) eqn:Hs;
    [|done].
  intros _. rewrite !list_ascii_append.
  by rewrite (search_from_app true r _ _ _ Hs).
Qed.

Lemma category_matches_append (config : Config.t) (pre text post : string) :
  category_matches config text = true →
  category_matches config (pre +:+ text +:+ post) = true.
Proof.
  unfold category_matches. rewrite !existsb_exists.
  intros (p & Hp & Hm). exists p. split; [exact Hp|].
  by apply matches_append.
Qed.

Lemma issues_of_category (logs : string) k c :
  (k, c) ∈ failure_patterns →
  category_matches c (Str.lower logs) = true →
  pattern_issue k c (extracted logs) ∈ issues_of logs.
Proof.
  intros Hin Hm. pose proof (detected_intro k c logs _ Hin Hm) as Hd.
  destruct (issues_of_cases logs)
    as [[Hb _]|[(_ & Hnil & _)|(_ & _ & ->)]]; [| |exact Hd].
  - rewrite (blank_no_category _ _ _ Hb Hin) in Hm. discriminate Hm.
  - rewrite Hnil in Hd. apply elem_of_nil in Hd. destruct Hd.
Qed.

Lemma issues_of_elem (logs : string) issue :
  issue ∈ issues_of logs →
  issue = no_logs_issue ∨ issue = unknown_failure_issue ∨
  ∃ k c, (k, c) ∈ failure_patterns ∧
         category_matches c (Str.lower logs) = true ∧
         issue = pattern_issue k c (extracted logs).
Proof.
  intros Hi.
  destruct (issues_of_cases logs)
    as [[_ Heq]|[(_ & _ & _ & Heq)|(_ & _ & Heq)]]; rewrite Heq in Hi.
  - left. by apply list_elem_of_singleton in Hi.
  - right. left. by apply list_elem_of_singleton in Hi.
  - right. right. by apply detected_elem in Hi.
Qed.

Lemma reserved_types (k : string) :
  k ∈ failure_patterns.*1 → k ≠ "no_logs" ∧ k ≠ "unknown_failure".
Proof.
  assert (failure_patterns.*1
          = ["missing_env_vars"; "port_binding"; "build_failure";
             "database_connection"; "memory_limit"; "timeout";
             "file_not_found"; "permission_denied"]) as ->
    by (vm_compute; reflexivity).
  intros Hk. repeat (apply elem_of_cons in Hk as [->|Hk]; [by split|]).
  by apply elem_of_nil in Hk.
Qed.

(** X23.  Text added in front of a log text or after it never hides a
    failure: every category of the catalog reported for the text is
    reported for the longer text as well, and if the status rule gives
    [FAILED] on the issues of the text, it does so on those of the
    longer text. *)
Theorem analyze_logs_more_text (pre logs post repo_name : string) :
  ∃ issues issues' tr tr',
    analyze_logs logs repo_name = (inr issues, tr) ∧
    analyze_logs (pre +:+ logs +:+ post) repo_name = (inr issues', tr') ∧
    (∀ k, k ∈ failure_patterns.*1 →
          k ∈ type <$> issues → k ∈ type <$> issues') ∧
    (determine_status issues = FAILED → determine_status issues' = FAILED).
Proof.
  exists (issues_of logs), (issues_of (pre +:+ logs +:+ post)),
    (trace_of logs), (trace_of (pre +:+ logs +:+ post)).
  split; [apply analyze_logs_eq|]. split; [apply analyze_logs_eq|].
  assert (Hmore : ∀ k c, (k, c) ∈ failure_patterns →
            category_matches c (Str.lower logs) = true →
            pattern_issue k c (extracted (pre +:+ logs +:+ post))
            ∈ issues_of (pre +:+ logs +:+ post)).
  { intros k c Hin Hm. apply issues_of_category; [exact Hin|].
    rewrite !lower_append. by apply category_matches_append. }
  split.
  - intros k Hk (i & -> & Hi)%list_elem_of_fmap.
    apply reserved_types in Hk as [Hk1 Hk2].
    apply issues_of_elem in Hi as [->|[->|(k & c & Hin & Hm & ->)]];
      [done|done|].
    apply list_elem_of_fmap. eexists. split; [|exact (Hmore k c Hin Hm)].
    reflexivity.
  - rewrite !(status_failed_critical _ (issues_of_severities _)).
    rewrite !Exists_exists. intros (i & Hi & Hc).
    apply issues_of_elem in Hi as [->|[->|(k & c & Hin & Hm & ->)]];
      [discriminate Hc|discriminate Hc|].
    eexists. split; [exact (Hmore k c Hin Hm)|exact Hc].
Qed.

Lemma other_answer_outcome_witness :
  ∃ e,
    e = TypeError "len" JNull ∧
    analyze_repo (λ _ _, JNull) repo_MyApp
      ([project_other] ++ project_myapp :: [])
    = (inl e, [LogsFetched "myapp" (Some "7"); LogsAnalyzed JNull "MyApp"]) ∧
    analyze_repos (λ _ _, JNull) (λ _, EmptyString) [repo_MyApp]
      ([project_other] ++ project_myapp :: []) []
    = (inr [analysis_error (λ _, EmptyString) "MyApp" e],
       [LogsFetched "myapp" (Some "7"); LogsAnalyzed JNull "MyApp"]).
Proof.
  destruct (other_answer_outcome (λ _ _, JNull) (λ _, EmptyString)
              repo_MyApp "MyApp" [project_other] project_myapp []
              "myapp" JNull) as [_ Hraise].
  - reflexivity.
  - apply other_apart. vm_compute. discriminate.
  - reflexivity.
  - vm_compute. reflexivity.
  - reflexivity.
  - discriminate.
  - apply Hraise; discriminate.
Defined.
